(** * A shallow embedding of the search core of the chess engine

    The development follows the C++ sources file by file:

    - [TT]       : the transposition-table entry of tt.h,
    - [Piece]    : the pieces of piece.h and piece.cpp,
    - [HistoryT] : the history table of history.cpp,
    - [Search]   : the node routines, the killer ring, the root moves
                   and the polling code of search.cpp,
    - [Bitboard] : the magic-number search, the bit scans and the
                   tables of bitboard.cpp,
    - [Pawns]    : the scan for a backward pawn of pawns.cpp,
    - [Threads]  : the start of a split of thread.cpp,
    - [UCI]      : the command dispatcher of uci.cpp and the option
                   registry of ucioption.cpp.

    C++ integers are modelled as [Z]; unsigned 32- and 64-bit quantities
    have their wrap-around written out where the code relies on it.
    Arrays are lists read with [!!] and updated with [<[ _ := _ ]>];
    the option registry ([std::map<std::string, Option>]) is a [gmap]. *)

From Stdlib Require Import ZArith Lia Bool List.
From stdpp Require Import base gmap list strings sorting.

Local Open Scope Z_scope.

(** The enumerations [Value], [Depth] and [Move] are plain C++ [int]s. *)
Abbreviation Value := Z (only parsing).
Abbreviation Depth := Z (only parsing).
Abbreviation Move := Z (only parsing).
Abbreviation ValueType := Z (only parsing).
Abbreviation Key := Z (only parsing).

(** * tt.h : transposition-table entries *)

Module TT.

(** class TTEntry: [key_] is a 64-bit key, [data] a [uint32_t], [value_]
    and [depth_] are [int16_t]. *)
Record TTEntry := mkTTEntry {
  key_ : Key;
  data : Z;
  value_ : Z;
  depth_ : Z
}.

(** The range of the [uint32_t] field. *)
Definition data_ok (e : TTEntry) : Prop := 0 <= data e < 2 ^ 32.

Definition key (e : TTEntry) : Key := key_ e.
Definition depth (e : TTEntry) : Depth := depth_ e.
(** [Move(data & 0x1FFFF)] *)
Definition move (e : TTEntry) : Move := Z.land (data e) 0x1FFFF.
Definition value (e : TTEntry) : Value := value_ e.
(** [ValueType((data >> 20) & 7)] *)
Definition type (e : TTEntry) : ValueType := Z.land (Z.shiftr (data e) 20) 7.
(** [data >> 23] *)
Definition generation (e : TTEntry) : Z := Z.shiftr (data e) 23.
(** [(data >> 17) & 1], converted to [bool] *)
Definition staticValue (e : TTEntry) : bool :=
  negb (Z.land (Z.shiftr (data e) 17) 1 =? 0).
(** [data |= (1 << 17)] *)
Definition setStaticValue (e : TTEntry) : TTEntry :=
  mkTTEntry (key_ e) (Z.lor (data e) (Z.shiftl 1 17)) (value_ e) (depth_ e).

End TT.

(** * piece.h *)

Module Piece.

(** [type_of_piece]: [int(p) & 7]; [color_of_piece]: [int(p) >> 3]. *)
Definition type_of_piece (p : Z) : Z := Z.land p 7.
Definition color_of_piece (p : Z) : Z := Z.shiftr p 3.

(** [PAWN = 1], [KING = 6]. *)
Definition piece_type_is_ok (pt : Z) : bool := (1 <=? pt) && (pt <=? 6).

(** Modelled from the spec: color.h is not among the sources; a colour is
    one of the two sides, [WHITE = 0] and [BLACK = 1]. *)
Definition color_is_ok (c : Z) : bool := (0 <=? c) && (c <=? 1).

Definition piece_is_ok (pc : Z) : bool :=
  piece_type_is_ok (type_of_piece pc) && color_is_ok (color_of_piece pc).

(** Modelled from the spec: square.h is not among the sources; the 64
    squares are numbered from [SQ_A1 = 0] to [SQ_H8 = 63]. *)
Definition square_is_ok (s : Z) : bool := (0 <=? s) && (s <=? 63).

(** [piece_of_color_and_type]: [(int(c) << 3) | int(pt)] *)
Definition piece_of_color_and_type (c pt : Z) : Z := Z.lor (Z.shiftl c 3) pt.

(** [SlidingArray[18]], read by [piece_is_slider] and
    [piece_type_is_slider]. The code reads it at a piece or at a piece
    type only; a read past its end is left at 0 here. *)
Definition SlidingArray : list Z :=
  [0; 0; 0; 1; 2; 3; 0; 0; 0; 0; 0; 1; 2; 3; 0; 0; 0; 0].

Definition piece_is_slider (p : Z) : Z :=
  default 0 (SlidingArray !! Z.to_nat p).

Definition piece_type_is_slider (pt : Z) : Z :=
  default 0 (SlidingArray !! Z.to_nat pt).

(** ** piece.cpp *)

(** Characters are their codes. [PieceChars] is the array [" pnbrqk"],
    the terminating 0 included. *)
Definition PieceChars : list Z := [32; 112; 110; 98; 114; 113; 107; 0].

(** [tolower] and [toupper] in the "C" locale. *)
Definition tolower (c : Z) : Z :=
  if (65 <=? c) && (c <=? 90) then c + 32 else c.

Definition toupper (c : Z) : Z :=
  if (97 <=? c) && (c <=? 122) then c - 32 else c.

(** [piece_type_to_char] *)
Definition piece_type_to_char (pt : Z) (upcase : bool) : Z :=
  let c := default 0 (PieceChars !! Z.to_nat pt) in
  if upcase then toupper c else c.

(** [strchr], as an index from [i] on: the first occurrence of [c]; the
    terminating 0 is part of the string that is searched. *)
Fixpoint strchr (s : list Z) (c i : Z) : option Z :=
  match s with
  | [] => None
  | x :: rest => if x =? c then Some i else strchr rest c (i + 1)
  end.

(** [piece_type_from_char]; [NO_PIECE_TYPE = 0]. *)
Definition piece_type_from_char (c : Z) : Z :=
  match strchr PieceChars (tolower c) 0 with
  | Some i => i
  | None => 0
  end.

End Piece.

(** * history.cpp *)

Module HistoryT.

(** The three tables are [int [16][64]] arrays, laid out row by row:
    entry [[p][to]] is cell [64 * p + to]. *)
Record History := mkHistory {
  history : list Z;
  successCount : list Z;
  failureCount : list Z
}.

Definition cell (p to : Z) : nat := Z.to_nat (64 * p + to).

Definition get (t : list Z) (p to : Z) : Z := default 0 (t !! cell p to).

Definition set (t : list Z) (p to : Z) (v : Z) : list Z := <[cell p to := v]> t.

(** [History::clear]: the three [memset]s. *)
Definition clear : History :=
  mkHistory (replicate 1024 0) (replicate 1024 0) (replicate 1024 0).

Definition wf (h : History) : Prop :=
  length (history h) = 1024%nat /\
  length (successCount h) = 1024%nat /\
  length (failureCount h) = 1024%nat.

Section WithHistoryMax.

(** [HistoryMax] is a constant of history.h, which is not among the
    sources. *)
Variable HistoryMax : Z.

(** [History::success]. The two nested loops run over every cell of the
    table; [/= 4] on an [int] truncates toward zero. The counters are
    [int]s that stay far from the ends of their range (a history counter
    is cut back as soon as it reaches [HistoryMax]), and are taken as
    integers here. *)
Definition success (h : History) (p to : Z) (d : Depth) : History :=
  let hist1 := set (history h) p to (get (history h) p to + d * d) in
  let succ1 := set (successCount h) p to (get (successCount h) p to + 1) in
  let hist2 :=
    if HistoryMax <=? get hist1 p to
    then map (fun x => Z.quot x 4) hist1
    else hist1 in
  mkHistory hist2 succ1 (failureCount h).

End WithHistoryMax.

(** [History::failure]. *)
Definition failure (h : History) (p to : Z) : History :=
  mkHistory (history h) (successCount h)
            (set (failureCount h) p to (get (failureCount h) p to + 1)).

(** [History::move_ordering_score]. *)
Definition move_ordering_score (h : History) (p to : Z) : Z :=
  get (history h) p to.

(** [History::ok_to_prune]. *)
Definition ok_to_prune (h : History) (p to : Z) (d : Depth) : bool :=
  d * get (successCount h) p to <? get (failureCount h) p to.

End HistoryT.

(** * search.cpp *)

Module Search.

(** What search.cpp takes from headers that are not among the sources
    (value.h, depth.h, move.h) and from tables filled at start-up. *)
Class Params := {
  OnePly : Depth;
  PLY_MAX : Z;
  VALUE_MATE : Value;
  VALUE_INFINITE : Value;
  VALUE_NONE : Value;
  VALUE_KNOWN_WIN : Value;
  PawnValueMidgame : Value;
  VALUE_TYPE_EVAL : ValueType;
  value_from_tt : Value -> Z -> Value;
  is_lower_bound : ValueType -> bool;
  is_upper_bound : ValueType -> bool;
  MOVE_NONE : Move;
  MOVE_NULL : Move;
  (** [FutilityMargins[]], filled by [init_threads] *)
  FutilityMargins : Z -> Value;
  (** [ThreatDepth], read from the UCI options by [think] *)
  ThreatDepth : Depth
}.

(** Early exit: a routine either returns a value or goes on. *)
Inductive flow (A : Type) : Type :=
| Return (v : Value)
| Next (a : A).
Arguments Return {A} v.
Arguments Next {A} a.

Definition bind {A B : Type} (x : flow A) (k : A -> flow B) : flow B :=
  match x with
  | Return v => Return v
  | Next a => k a
  end.

Notation "'let*' x := m 'in' k" := (bind m (fun x => k))
  (at level 10, x name, k at level 200).

(** [when c v]: [if (c) return v;] *)
Definition when (c : bool) (v : Value) : flow unit :=
  if c then Return v else Next tt.

(** The position a recursive call is made on. *)
Inductive PosRef :=
| Here
| AfterNullMove
| AfterMove (m : Move).

(** A call of one of the three node routines. *)
Inductive Call :=
| CallSearchPV (pos : PosRef) (alpha beta : Value) (depth : Depth) (ply : Z)
| CallSearch (pos : PosRef) (beta : Value) (depth : Depth) (ply : Z)
    (allowNullmove : bool) (excludedMove : Move)
| CallQsearch (pos : PosRef) (alpha beta : Value) (depth : Depth) (ply : Z).

Inductive NodeKind := PvNode | NonPvNode | QNode.

(** What a node routine observes of the position, of the shared tables
    and of the calls it makes. The routines of search.cpp are recursive
    through [child]: the value a call returns. *)
Record Env := mkEnv {
  (** [AbortSearch || thread_should_stop(threadID)], after [init_node] *)
  aborted : bool;
  (** [pos.is_draw()] *)
  is_draw : bool;
  (** [TT.retrieve(pos.get_key())] *)
  tt_key : option TT.TTEntry;
  (** [TT.retrieve(pos.get_exclusion_key())] *)
  tt_exclusion_key : option TT.TTEntry;
  (** [pos.is_check()] *)
  is_check : bool;
  (** [evaluate(pos, ei, threadID)] *)
  evaluate : Value;
  (** [ei.futilityMargin[pos.side_to_move()]] *)
  ei_futilityMargin : Value;
  (** [ok_to_do_nullmove(pos)] *)
  ok_to_do_nullmove : bool;
  (** [pos.has_pawn_on_7th(pos.side_to_move())] *)
  has_pawn_on_7th : bool;
  (** [ss[ply - 1].currentMove] and [ss[ply - 1].reduction] *)
  prev_currentMove : Move;
  prev_reduction : Depth;
  (** the value returned by a recursive call *)
  child : Call -> Value;
  (** [ss[ply + 1].currentMove] once the call has returned *)
  child_currentMove : Call -> Move;
  (** [ss[ply].pv[ply]] and [TT.retrieve(pos.get_key())] once the call
      has returned *)
  child_pv_move : Call -> Move;
  child_tt_key : Call -> option TT.TTEntry;
  (** [connected_moves(pos, m1, m2)] *)
  connected_moves : Move -> Move -> bool;
  (** the moves [mp.get_next_move()] hands out, one at a time, for a
      picker built with the given [ttMove]; [MOVE_NONE] follows the last *)
  picker : Move -> list Move;
  (** [thread_should_stop(threadID)] at the loop test, by the number of
      moves already fetched *)
  should_stop : nat -> bool;
  (** [pos.has_mate_threat(opposite_color(pos.side_to_move()))] *)
  has_mate_threat : bool;
  (** the body of the move loop once the move is counted, from the
      pruning decisions to the split: given the node kind, the move, the
      new [moveCount], [bestValue], [alpha] (PV and quiescence nodes),
      the entry and [mateThreat], the new [bestValue] and [alpha] and
      whether the body leaves the loop *)
  search_move : NodeKind -> Move -> Z -> Value -> Value ->
                option TT.TTEntry -> bool -> Value * Value * bool
}.

Section Routines.

Context `{P : Params}.

(** Modelled from the spec: value.h is not among the sources; the spec
    gives [VALUE_DRAW = 0] and mate scores as [VALUE_MATE - ply]. *)
Definition VALUE_DRAW : Value := 0.
Definition value_mate_in (ply : Z) : Value := VALUE_MATE - ply.
Definition value_mated_in (ply : Z) : Value := - VALUE_MATE + ply.

Definition RazorDepth : Depth := 4 * OnePly.
Definition NullMoveMargin : Value := 0x200.
Definition IIDMargin : Value := 0x100.
Definition UseIIDAtPVNodes : bool := true.
Definition UseIIDAtNonPVNodes : bool := true.
Definition FutilityMarginQS : Value := 0x80.

(** [value_is_mate] *)
Definition value_is_mate (value : Value) : bool :=
  (value <=? value_mated_in PLY_MAX) || (value_mate_in PLY_MAX <=? value).

(** [ok_to_use_TT] *)
Definition ok_to_use_TT (tte : TT.TTEntry) (depth : Depth) (beta : Value)
    (ply : Z) : bool :=
  let v := value_from_tt (TT.value tte) ply in
  ((depth <=? TT.depth tte)
   || (Z.max (value_mate_in PLY_MAX) beta <=? v)
   || (v <? Z.min (value_mated_in PLY_MAX) beta))
  && ((is_lower_bound (TT.type tte) && (beta <=? v))
      || (is_upper_bound (TT.type tte) && (v <? beta))).

(** [refine_eval] *)
Definition refine_eval (tte : option TT.TTEntry) (defaultEval : Value)
    (ply : Z) : Value :=
  match tte with
  | None => defaultEval
  | Some e =>
      let v := value_from_tt (TT.value e) ply in
      if (is_lower_bound (TT.type e) && (defaultEval <=? v))
         || (is_upper_bound (TT.type e) && (v <? defaultEval))
      then v else defaultEval
  end.

(** [tte ? tte->move() : MOVE_NONE] *)
Definition tt_move (tte : option TT.TTEntry) : Move :=
  match tte with
  | Some e => TT.move e
  | None => MOVE_NONE
  end.

(** [tte && (tte->type() & VALUE_TYPE_EVAL)] *)
Definition is_eval_entry (tte : option TT.TTEntry) : bool :=
  match tte with
  | Some e => negb (Z.land (TT.type e) VALUE_TYPE_EVAL =? 0)
  | None => false
  end.

(** The static evaluation as the node routines obtain it when the side
    to move is not in check: from an entry tagged as an evaluation, else
    from [evaluate]. *)
Definition static_value (env : Env) (tte : option TT.TTEntry) (ply : Z)
    : Value :=
  match tte with
  | Some e =>
      if is_eval_entry tte then value_from_tt (TT.value e) ply
      else evaluate env
  | None => evaluate env
  end.

(** [if (tte && ok_to_use_TT(tte, depth, beta, ply)) return
    value_from_tt(tte->value(), ply);] *)
Definition tt_cutoff (tte : option TT.TTEntry) (depth : Depth) (beta : Value)
    (ply : Z) : flow unit :=
  match tte with
  | Some e =>
      if ok_to_use_TT e depth beta ply
      then Return (value_from_tt (TT.value e) ply)
      else Next tt
  | None => Next tt
  end.

(** ** The move loop *)

Record LoopSt := mkLoopSt {
  bestValue : Value;
  alpha_ : Value;
  moveCount : Z
}.

(** [while (cond && (move = mp.get_next_move()) != MOVE_NONE
           && !thread_should_stop(threadID)) body]:
    [moves] are the moves the picker still holds, [fetched] counts the
    calls of [get_next_move] so far. A body that ends with [continue]
    or normally goes back to the test; one that ends with [break] leaves
    the loop. *)
Fixpoint move_loop (cond : LoopSt -> bool) (stop : nat -> bool)
    (body : LoopSt -> Move -> LoopSt * bool)
    (moves : list Move) (fetched : nat) (st : LoopSt) : LoopSt :=
  if cond st then
    match moves with
    | [] => st
    | m :: rest =>
        if m =? MOVE_NONE then st
        else if stop fetched then st
        else
          let '(st', brk) := body st m in
          if brk then st' else move_loop cond stop body rest (S fetched) st'
    end
  else st.

(** ** The null-move search of [search] *)

Definition null_move_guard (env : Env) (allowNullmove : bool) (depth : Depth)
    (beta staticValue : Value) : bool :=
  allowNullmove
  && (OnePly <? depth)
  && negb (is_check env)
  && negb (value_is_mate beta)
  && ok_to_do_nullmove env
  && (beta - NullMoveMargin <=? staticValue).

(** [int R = 3 + (depth >= 5 * OnePly ? depth / 8 : 0);
     if (staticValue - beta > PawnValueMidgame) R++;] *)
Definition null_move_R (depth : Depth) (staticValue beta : Value) : Z :=
  let R := 3 + (if 5 * OnePly <=? depth then Z.quot depth 8 else 0) in
  if PawnValueMidgame <? staticValue - beta then R + 1 else R.

(** [search(pos, ss, -(beta-1), depth-R*OnePly, ply+1, false, threadID)],
    between [do_null_move] and [undo_null_move] *)
Definition null_call (beta : Value) (depth : Depth) (ply : Z)
    (staticValue : Value) : Call :=
  CallSearch AfterNullMove (- (beta - 1))
    (depth - null_move_R depth staticValue beta * OnePly) (ply + 1)
    false MOVE_NONE.

(** [search(pos, ss, beta, depth-5*OnePly, ply, false, threadID)] *)
Definition verification_call (beta : Value) (depth : Depth) (ply : Z) : Call :=
  CallSearch Here beta (depth - 5 * OnePly) ply false MOVE_NONE.

(** The body of [if (allowNullmove && ...) { ... }]; it goes on with
    [mateThreat]. *)
Definition null_move_search (env : Env) (beta : Value) (depth : Depth)
    (ply : Z) (staticValue : Value) : flow bool :=
  let nullValue := - child env (null_call beta depth ply staticValue) in
  if beta <=? nullValue then
    if depth <? 6 * OnePly then Return beta
    else
      let v := child env (verification_call beta depth ply) in
      if beta <=? v then Return beta else Next false
  else
    let mateThreat := nullValue =? value_mated_in (ply + 2) in
    let threatMove :=
      child_currentMove env (null_call beta depth ply staticValue) in
    if (depth <? ThreatDepth)
       && negb (prev_reduction env =? 0)
       && connected_moves env (prev_currentMove env) threatMove
    then Return (beta - 1)
    else Next mateThreat.

(** ** Razoring *)

Definition razor_guard (env : Env) (depth : Depth) (beta staticValue : Value)
    (ttMove : Move) : bool :=
  negb (value_is_mate beta)
  && negb (is_check env)
  && (depth <? RazorDepth)
  && (staticValue <? beta - (NullMoveMargin + 16 * depth))
  && negb (prev_currentMove env =? MOVE_NULL)
  && (ttMove =? MOVE_NONE)
  && negb (has_pawn_on_7th env).

Definition razoring (env : Env) (beta : Value) (depth : Depth) (ply : Z)
    : flow unit :=
  let rbeta := beta - (NullMoveMargin + 16 * depth) in
  let v := child env (CallQsearch Here (rbeta - 1) rbeta 0 ply) in
  if v <? rbeta then Return v else Next tt.

(** ** [search]: zero-window nodes *)

(** The key looked up: [excludedMove ? pos.get_exclusion_key()
    : pos.get_key()]. *)
Definition search_tte (env : Env) (excludedMove : Move)
    : option TT.TTEntry :=
  if excludedMove =? 0 then tt_key env else tt_exclusion_key env.

(** The static value of [search] once refined: [-VALUE_INFINITE] in
    check. *)
Definition search_staticValue (env : Env) (tte : option TT.TTEntry)
    (ply : Z) : Value :=
  if is_check env then - VALUE_INFINITE
  else refine_eval tte (static_value env tte ply) ply.

(** [ss[ply].eval]: [init_node] resets it to [VALUE_NONE]. *)
Definition search_eval (env : Env) (tte : option TT.TTEntry) (ply : Z)
    : Value :=
  if is_check env then VALUE_NONE else static_value env tte ply.

(** The first steps of [search], for [depth >= OnePly]: the early
    exits, the table lookup, the static evaluation and the static
    null-move pruning. It goes on with the entry, its move and the
    static value. *)
Definition search_early (env : Env) (beta : Value) (depth : Depth)
    (ply : Z) (allowNullmove : bool) (excludedMove : Move)
    : flow (option TT.TTEntry * Move * Value) :=
  let* _ := when (aborted env) 0 in
  let* _ := when (is_draw env || (PLY_MAX - 1 <=? ply)) VALUE_DRAW in
  let* _ := when (beta <=? value_mated_in ply) beta in
  let* _ := when (value_mate_in (ply + 1) <? beta) (beta - 1) in
  let tte := search_tte env excludedMove in
  let ttMove := tt_move tte in
  let* _ := tt_cutoff tte depth beta ply in
  let staticValue := search_staticValue env tte ply in
  let* _ := when (negb (is_check env)
                  && allowNullmove
                  && (depth <? RazorDepth)
                  && (beta <=? staticValue - FutilityMargins depth))
                 (staticValue - FutilityMargins depth) in
  Next (tte, ttMove, staticValue).

(** The null-move search, or else razoring; it goes on with
    [mateThreat]. *)
Definition search_null_or_razor (env : Env) (beta : Value) (depth : Depth)
    (ply : Z) (allowNullmove : bool) (ttMove : Move) (staticValue : Value)
    : flow bool :=
  if null_move_guard env allowNullmove depth beta staticValue
  then null_move_search env beta depth ply staticValue
  else if razor_guard env depth beta staticValue ttMove
  then let* _ := razoring env beta depth ply in Next false
  else Next false.

(** Internal iterative deepening at a zero-window node: the entry and
    the move the move loop starts with. *)
Definition search_iid (env : Env) (beta : Value) (depth : Depth) (ply : Z)
    (tte : option TT.TTEntry) (ttMove : Move)
    : option TT.TTEntry * Move :=
  if UseIIDAtNonPVNodes
     && (ttMove =? MOVE_NONE)
     && (8 * OnePly <=? depth)
     && negb (is_check env)
     && (beta - IIDMargin <=? search_eval env tte ply)
  then
    let iid := CallSearch Here beta
                 (Z.min (Z.quot depth 2) (depth - 2 * OnePly)) ply false
                 MOVE_NONE in
    (child_tt_key env iid, child_pv_move env iid)
  else (tte, ttMove).

(** The steps of [search] before the move loop, for [depth >= OnePly];
    it goes on with the entry, the move for the picker and
    [mateThreat]. *)
Definition search_prologue (env : Env) (beta : Value) (depth : Depth)
    (ply : Z) (allowNullmove : bool) (excludedMove : Move)
    : flow (option TT.TTEntry * Move * bool) :=
  let* early := search_early env beta depth ply allowNullmove excludedMove in
  let '(tte, ttMove, staticValue) := early in
  let* mateThreat :=
    search_null_or_razor env beta depth ply allowNullmove ttMove
                         staticValue in
  let '(tte', ttMove') := search_iid env beta depth ply tte ttMove in
  Next (tte', ttMove', mateThreat).

(** The body of the loop of [search]: an excluded move is skipped before
    it is counted. *)
Definition search_body (env : Env) (beta : Value) (excludedMove : Move)
    (tte : option TT.TTEntry) (mateThreat : bool)
    (st : LoopSt) (move : Move) : LoopSt * bool :=
  if move =? excludedMove then (st, false)
  else
    let mc := moveCount st + 1 in
    let '(bv, a, brk) :=
      search_move env NonPvNode move mc (bestValue st) (alpha_ st) tte
                  mateThreat in
    (mkLoopSt bv a mc, brk).

Definition search (env : Env) (beta : Value) (depth : Depth) (ply : Z)
    (allowNullmove : bool) (excludedMove : Move) : Value :=
  if depth <? OnePly
  then child env (CallQsearch Here (beta - 1) beta 0 ply)
  else
    match search_prologue env beta depth ply allowNullmove excludedMove with
    | Return v => v
    | Next (tte, ttMove, mateThreat) =>
        let st :=
          move_loop (fun st => bestValue st <? beta) (should_stop env)
            (search_body env beta excludedMove tte mateThreat)
            (picker env ttMove) 0
            (mkLoopSt (- VALUE_INFINITE) (beta - 1) 0) in
        if moveCount st =? 0
        then if negb (excludedMove =? 0) then beta - 1
             else if is_check env then value_mated_in ply
             else VALUE_DRAW
        else bestValue st
    end.

(** ** [search_pv]: PV nodes *)

Definition search_pv_prologue (env : Env) (alpha beta : Value)
    (depth : Depth) (ply : Z)
    : flow (Value * Value * option TT.TTEntry * Move) :=
  let* _ := when (aborted env) 0 in
  let* _ := when (is_draw env || (PLY_MAX - 1 <=? ply)) VALUE_DRAW in
  let alpha := Z.max (value_mated_in ply) alpha in
  let beta := Z.min (value_mate_in (ply + 1)) beta in
  let* _ := when (beta <=? alpha) alpha in
  let tte := tt_key env in
  let ttMove := tt_move tte in
  if UseIIDAtPVNodes && (5 * OnePly <=? depth) && (ttMove =? MOVE_NONE)
  then
    let iid := CallSearchPV Here alpha beta (depth - 2 * OnePly) ply in
    Next (alpha, beta, child_tt_key env iid, child_pv_move env iid)
  else Next (alpha, beta, tte, ttMove).

Definition search_pv_body (env : Env) (tte : option TT.TTEntry)
    (mateThreat : bool) (st : LoopSt) (move : Move) : LoopSt * bool :=
  let mc := moveCount st + 1 in
  let '(bv, a, brk) :=
    search_move env PvNode move mc (bestValue st) (alpha_ st) tte
                mateThreat in
  (mkLoopSt bv a mc, brk).

Definition search_pv (env : Env) (alpha beta : Value) (depth : Depth)
    (ply : Z) : Value :=
  if depth <? OnePly
  then child env (CallQsearch Here alpha beta 0 ply)
  else
    match search_pv_prologue env alpha beta depth ply with
    | Return v => v
    | Next (alpha', beta', tte, ttMove) =>
        let st :=
          move_loop (fun st => alpha_ st <? beta') (should_stop env)
            (search_pv_body env tte (has_mate_threat env))
            (picker env ttMove) 0
            (mkLoopSt (- VALUE_INFINITE) alpha' 0) in
        if moveCount st =? 0
        then if is_check env then value_mated_in ply else VALUE_DRAW
        else bestValue st
    end.

(** ** [qsearch]: quiescence nodes *)

(** [bool pvNode = (beta - alpha != 1);] *)
Definition qsearch_pvNode (alpha beta : Value) : bool :=
  negb (beta - alpha =? 1).

(** The static value of [qsearch]. *)
Definition qsearch_staticValue (env : Env) (ply : Z) : Value :=
  if is_check env then - VALUE_INFINITE
  else static_value env (tt_key env) ply.

(** The steps of [qsearch] before the move loop; it goes on with
    [bestValue] and [alpha]. *)
Definition qsearch_prologue (env : Env) (alpha beta : Value) (depth : Depth)
    (ply : Z) : flow (Value * Value) :=
  let* _ := when (aborted env) 0 in
  let* _ := when (is_draw env || (PLY_MAX - 1 <=? ply)) VALUE_DRAW in
  let tte := tt_key env in
  let* _ :=
    if qsearch_pvNode alpha beta then Next tt
    else tt_cutoff tte depth beta ply in
  let staticValue := qsearch_staticValue env ply in
  let bestValue := staticValue in
  let* _ := when (beta <=? bestValue) bestValue in
  Next (bestValue, if alpha <? bestValue then bestValue else alpha).

Definition qsearch_body (env : Env) (st : LoopSt) (move : Move)
    : LoopSt * bool :=
  let mc := moveCount st + 1 in
  let '(bv, a, brk) :=
    search_move env QNode move mc (bestValue st) (alpha_ st) (tt_key env)
                false in
  (mkLoopSt bv a mc, brk).

Definition qsearch (env : Env) (alpha beta : Value) (depth : Depth)
    (ply : Z) : Value :=
  match qsearch_prologue env alpha beta depth ply with
  | Return v => v
  | Next (bestValue0, alpha0) =>
      let st :=
        move_loop (fun st => alpha_ st <? beta) (fun _ => false)
          (qsearch_body env) (picker env (tt_move (tt_key env))) 0
          (mkLoopSt bestValue0 alpha0 0) in
      if (moveCount st =? 0) && is_check env
      then value_mated_in ply
      else bestValue st
  end.

(** ** [search] from a step on *)





End Routines.

(** [env] with another answer of [TT.retrieve(pos.get_key())]. *)
Definition set_tt_key (e : option TT.TTEntry) (env : Env) : Env :=
  mkEnv (aborted env) (is_draw env) e (tt_exclusion_key env) (is_check env)
    (evaluate env) (ei_futilityMargin env) (ok_to_do_nullmove env)
    (has_pawn_on_7th env) (prev_currentMove env) (prev_reduction env)
    (child env) (child_currentMove env) (child_pv_move env)
    (child_tt_key env) (connected_moves env) (picker env) (should_stop env)
    (has_mate_threat env) (search_move env).

(** A choice of the parameters on which the routines can be run: one
    ply of two units, a mate score of 30000 kept apart from the
    evaluation range, bound types as bit flags (upper 1, lower 2,
    evaluation 4), and the futility margins as [init_threads] computes
    them ([bitScanReverse32] is the position of the highest set bit). *)
Definition sample_value_from_tt (v : Value) (ply : Z) : Value :=
  if 30000 - 100 <=? v then v - ply
  else if v <=? - 30000 + 100 then v + ply
  else v.

Definition sample_params : Params := {|
  OnePly := 2;
  PLY_MAX := 100;
  VALUE_MATE := 30000;
  VALUE_INFINITE := 30001;
  VALUE_NONE := 30002;
  VALUE_KNOWN_WIN := 15000;
  PawnValueMidgame := 198;
  VALUE_TYPE_EVAL := 4;
  value_from_tt := sample_value_from_tt;
  is_lower_bound := fun t => negb (Z.land t 2 =? 0);
  is_upper_bound := fun t => negb (Z.land t 1 =? 0);
  MOVE_NONE := 0;
  MOVE_NULL := 65;
  FutilityMargins := fun i => if i <? 2 then 0 else 112 * Z.log2 (Z.quot (i * i) 2);
  ThreatDepth := 10
|}.

(** Nodes for the examples: no entry in the table, no legal move, and
    the given check status, evaluation, null-move permission and values
    of the recursive calls. *)
Definition example_env (check : bool) (ev : Value) (null_ok : bool)
    (calls : Call -> Value) : Env := {|
  aborted := false;
  is_draw := false;
  tt_key := None;
  tt_exclusion_key := None;
  is_check := check;
  evaluate := ev;
  ei_futilityMargin := 0;
  ok_to_do_nullmove := null_ok;
  has_pawn_on_7th := false;
  prev_currentMove := 0;
  prev_reduction := 0;
  child := calls;
  child_currentMove := fun _ => 0;
  child_pv_move := fun _ => 0;
  child_tt_key := fun _ => None;
  connected_moves := fun _ _ => false;
  picker := fun _ => [];
  should_stop := fun _ => false;
  has_mate_threat := false;
  search_move := fun _ _ _ bv a _ _ => (bv, a, false)
|}.

(** A node at which nothing special happens: not in check, an even
    evaluation, and every call answering 0. *)
Definition quiet_env : Env := example_env false 0 false (fun _ => 0).



(** ** The killer ring *)

(** The fields of [SearchStack] that [init], [initKillers] and
    [update_killers] write. [killers] is the array
    [Move killers[KILLER_MAX]]: [KILLER_MAX] is its length. *)
Record SearchStack := mkSearchStack {
  currentMove : Move;
  threatMove : Move;
  mateKiller : Move;
  killers : list Move;
  reduction : Depth;
  eval : Value
}.

Definition set_killers (ss : SearchStack) (ks : list Move) : SearchStack :=
  mkSearchStack (currentMove ss) (threatMove ss) (mateKiller ss) ks
                (reduction ss) (eval ss).

(** [for (int i = n; i > 0; i--) killers[i] = killers[i - 1];] *)
Fixpoint shift_killers (i : nat) (ks : list Move) : list Move :=
  match i with
  | O => ks
  | S j =>
      match ks !! j with
      | Some k => shift_killers j (<[S j := k]> ks)
      | None => shift_killers j ks
      end
  end.

(** [update_killers] *)
Definition update_killers (m : Move) (ss : SearchStack) : SearchStack :=
  if bool_decide (killers ss !! 0%nat = Some m) then ss
  else
    set_killers ss
      (<[0%nat := m]> (shift_killers (length (killers ss) - 1) (killers ss))).

(** ** Polling and the limits of a search *)

(** The file-level variables of search.cpp that [think], [init_node],
    [poll] and [ponderhit] read and write; [lastInfoTime] is the static
    local of [poll] and [printCurrentLine] is
    [Threads[0].printCurrentLine]. *)
Record Globals := mkGlobals {
  Iteration : Z;
  RootMoveNumber : Z;
  MaxNodes : Z;
  MaxDepth : Z;
  MaxSearchTime : Z;
  AbsoluteMaxSearchTime : Z;
  ExtraSearchTime : Z;
  ExactMaxTime : Z;
  UseTimeManagement : bool;
  InfiniteSearch : bool;
  PonderSearch : bool;
  StopOnPonderhit : bool;
  AbortSearch : bool;
  Quit : bool;
  FailLow : bool;
  Problem : bool;
  Idle : bool;
  ShowCurrentLine : bool;
  printCurrentLine : bool;
  NodesSincePoll : Z;
  NodesBetweenPolls : Z;
  lastInfoTime : Z
}.

Definition set_AbortSearch (b : bool) (g : Globals) : Globals :=
  mkGlobals (Iteration g) (RootMoveNumber g) (MaxNodes g) (MaxDepth g)
    (MaxSearchTime g) (AbsoluteMaxSearchTime g) (ExtraSearchTime g)
    (ExactMaxTime g) (UseTimeManagement g) (InfiniteSearch g)
    (PonderSearch g) (StopOnPonderhit g) b (Quit g) (FailLow g)
    (Problem g) (Idle g) (ShowCurrentLine g) (printCurrentLine g)
    (NodesSincePoll g) (NodesBetweenPolls g) (lastInfoTime g).

Definition set_PonderSearch (b : bool) (g : Globals) : Globals :=
  mkGlobals (Iteration g) (RootMoveNumber g) (MaxNodes g) (MaxDepth g)
    (MaxSearchTime g) (AbsoluteMaxSearchTime g) (ExtraSearchTime g)
    (ExactMaxTime g) (UseTimeManagement g) (InfiniteSearch g)
    b (StopOnPonderhit g) (AbortSearch g) (Quit g) (FailLow g)
    (Problem g) (Idle g) (ShowCurrentLine g) (printCurrentLine g)
    (NodesSincePoll g) (NodesBetweenPolls g) (lastInfoTime g).

Definition set_Quit (b : bool) (g : Globals) : Globals :=
  mkGlobals (Iteration g) (RootMoveNumber g) (MaxNodes g) (MaxDepth g)
    (MaxSearchTime g) (AbsoluteMaxSearchTime g) (ExtraSearchTime g)
    (ExactMaxTime g) (UseTimeManagement g) (InfiniteSearch g)
    (PonderSearch g) (StopOnPonderhit g) (AbortSearch g) b (FailLow g)
    (Problem g) (Idle g) (ShowCurrentLine g) (printCurrentLine g)
    (NodesSincePoll g) (NodesBetweenPolls g) (lastInfoTime g).

Definition set_info (last : Z) (line : bool) (g : Globals) : Globals :=
  mkGlobals (Iteration g) (RootMoveNumber g) (MaxNodes g) (MaxDepth g)
    (MaxSearchTime g) (AbsoluteMaxSearchTime g) (ExtraSearchTime g)
    (ExactMaxTime g) (UseTimeManagement g) (InfiniteSearch g)
    (PonderSearch g) (StopOnPonderhit g) (AbortSearch g) (Quit g)
    (FailLow g) (Problem g) (Idle g) (ShowCurrentLine g) line
    (NodesSincePoll g) (NodesBetweenPolls g) last.

Definition set_NodesSincePoll (n : Z) (g : Globals) : Globals :=
  mkGlobals (Iteration g) (RootMoveNumber g) (MaxNodes g) (MaxDepth g)
    (MaxSearchTime g) (AbsoluteMaxSearchTime g) (ExtraSearchTime g)
    (ExactMaxTime g) (UseTimeManagement g) (InfiniteSearch g)
    (PonderSearch g) (StopOnPonderhit g) (AbortSearch g) (Quit g)
    (FailLow g) (Problem g) (Idle g) (ShowCurrentLine g)
    (printCurrentLine g) n (NodesBetweenPolls g) (lastInfoTime g).

(** [id_loop] and [root_search] advance [Iteration]. *)
Definition set_Iteration (n : Z) (g : Globals) : Globals :=
  mkGlobals n (RootMoveNumber g) (MaxNodes g) (MaxDepth g)
    (MaxSearchTime g) (AbsoluteMaxSearchTime g) (ExtraSearchTime g)
    (ExactMaxTime g) (UseTimeManagement g) (InfiniteSearch g)
    (PonderSearch g) (StopOnPonderhit g) (AbortSearch g) (Quit g)
    (FailLow g) (Problem g) (Idle g) (ShowCurrentLine g)
    (printCurrentLine g) (NodesSincePoll g) (NodesBetweenPolls g)
    (lastInfoTime g).

(** The globals as static storage leaves them before the first search:
    zero, but for the two that have initialisers. *)
Definition idle_globals : Globals :=
  mkGlobals 0 0 0 0 0 0 0 0 false false false false false false false false
            true false false 0 30000 0.

(** The first assignments of [think]: the limits of the [go] command
    become the globals. *)
Definition think_init (g : Globals) (infinite ponder : bool)
    (maxDepth maxNodes maxTime : Z) : Globals :=
  mkGlobals (Iteration g) (RootMoveNumber g) maxNodes maxDepth
    (MaxSearchTime g) (AbsoluteMaxSearchTime g) (ExtraSearchTime g)
    maxTime
    (* UseTimeManagement = !ExactMaxTime && !MaxDepth && !MaxNodes
                           && !InfiniteSearch *)
    ((maxTime =? 0) && (maxDepth =? 0) && (maxNodes =? 0) && negb infinite)
    infinite ponder false false false false false false
    (ShowCurrentLine g) (printCurrentLine g) 0 (NodesBetweenPolls g)
    (lastInfoTime g).

(** [think]: "Set best NodesBetweenPolls interval". *)
Definition think_NodesBetweenPolls (g : Globals) (myTime : Z) : Z :=
  if negb (MaxNodes g =? 0) then Z.min (MaxNodes g) 30000
  else if negb (myTime =? 0) && (myTime <? 1000) then 1000
  else if negb (myTime =? 0) && (myTime <? 5000) then 5000
  else 30000.

(** What [poll] finds on the input: nothing ([Bioskey()] is false), the
    end of the input ([getline] fails) or a line. *)
Inductive PollInput :=
| NoInput
| EndOfInput
| Line (command : string).

(** [stillAtFirstMove] and [noMoreTime], as [poll] and [ponderhit]
    compute them. *)
Definition noMoreTime (g : Globals) (t : Z) : bool :=
  let stillAtFirstMove :=
    (RootMoveNumber g =? 1)
    && negb (FailLow g)
    && (MaxSearchTime g + ExtraSearchTime g <? t) in
  (AbsoluteMaxSearchTime g <? t) || stillAtFirstMove.

(** [ponderhit]; [t] is its reading of [current_search_time()]. *)
Definition ponderhit (g : Globals) (t : Z) : Globals :=
  let g := set_PonderSearch false g in
  if (3 <=? Iteration g)
     && UseTimeManagement g
     && (noMoreTime g t || StopOnPonderhit g)
  then set_AbortSearch true g
  else g.

(** "Print search information": the line sent to the output is left
    out, the two variables it updates are kept. *)
Definition poll_info (g : Globals) (t : Z) : Globals :=
  if t <? 1000 then set_info 0 (printCurrentLine g) g
  else if t <? lastInfoTime g then set_info 0 (printCurrentLine g) g
  else if 1000 <=? t - lastInfoTime g
  then set_info t (if ShowCurrentLine g then true else printCurrentLine g) g
  else g.

(** The three stop conditions of [poll]. *)
Definition time_stop (g : Globals) (t : Z) : bool :=
  ((3 <=? Iteration g) && UseTimeManagement g && noMoreTime g t)
  || (negb (ExactMaxTime g =? 0) && (ExactMaxTime g <=? t)).

Definition node_stop (g : Globals) (nodes_searched : Z) : bool :=
  (3 <=? Iteration g)
  && negb (MaxNodes g =? 0)
  && (MaxNodes g <=? nodes_searched).

(** "Should we stop the search?" *)
Definition poll_stop (g : Globals) (t nodes_searched : Z) : Globals :=
  if PonderSearch g then g
  else if ((3 <=? Iteration g) && UseTimeManagement g && noMoreTime g t)
          || (negb (ExactMaxTime g =? 0) && (ExactMaxTime g <=? t))
          || ((3 <=? Iteration g)
              && negb (MaxNodes g =? 0)
              && (MaxNodes g <=? nodes_searched))
  then set_AbortSearch true g
  else g.

(** [poll]; [t] is [current_search_time()] on entry, [t'] the reading of
    [ponderhit], [nodes_searched] the value of [nodes_searched()]. *)
Definition poll (g : Globals) (t t' : Z) (input : PollInput)
    (nodes_searched : Z) : Globals :=
  let quit g := set_Quit true (set_PonderSearch false (set_AbortSearch true g)) in
  match input with
  | EndOfInput => quit g
  | Line command =>
      if String.eqb command "quit" then quit g
      else
        let g1 :=
          if String.eqb command "stop"
          then set_PonderSearch false (set_AbortSearch true g)
          else if String.eqb command "ponderhit" then ponderhit g t'
          else g in
        poll_stop (poll_info g1 t) t nodes_searched
  | NoInput => poll_stop (poll_info g t) t nodes_searched
  end.

(** The polling of [init_node], on thread 0. *)
Definition init_node_poll (g : Globals) (t t' : Z) (input : PollInput)
    (nodes_searched : Z) : Globals :=
  let g := set_NodesSincePoll (NodesSincePoll g + 1) g in
  if NodesBetweenPolls g <=? NodesSincePoll g
  then set_NodesSincePoll 0 (poll g t t' input nodes_searched)
  else g.

(** ** Killers, extensions and the principal variation *)

(** [move_is_killer]: the loop over the [KILLER_MAX] slots. *)
Fixpoint killer_among (ks : list Move) (m : Move) : bool :=
  match ks with
  | [] => false
  | k :: rest => if k =? m then true else killer_among rest m
  end.

Definition move_is_killer (m : Move) (ss : SearchStack) : bool :=
  killer_among (killers ss) m.

(** [SearchStack::initKillers] *)
Definition initKillers (none : Move) (ss : SearchStack) : SearchStack :=
  mkSearchStack (currentMove ss) (threatMove ss) none
                (replicate (length (killers ss)) none)
                (reduction ss) (eval ss).

(** The extension tables [think] reads from the options, each indexed by
    [pvNode]. *)
Record Extensions := mkExtensions {
  CheckExtension : bool -> Depth;
  SingleEvasionExtension : bool -> Depth;
  MateThreatExtension : bool -> Depth;
  PawnPushTo7thExtension : bool -> Depth;
  PassedPawnExtension : bool -> Depth;
  PawnEndgameExtension : bool -> Depth
}.

(** What [extension] asks the position and the move, each the value of
    the expression named. *)
Record MoveFacts := mkMoveFacts {
  (** [pos.type_of_piece_on(move_from(m)) == PAWN] *)
  from_is_pawn : bool;
  (** [relative_rank(c, move_to(m)) == RANK_7] *)
  to_rank_7 : bool;
  (** [pos.pawn_is_passed(c, move_to(m))] *)
  pawn_is_passed : bool;
  (** [pos.type_of_piece_on(move_to(m)) != PAWN] *)
  to_not_pawn : bool;
  (** [pos.non_pawn_material(WHITE) + pos.non_pawn_material(BLACK)
       - pos.midgame_value_of_piece_on(move_to(m)) == Value(0)] *)
  last_piece_taken : bool;
  (** [move_is_promotion(m)] and [move_is_ep(m)] *)
  is_promotion : bool;
  is_ep : bool;
  (** [pos.see_sign(m) >= 0] *)
  see_nonneg : bool
}.

(** [extension]: the depth and the [dangerous] flag. [onePly] is
    [OnePly]; [OnePly/2] is a division of [int]s. *)
Definition extension (onePly : Depth) (X : Extensions) (F : MoveFacts)
    (pvNode captureOrPromotion moveIsCheck singleEvasion mateThreat : bool)
    : Depth * bool :=
  let result := 0 in
  let dangerous := moveIsCheck || singleEvasion || mateThreat in
  let result :=
    if dangerous then
      let r := if moveIsCheck then result + CheckExtension X pvNode
               else result in
      let r := if singleEvasion then r + SingleEvasionExtension X pvNode
               else r in
      if mateThreat then r + MateThreatExtension X pvNode else r
    else result in
  let '(result, dangerous) :=
    if from_is_pawn F then
      let '(r, d) :=
        if to_rank_7 F then (result + PawnPushTo7thExtension X pvNode, true)
        else (result, dangerous) in
      if pawn_is_passed F then (r + PassedPawnExtension X pvNode, true)
      else (r, d)
    else (result, dangerous) in
  let '(result, dangerous) :=
    if captureOrPromotion && to_not_pawn F && last_piece_taken F
       && negb (is_promotion F) && negb (is_ep F)
    then (result + PawnEndgameExtension X pvNode, true)
    else (result, dangerous) in
  let '(result, dangerous) :=
    if pvNode && captureOrPromotion && to_not_pawn F && see_nonneg F
    then (result + Z.quot onePly 2, true)
    else (result, dangerous) in
  (Z.min result onePly, dangerous).

(** The loop of [update_pv] and of [set_move_pv]:
    [for (; src[p] != MOVE_NONE; p++) dst[p] = src[p];
     dst[p] = MOVE_NONE;]
    [src] is what is left of the source array from [p] on. A source
    without [MOVE_NONE] makes the code run off the array; the copy stops
    at its end here. *)
Fixpoint copy_pv (none : Move) (dst src : list Move) (p : nat) : list Move :=
  match src with
  | [] => dst
  | m :: rest =>
      if m =? none then <[p := none]> dst
      else copy_pv none (<[p := m]> dst) rest (S p)
  end.

(** [update_pv]: the new [ss[ply].pv], from [ss[ply].pv],
    [ss[ply].currentMove] and [ss[ply + 1].pv]. *)
Definition update_pv (none : Move) (pv : list Move) (current : Move)
    (child_pv : list Move) (ply : nat) : list Move :=
  copy_pv none (<[ply := current]> pv) (drop (S ply) child_pv) (S ply).

(** The line a PV array holds from [ply] on, as its readers take it:
    the moves up to the first [MOVE_NONE]. *)
Fixpoint pv_line (none : Move) (pv : list Move) : list Move :=
  match pv with
  | [] => []
  | m :: rest => if m =? none then [] else m :: pv_line none rest
  end.

(** ** The list of root moves *)

Record RootMove := mkRootMove {
  rm_move : Move;
  rm_score : Value;
  rm_nodes : Z;
  rm_cumulativeNodes : Z;
  rm_ourBeta : Z;
  rm_theirBeta : Z;
  rm_pv : list Move
}.

(** [RootMove::operator<] *)
Definition RootMove_lt (a m : RootMove) : bool :=
  if negb (rm_score a =? rm_score m) then rm_score a <? rm_score m
  else rm_theirBeta a <=? rm_theirBeta m.

(** [a] may stand before [b] in the sorted list: [b < a]. *)
Definition before (a b : RootMove) : Prop := RootMove_lt b a = true.

(** The inner loop of [sort_multipv], from [j] down, and the assignment
    that follows it:
    [for (; j > 0 && moves[j - 1] < rm; j--) moves[j] = moves[j - 1];
     moves[j] = rm;] *)
Fixpoint sort_insert (moves : list RootMove) (rm : RootMove) (j : nat)
    : list RootMove :=
  match j with
  | O => <[0%nat := rm]> moves
  | S j' =>
      match moves !! j' with
      | Some prev =>
          if RootMove_lt prev rm
          then sort_insert (<[j := prev]> moves) rm j'
          else <[j := rm]> moves
      | None => <[j := rm]> moves
      end
  end.

(** One round of the outer loop: [RootMove rm = moves[i]] and the inner
    loop. *)
Definition sort_round (moves : list RootMove) (i : nat) : list RootMove :=
  match moves !! i with
  | Some rm => sort_insert moves rm i
  | None => moves
  end.

(** [RootMoveList::sort_multipv]: [for (i = 1; i <= n; i++)]. *)
Definition sort_multipv (moves : list RootMove) (n : Z) : list RootMove :=
  fold_left sort_round (seq 1 (Z.to_nat n)) moves.

(** [RootMoveList::sort], for a list of [count] moves. *)
Definition sort (moves : list RootMove) (count : Z) : list RootMove :=
  sort_multipv moves (count - 1).

(** [RootMoveList::set_move_pv] *)
Definition set_move_pv (none : Move) (moves : list RootMove) (moveNum : nat)
    (pv : list Move) : list RootMove :=
  match moves !! moveNum with
  | Some r =>
      <[moveNum := mkRootMove (rm_move r) (rm_score r) (rm_nodes r)
                     (rm_cumulativeNodes r) (rm_ourBeta r) (rm_theirBeta r)
                     (copy_pv none (rm_pv r) pv 0)]> moves
  | None => moves
  end.

(** [RootMoveList::set_move_nodes] *)
Definition set_move_nodes (moves : list RootMove) (moveNum : nat) (nodes : Z)
    : list RootMove :=
  match moves !! moveNum with
  | Some r =>
      <[moveNum := mkRootMove (rm_move r) (rm_score r) nodes
                     (rm_cumulativeNodes r + nodes) (rm_ourBeta r)
                     (rm_theirBeta r) (rm_pv r)]> moves
  | None => moves
  end.

(** ** The thinking time *)

(** The range of [int]. An [int] result outside it is undefined
    behaviour in C++; the model gives [None] for it. *)
Definition INT_MIN : Z := - 2 ^ 31.
Definition INT_MAX : Z := 2 ^ 31 - 1.

Definition as_int (x : Z) : option Z :=
  if (INT_MIN <=? x) && (x <=? INT_MAX) then Some x else None.

(** "Set thinking time" in [think], under [UseTimeManagement]:
    [MaxSearchTime] and [AbsoluteMaxSearchTime]. The operands are
    [int]s: the divisions truncate, and every sum, difference, product
    and quotient that can leave the range of [int] is checked. *)
Definition think_time (myTime myIncrement movesToGo : Z)
    (PonderingEnabled : bool) : option (Z * Z) :=
  times ←
    (if movesToGo =? 0 then
       if negb (myIncrement =? 0) then
         maxSearchTime ← as_int (Z.quot myTime 30 + myIncrement);
         rest ← as_int (myIncrement - 100);
         Some (maxSearchTime, Z.max (Z.quot myTime 4) rest)
       else Some (Z.quot myTime 30, Z.quot myTime 8)
     else if movesToGo =? 1 then
       absoluteMaxSearchTime ←
         (if 3000 <? myTime then as_int (myTime - 500)
          else product ← as_int (myTime * 3); Some (Z.quot product 4));
       Some (Z.quot myTime 2, absoluteMaxSearchTime)
     else
       maxSearchTime ← as_int (Z.quot myTime (Z.min movesToGo 20));
       product ← as_int (4 * myTime);
       share ← as_int (Z.quot product movesToGo);
       Some (maxSearchTime, Z.min share (Z.quot myTime 3)));
  if PonderingEnabled then
    maxSearchTime ← as_int (fst times + Z.quot (fst times) 4);
    Some (Z.min maxSearchTime (snd times), snd times)
  else Some times.

(** [nps], from the readings of [current_search_time()] and
    [nodes_searched()]. *)
Definition nps (t nodes_searched : Z) : Z :=
  if 0 <? t then Z.quot (nodes_searched * 1000) t else 0.

End Search.

(** * bitboard.cpp : the search for magic numbers *)

Module Bitboard.

(** A [Bitboard] is a [uint64_t]; products wrap around. *)
Definition wrap64 (x : Z) : Z := x mod 2 ^ 64.
Definition wrap32 (x : Z) : Z := x mod 2 ^ 32.

(** ** What bitboard.cpp takes from headers that are not among the sources *)

(** Modelled from the spec: square.h, bitboard.h and bitcount.h are not
    among the sources. The spec has squares as a small enumeration with
    the usual chess meaning (a1 = 0, ..., h8 = 63, eight squares to a
    rank) and a bitboard as a 64-bit set of squares "indexed by
    [1 << square]"; [count_1s] counts the squares of a set. *)
Definition square_is_ok (s : Z) : bool := (0 <=? s) && (s <=? 63).
Definition square_file (s : Z) : Z := Z.land s 7.
Definition square_rank (s : Z) : Z := Z.shiftr s 3.
Definition file_distance (s1 s2 : Z) : Z :=
  Z.abs (square_file s1 - square_file s2).
Definition rank_distance (s1 s2 : Z) : Z :=
  Z.abs (square_rank s1 - square_rank s2).
Definition square_distance (s1 s2 : Z) : Z :=
  Z.max (file_distance s1 s2) (rank_distance s1 s2).

Definition bit_is_set (b s : Z) : bool := Z.testbit b s.
Definition set_bit (b s : Z) : Z := Z.lor b (Z.shiftl 1 s).

Definition EmptyBoardBB : Z := 0.
Definition FileABB : Z := 0x0101010101010101.
Definition FileHBB : Z := 0x8080808080808080.
Definition Rank1BB : Z := 0xFF.
Definition Rank8BB : Z := 0xFF00000000000000.
(** [FileBB[f] = FileBB[f - 1] << 1], [RankBB[r] = RankBB[r - 1] << 8] *)
Definition file_bb (s : Z) : Z := Z.shiftl FileABB (square_file s).
Definition rank_bb (s : Z) : Z := Z.shiftl Rank1BB (8 * square_rank s).

(** The number of the given squares that are in the set [b]. *)
Fixpoint count_in (squares : list Z) (b : Z) : Z :=
  match squares with
  | [] => 0
  | s :: rest => (if Z.testbit b s then 1 else 0) + count_in rest b
  end.

Definition count_1s (b : Z) : Z := count_in (seqZ 0 64) b.

(** The four directions of a rook and of a bishop ([RDeltas],
    [BDeltas]): north, east, south, west, and the diagonals between
    them. *)
Definition RDeltas : list Z := [8; 1; -8; -1].
Definition BDeltas : list Z := [9; -7; -9; 7].

(** The generator [RKISS] of rkiss.h, the word size and the bit scan of
    the 32-bit build. *)
Class Platform := {
  RK : Type;
  (** [RKISS rk;] *)
  rk_init : RK;
  (** [rk.rand<Bitboard>()] *)
  rand64 : RK -> Z * RK;
  CpuIs64Bit : bool;
  first_1 : Z -> Z
}.

(** ** bitboard.cpp *)

(** [BitCount8Bit[b]], filled by [init_bitboards] with [count_1s(b)] *)
Definition BitCount8Bit (b : Z) : Z := count_1s b.

(** The loop of [submask] over the squares: [bitNum] advances on the
    squares of the mask only. *)
Fixpoint submask_loop (squares : list Z) (mask key subMask bitNum : Z) : Z :=
  match squares with
  | [] => subMask
  | s :: rest =>
      if bit_is_set mask s then
        let bitNum' := bitNum + 1 in
        submask_loop rest mask key
          (if bit_is_set key bitNum' then set_bit subMask s else subMask)
          bitNum'
      else submask_loop rest mask key subMask bitNum
  end.

Definition submask (mask key : Z) : Z :=
  submask_loop (seqZ 0 64) mask key 0 (-1).

(** The [while] loop of [sliding_attacks] along one direction. The loop
    leaves the board after at most 64 rounds, so that the fuel given by
    [sliding_attacks] is never used up ([ray_fuel_enough]). *)
Fixpoint ray (fuel : nat) (s delta occupied excluded attacks : Z) : Z :=
  match fuel with
  | O => attacks
  | S fuel' =>
      if square_is_ok s
         && (square_distance s (s - delta) =? 1)
         && negb (bit_is_set excluded s)
      then
        let attacks' := set_bit attacks s in
        if bit_is_set occupied s then attacks'
        else ray fuel' (s + delta) delta occupied excluded attacks'
      else attacks
  end.

(** The rounds the [while] loop can still make from [s]. *)
Definition ray_rounds (s d : Z) : nat :=
  Z.to_nat (if 0 <? d then 64 - s else s + 1).

Definition sliding_attacks (sq occupied : Z) (deltas : list Z) (excluded : Z)
    : Z :=
  fold_left (fun attacks delta =>
               ray 64 (sq + delta) delta occupied excluded attacks)
            (firstn 4 deltas) 0.

(** The key of an occupancy: the inverse of [submask], built along the
    same walk over the squares. *)
Fixpoint key_of_loop (squares : list Z) (mask occupancy bitNum : Z) : Z :=
  match squares with
  | [] => 0
  | s :: rest =>
      if bit_is_set mask s then
        Z.lor (if bit_is_set occupancy s then 2 ^ (bitNum + 1) else 0)
              (key_of_loop rest mask occupancy (bitNum + 1))
      else key_of_loop rest mask occupancy bitNum
  end.

Definition key_of (mask occupancy : Z) : Z :=
  key_of_loop (seqZ 0 64) mask occupancy (-1).

(** Two checks over the 64 squares, used to show that no attack set is
    empty and that a mask has at most 12 squares: from [sq] a first
    step along one of the directions stays on the board. *)
Definition first_step_ok (sq delta : Z) : bool :=
  square_is_ok (sq + delta) && (square_distance (sq + delta) sq =? 1).

Definition has_step (sq : Z) (deltas : list Z) : bool :=
  existsb (first_step_ok sq) (firstn 4 deltas).

Section Magics.

Context `{PF : Platform}.

Definition rand_bb (rk : RK) : Z * RK :=
  let '(r, rk') := rand64 rk in (wrap64 r, rk').

(** [for (int i = 0; i < booster; i++) rk.rand<Bitboard>();] *)
Fixpoint advance (n : nat) (rk : RK) : RK :=
  match n with
  | O => rk
  | S k => advance k (snd (rand_bb rk))
  end.

(** One candidate: three random words and-ed together (in the 32-bit
    build the third is the or of two). *)
Definition draw_magic (rk : RK) : Z * RK :=
  let '(a, rk1) := rand_bb rk in
  let '(b, rk2) := rand_bb rk1 in
  let '(c, rk3) := rand_bb rk2 in
  if CpuIs64Bit then (Z.land (Z.land a b) c, rk3)
  else
    let '(d, rk4) := rand_bb rk3 in
    (Z.land (Z.land a b) (Z.lor c d), rk4).

(** The test of [pick_magic]. *)
Definition magic_ok (mask lsb magic : Z) : bool :=
  (6 <=? BitCount8Bit (Z.shiftr (wrap64 (mask * magic)) 56))
  && (CpuIs64Bit
      || negb (BitCount8Bit (Z.shiftr (wrap64 (lsb * magic)) 56) =? 0)).

(** The [while (true)] loop of [pick_magic]. *)
Fixpoint pick_loop (fuel : nat) (mask lsb : Z) (rk : RK) : option (Z * RK) :=
  match fuel with
  | O => None
  | S fuel' =>
      let '(magic, rk') := draw_magic rk in
      if magic_ok mask lsb magic then Some (magic, rk')
      else pick_loop fuel' mask lsb rk'
  end.

(** [lsb] is set in the 32-bit build only, and read there only. *)
Definition pick_lsb (mask : Z) : Z :=
  if CpuIs64Bit then 0 else first_1 mask.

Definition pick_magic (fuel : nat) (mask : Z) (rk : RK) (booster : nat)
    : option (Z * RK) :=
  pick_loop fuel mask (pick_lsb mask) (advance booster rk).

Definition MagicBoosters32 : list nat := [43; 53; 76; 17; 51; 65; 55; 23]%nat.
Definition MagicBoosters64 : list nat := [26; 21; 21; 32; 31; 9; 5; 11]%nat.

(** What [do_magics] computes for a square before it looks for the
    magic. *)
Definition square_excluded (s : Z) : Z :=
  Z.lor (Z.ldiff (Z.lor Rank1BB Rank8BB) (rank_bb s))
        (Z.ldiff (Z.lor FileABB FileHBB) (file_bb s)).

Definition square_mask (s : Z) (deltas : list Z) : Z :=
  sliding_attacks s EmptyBoardBB deltas (square_excluded s).

Definition square_shift (s : Z) (deltas : list Z) : Z :=
  (if CpuIs64Bit then 64 else 32) - count_1s (square_mask s deltas).

Definition square_maxKey (s : Z) (deltas : list Z) : Z :=
  Z.shiftl 1 (count_1s (square_mask s deltas)).

Definition square_booster (s : Z) : nat :=
  default 0%nat
    ((if CpuIs64Bit then MagicBoosters64 else MagicBoosters32)
       !! Z.to_nat (square_rank s)).

(** [occupancy[key]] and [proofs[key]] for [key < maxKey], in pairs. *)
Definition square_proofs (s : Z) (deltas : list Z) : list (Z * Z) :=
  map (fun key =>
         let occupancy := submask (square_mask s deltas) key in
         (occupancy, sliding_attacks s occupancy deltas EmptyBoardBB))
      (seqZ 0 (square_maxKey s deltas)).

(** [index], from an occupancy. *)
Definition magic_index (occupancy magic shift : Z) : Z :=
  if CpuIs64Bit
  then wrap32 (Z.shiftr (wrap64 (occupancy * magic)) shift)
  else Z.shiftr
         (wrap32 (Z.lxor (wrap64 (occupancy * magic))
                         (wrap64 (Z.shiftr occupancy 32
                                  * Z.shiftr magic 32))))
         shift.

(** [attack[s]] points into the table at [offset]: [attack[s][i]] is
    cell [offset + i]. *)
Definition read (tbl : list Z) (offset i : Z) : Z :=
  default 0 (tbl !! Z.to_nat (offset + i)).

Definition write (tbl : list Z) (offset i v : Z) : list Z :=
  <[Z.to_nat (offset + i) := v]> tbl.

(** [memset(attack[s], 0, maxKey * sizeof(Bitboard))] *)
Definition clear_range (tbl : list Z) (offset n : Z) : list Z :=
  take (Z.to_nat offset) tbl
  ++ replicate (Z.to_nat n) 0
  ++ drop (Z.to_nat (offset + n)) tbl.

(** The table is in range for a square: its [maxKey] cells from
    [offset] on exist. *)
Definition in_range (s : Z) (deltas : list Z) (offset : Z) (tbl : list Z)
    : Prop :=
  0 <= offset /\ offset + square_maxKey s deltas <= Z.of_nat (length tbl).

(** The [for] loop over the keys: the table, and whether the loop ran
    to its end ([key == maxKey]). *)
Fixpoint fill_loop (proofs : list (Z * Z)) (magic shift offset : Z)
    (tbl : list Z) : list Z * bool :=
  match proofs with
  | [] => (tbl, true)
  | (occupancy, proof) :: rest =>
      let index := magic_index occupancy magic shift in
      if read tbl offset index =? 0
      then fill_loop rest magic shift offset (write tbl offset index proof)
      else if negb (read tbl offset index =? proof) then (tbl, false)
      else fill_loop rest magic shift offset tbl
  end.

(** The body of the [do ... while (key != maxKey)] loop for a magic
    already picked. *)
Definition try_magic (s : Z) (deltas : list Z) (offset magic : Z)
    (tbl : list Z) : list Z * bool :=
  fill_loop (square_proofs s deltas) magic (square_shift s deltas) offset
            (clear_range tbl offset (square_maxKey s deltas)).

(** A magic is free of collisions on a square when two keys that share
    an index have the same attack set. *)
Definition collision_free_on (proofs : list (Z * Z)) (magic shift : Z)
    : Prop :=
  forall p q, In p proofs -> In q proofs ->
    magic_index (fst p) magic shift = magic_index (fst q) magic shift ->
    snd p = snd q.

Definition collision_free (s : Z) (deltas : list Z) (magic : Z) : Prop :=
  collision_free_on (square_proofs s deltas) magic (square_shift s deltas).

(** The generator, in state [rk] when the search for the square starts
    a round, yields [magic]: [pick_magic] returns a candidate, and
    either it is free of collisions, or it is not and the generator
    yields [magic] from the state the round leaves. *)
Inductive yields (s : Z) (deltas : list Z) : RK -> Z -> RK -> Prop :=
| yields_now (rk : RK) (inner : nat) (magic : Z) (rk' : RK) :
    pick_magic inner (square_mask s deltas) rk (square_booster s)
      = Some (magic, rk') ->
    collision_free s deltas magic ->
    yields s deltas rk magic rk'
| yields_later (rk : RK) (inner : nat) (magic0 : Z) (rk0 : RK)
    (magic : Z) (rk' : RK) :
    pick_magic inner (square_mask s deltas) rk (square_booster s)
      = Some (magic0, rk0) ->
    ~ collision_free s deltas magic0 ->
    yields s deltas rk0 magic rk' ->
    yields s deltas rk magic rk'.

(** The [do ... while] loop: [fuel] bounds its rounds, [inner] the
    rounds of each [pick_magic]. *)
Fixpoint find_magic (fuel inner : nat) (s : Z) (deltas : list Z) (offset : Z)
    (rk : RK) (tbl : list Z) : option (Z * list Z * RK) :=
  match fuel with
  | O => None
  | S fuel' =>
      match pick_magic inner (square_mask s deltas) rk (square_booster s) with
      | None => None
      | Some (magic, rk') =>
          let '(tbl', done) := try_magic s deltas offset magic tbl in
          if done then Some (magic, tbl', rk')
          else find_magic fuel' inner s deltas offset rk' tbl'
      end
  end.

(** The arrays [do_magics] fills: [attack[s]] is kept as the offset of
    its first cell in [attTabl]. *)
Record Magics := mkMagics {
  magic : list Z;
  attack : list Z;
  attTabl : list Z;
  mask : list Z;
  shift : list Z
}.

(** The loop of [do_magics] over the squares. *)
Fixpoint do_magics_loop (squares : list Z) (fuel inner : nat)
    (deltas : list Z) (m : Magics) (rk : RK) (offset : Z)
    : option (Magics * RK) :=
  match squares with
  | [] => Some (m, rk)
  | s :: rest =>
      match find_magic fuel inner s deltas offset rk (attTabl m) with
      | None => None
      | Some (mg, tbl, rk') =>
          let i := Z.to_nat s in
          do_magics_loop rest fuel inner deltas
            (mkMagics (<[i := mg]> (magic m))
                      (<[i := offset]> (attack m))
                      tbl
                      (<[i := square_mask s deltas]> (mask m))
                      (<[i := square_shift s deltas]> (shift m)))
            rk' (offset + square_maxKey s deltas)
      end
  end.

Definition do_magics (fuel inner : nat) (deltas : list Z) (m : Magics)
    : option (Magics * RK) :=
  do_magics_loop (seqZ 0 64) fuel inner deltas m rk_init 0.

(** [offset] when the loop of [do_magics] reaches a square: the sum of
    [maxKey] over the squares before it. *)
Fixpoint offset_upto (n : nat) (deltas : list Z) : Z :=
  match n with
  | O => 0
  | S k => offset_upto k deltas + square_maxKey (Z.of_nat k) deltas
  end.

Definition offset_of (s : Z) (deltas : list Z) : Z :=
  offset_upto (Z.to_nat s) deltas.

(** The arrays hold, for the square [s], its mask, its shift, the
    offset of its cells, and a magic that passed the test of
    [pick_magic] and sends every subset of the mask to a slot holding
    its attack set. *)
Definition square_done (deltas : list Z) (m : Magics) (s : Z) : Prop :=
  exists mg,
    magic m !! Z.to_nat s = Some mg
    /\ attack m !! Z.to_nat s = Some (offset_of s deltas)
    /\ mask m !! Z.to_nat s = Some (square_mask s deltas)
    /\ shift m !! Z.to_nat s = Some (square_shift s deltas)
    /\ magic_ok (square_mask s deltas) (pick_lsb (square_mask s deltas)) mg
       = true
    /\ forall occ, 0 <= occ < 2 ^ 64 ->
         Z.land occ (square_mask s deltas) = occ ->
         read (attTabl m) (offset_of s deltas)
              (magic_index occ mg (square_shift s deltas))
         = sliding_attacks s occ deltas EmptyBoardBB.

(** The arrays have their 64 entries and the table has room for the
    cells of all squares. *)
Definition arrays_ok (deltas : list Z) (m : Magics) : Prop :=
  length (magic m) = 64%nat
  /\ length (attack m) = 64%nat
  /\ length (mask m) = 64%nat
  /\ length (shift m) = 64%nat
  /\ offset_upto 64 deltas <= Z.of_nat (length (attTabl m)).

End Magics.

(** A 64-bit platform for the examples, whose generator reads its
    answers off a list (and answers 0 when the list is used up). *)
Definition list_platform (words : list Z) : Platform := {|
  RK := list Z;
  rk_init := words;
  rand64 := fun l => (hd 0 l, tl l);
  CpuIs64Bit := true;
  first_1 := fun _ => 0
|}.

(** The answers that make [do_magics] find the given magics at once:
    for each square the words its booster skips, then the magic three
    times. *)
Definition words_for (boosters : list nat) (magics : list Z) : list Z :=
  concat (imap (fun i mg =>
                  replicate (default 0%nat (boosters !! (i / 8)%nat)) 0
                  ++ [mg; mg; mg])
               magics).

(** A 64-bit platform for the examples, whose generator answers the same
    word at every call. *)
Definition const_platform (word : Z) : Platform := {|
  RK := unit;
  rk_init := tt;
  rand64 := fun _ => (word, tt);
  CpuIs64Bit := true;
  first_1 := fun _ => 0
|}.

(** The arrays of the bishops as [init_bitboards] finds them: globals
    with static storage, zero before [main]; [BAttacksTable] has 0x1480
    cells. *)
Definition bishop_arrays : Magics :=
  mkMagics (replicate 64 0) (replicate 64 0)
           (replicate (Z.to_nat 0x1480) 0)
           (replicate 64 0) (replicate 64 0).

(** Example data: a magic for each of the 64 squares of the bishop
    tables. *)
Definition bishop_magics : list Z :=
  [
   4701830649676366144; 9150206650159108; 2490496099296641094;
   1299297567764382726; 288529724635480064; 14082553654280192;
   72621162601514016; 4611709417476595776; 297307953885872273;
   145258748921790545; 3098485342425186372; 149569568769024;
   1169327939586; 36600715804148802; 18036391024005152;
   4505824454067352; 1451922767598848032; 4503737085329536;
   1441715106730754176; 36170393534873600; 54606162705908352;
   2307602391163208738; 4612816336345698306; 13871686122722560004;
   297272777026114056; 1157469420311281792; 9800976281285173570;
   1154048504564287616; 281546061791240; 9223532565636391041;
   288517490761011200; 11535413131635365888; 1178693649106068;
   1127033780314816; 9295713584619718656; 4614784444346663040;
   18014677682884864; 9367769808009169408; 4612953214169645312;
   576744428484437024; 148917889294934016; 4611758623842918400;
   563019880989728; 4644474840029192; 576462959950201872;
   4688265010642718752; 585476751951446280; 432918002334171905;
   4756372961274105856; 5188191885201772544; 12105676081974215714;
   35184917872704; 16181433538485291520; 18005056620556;
   5190592377856999424; 40552328532723840; 4616472776727923840;
   7882416073016586; 1731634057802158188; 2318790926878935040;
   20274996312146464; 576566879066527808; 9414635455488;
   11530393765489672320
  ].

(** ** The bit of the key that decides a square *)

(** The value of [bitNum] at which the walk of [submask] tests the key
    for the square [t]: the number of squares of the mask before [t]. *)
Fixpoint bitnum_of (squares : list Z) (mask t bitNum : Z) : option Z :=
  match squares with
  | [] => None
  | s :: rest =>
      if bit_is_set mask s then
        if s =? t then Some (bitNum + 1)
        else bitnum_of rest mask t (bitNum + 1)
      else if s =? t then None
      else bitnum_of rest mask t bitNum
  end.

(** ** The occupancy that matters to [sliding_attacks] *)

(** The squares of the ray from [s] along [delta] that have a further
    square of the ray behind them. *)
Fixpoint ray_inner (fuel : nat) (s delta : Z) : list Z :=
  match fuel with
  | O => []
  | S fuel' =>
      if square_is_ok s && (square_distance s (s - delta) =? 1) then
        if square_is_ok (s + delta) && (square_distance (s + delta) s =? 1)
        then s :: ray_inner fuel' (s + delta) delta
        else []
      else []
  end.

(** The mask of the square holds these squares, for each direction. *)
Definition mask_covers (s : Z) (deltas : list Z) : bool :=
  forallb (fun d =>
             forallb (bit_is_set (square_mask s deltas))
                     (ray_inner 64 (s + d) d))
          (firstn 4 deltas).

(** Modelled from the spec: the lookup of an attack set is in
    bitboard.h, which is not among the sources. The spec has it as
    "[magic[s]] x ([occupancy & mask[s]]) [>> shift[s]] yields an index
    into a per-square attack subtable [attacks[s]]"; the index is the
    one [do_magics] fills the subtable with. *)
Definition attacks_bb `{PF : Platform} (m : Magics) (s occupied : Z) : Z :=
  let i := Z.to_nat s in
  read (attTabl m) (default 0 (attack m !! i))
       (magic_index (Z.land occupied (default 0 (mask m !! i)))
                    (default 0 (magic m !! i))
                    (default 0 (shift m !! i))).

(** ** [first_1] and [pop_1st_bit] *)

Definition getZ (l : list Z) (i : Z) : Z := default 0 (l !! Z.to_nat i).

(** [k] is the least square of the set [b]. *)
Definition lowest_bit (b k : Z) : Prop :=
  0 <= k < 64
  /\ Z.testbit b k = true
  /\ forall j, 0 <= j < k -> Z.testbit b j = false.

(** The index of [1ULL << i] in [BSFTable], in the 64-bit build and
    with the folding of the 32-bit build. *)
Definition bsf_index64 (x : Z) : Z :=
  Z.shiftr (wrap64 (x * 0x218A392CD3D5DBF)) 58.

Definition bsf_index32 (fold : Z) : Z :=
  Z.shiftr (wrap32 (fold * 0x783A9B23)) 26.

(** [b ^= b - 1; b ^= b >> 32;] and the conversion to [uint32_t] *)
Definition bsf_fold (b : Z) : Z :=
  let b := Z.lxor b (wrap64 (b - 1)) in
  wrap32 (Z.lxor b (Z.shiftr b 32)).

(** The index [init_bitboards] computes in the 32-bit build:
    [b ^= b - 1; b ^= b >> 32;] on the 64-bit [b], then
    [uint32_t(b * 0x783A9B23) >> 26]. *)
Definition bsf_init32 (b : Z) : Z :=
  let b := Z.lxor b (wrap64 (b - 1)) in
  let b := Z.lxor b (Z.shiftr b 32) in
  Z.shiftr (wrap32 (wrap64 (b * 0x783A9B23))) 26.

(** The loop of [init_bitboards] that fills [BSFTable], which static
    storage has set to zero: [for (int i = 1; i < 64; i++)]. *)
Definition BSFTable (is64 : bool) : list Z :=
  fold_left (fun tbl i =>
               let index := if is64 then bsf_index64 (Z.shiftl 1 i)
                            else bsf_init32 (Z.shiftl 1 i) in
               <[Z.to_nat index := i]> tbl)
            (seqZ 1 63) (replicate 64 0).

(** The 64-bit build. *)
Definition first_1_64 (b : Z) : Z :=
  getZ (BSFTable true) (bsf_index64 (Z.land b (wrap64 (- b)))).

Definition pop_1st_bit_64 (b : Z) : Z * Z :=
  (getZ (BSFTable true) (bsf_index64 (Z.land b (wrap64 (- b)))),
   Z.land b (wrap64 (b - 1))).

(** The 32-bit build. [pop_1st_bit] takes the bitboard as two
    [uint32_t] halves, [l] and [h]. *)
Definition first_1_32 (b : Z) : Z :=
  getZ (BSFTable false) (bsf_index32 (bsf_fold b)).

Definition pop_1st_bit_32 (b : Z) : Z * Z :=
  let l := wrap32 b in
  let h := Z.shiftr b 32 in
  if negb (l =? 0) then
    (getZ (BSFTable false) (bsf_index32 (Z.lxor l (wrap32 (l - 1)))),
     Z.land l (wrap32 (l - 1)) + 2 ^ 32 * h)
  else
    (getZ (BSFTable false)
          (bsf_index32 (2 ^ 32 - 1 - Z.lxor h (wrap32 (h - 1)))),
     l + 2 ^ 32 * Z.land h (wrap32 (h - 1))).

(** ** The tables of [init_bitboards] *)

(** [SetMaskBB] and [ClearMaskBB], with their entry for [SQ_NONE]. *)
Definition SetMaskBB : list Z :=
  map (fun s => wrap64 (Z.shiftl 1 s)) (seqZ 0 64) ++ [0].

Definition ClearMaskBB : list Z :=
  map (fun s => 2 ^ 64 - 1 - wrap64 (Z.shiftl 1 s)) (seqZ 0 64)
  ++ [2 ^ 64 - 1 - EmptyBoardBB].

(** [FileBB] and [RankBB]: the first entry, then
    [for (int f = FILE_B; f <= FILE_H; f++)]. *)
Definition FileRankBB : list Z * list Z :=
  fold_left (fun '(fileBB, rankBB) f =>
               (<[Z.to_nat f := wrap64 (Z.shiftl (getZ fileBB (f - 1)) 1)]>
                  fileBB,
                <[Z.to_nat f := wrap64 (Z.shiftl (getZ rankBB (f - 1)) 8)]>
                  rankBB))
            (seqZ 1 7)
            (FileABB :: replicate 7 0, Rank1BB :: replicate 7 0).

Definition FileBB : list Z := fst FileRankBB.
Definition RankBB : list Z := snd FileRankBB.

Definition NeighboringFilesBB : list Z :=
  map (fun f =>
         Z.lor (if 0 <? f then getZ FileBB (f - 1) else 0)
               (if f <? 7 then getZ FileBB (f + 1) else 0))
      (seqZ 0 8).

Definition ThisAndNeighboringFilesBB : list Z :=
  map (fun f => Z.lor (getZ FileBB f) (getZ NeighboringFilesBB f))
      (seqZ 0 8).

(** [InFrontBB[WHITE]] and [InFrontBB[BLACK]]:
    [for (int rw = RANK_7, rb = RANK_2; rw >= RANK_1; rw--, rb++)]. *)
Definition InFrontBB : list Z * list Z :=
  fold_left (fun '(white, black) rb =>
               let rw := 7 - rb in
               (<[Z.to_nat rw :=
                    Z.lor (getZ white (rw + 1)) (getZ RankBB (rw + 1))]> white,
                <[Z.to_nat rb :=
                    Z.lor (getZ black (rb - 1)) (getZ RankBB (rb - 1))]> black))
            (seqZ 1 7)
            (replicate 8 0, replicate 8 0).

(** [steps], one row for each piece type from 0 to [KING]. *)
Definition steps : list (list Z) :=
  [[0]; [7; 9; 0]; [17; 15; 10; 6; -6; -10; -15; -17; 0]; [0]; [0]; [0];
   [9; 7; -7; -9; 8; 1; -1; -8; 0]].

(** [for (int k = 0; steps[pt][k]; k++)]: the steps up to the first 0. *)
Fixpoint steps_of (row : list Z) : list Z :=
  match row with
  | [] => []
  | k :: rest => if k =? 0 then [] else k :: steps_of rest
  end.

(** [StepAttacksBB[make_piece(c, pt)][s]], as the loops over the steps
    leave it; [c] is 0 for white and 1 for black. *)
Definition StepAttacksBB (c pt s : Z) : Z :=
  fold_left (fun bb k =>
               let to := s + (if c =? 0 then k else - k) in
               if square_is_ok to && (square_distance s to <? 3)
               then set_bit bb to else bb)
            (steps_of (default [] (steps !! Z.to_nat pt))) 0.

(** ** [BetweenBB] *)

(** [for (Square s3 = s1 + d; s3 != s2; s3 += d)
    set_bit(&BetweenBB[s1][s2], s3);] with the rounds it may take;
    [None] when they do not reach its end. *)
Fixpoint between_loop (fuel : nat) (s3 s2 d bb : Z) : option Z :=
  match fuel with
  | O => None
  | S fuel' =>
      if s3 =? s2 then Some bb
      else between_loop fuel' (s3 + d) s2 d (set_bit bb s3)
  end.

(** [BetweenBB[s1][s2]] as the last loops of [init_bitboards] leave it,
    given the table [QueenPseudoAttacks]; the entry starts empty. The
    division is the one of C, which truncates; [None] stands for a
    division by 0 and for a loop that the rounds given do not end. *)
Definition BetweenBB (fuel : nat) (queen : list Z) (s1 s2 : Z) : option Z :=
  if bit_is_set (getZ queen s1) s2 then
    let f := file_distance s1 s2 in
    let r := rank_distance s1 s2 in
    if Z.max f r =? 0 then None
    else
      let d := Z.quot (s2 - s1) (Z.max f r) in
      between_loop fuel (s1 + d) s2 d 0
  else Some 0.

End Bitboard.

(** * pawns.cpp *)

Module Pawns.

Import Bitboard.

(** [b <<= 8] for white and [b >>= 8] for black, on a 64-bit set. *)
Definition next_rank (white : bool) (b : Z) : Z :=
  if white then wrap64 (Z.shiftl b 8) else Z.shiftr b 8.

(** The scan of the test for a backward pawn in [get_pawn_info]:
    [for (b = pos.pawn_attacks(us, s); !(b & (ourPawns | theirPawns));
    b <<= 8);] for white, with [b >>= 8] for black. [b] is the set the
    scan starts from and [pawns] is [ourPawns | theirPawns]; the result
    is the set the loop stops at, [None] when the rounds given do not
    reach its end. *)
Fixpoint backward_scan (fuel : nat) (white : bool) (b pawns : Z) : option Z :=
  match fuel with
  | O => None
  | S fuel' =>
      if Z.land b pawns =? 0
      then backward_scan fuel' white (next_rank white b) pawns
      else Some b
  end.

(** The square [k] ranks ahead of [u], as the side sees it. *)
Definition ranks_ahead (white : bool) (u k : Z) : Z :=
  if white then u + 8 * k else u - 8 * k.

End Pawns.

(** * thread.cpp *)

Module Threads.

Definition MAX_THREADS : Z := 32.
Definition MAX_ACTIVE_SPLIT_POINTS : Z := 8.

(** A pointer to a split point: the thread whose [splitPoints] holds it,
    and its place there. *)
Definition SplitPointRef : Type := (Z * Z)%type.

(** The fields of [SplitPoint] and [Thread] that [split] and the tests
    of availability read and write. The pointers [mp], [pos] and [ss]
    are kept as addresses. *)
Record SplitPoint := mkSplitPoint {
  parent : option SplitPointRef;
  master : Z;
  is_betaCutoff : bool;
  depth : Z;
  threatMove : Z;
  alpha : Z;
  beta : Z;
  nodeType : Z;
  bestValue : Z;
  mp : Z;
  moveCount : Z;
  pos : Z;
  nodes : Z;
  ss : Z;
  is_slave : list bool
}.

Record Thread := mkThread {
  is_searching : bool;
  activeSplitPoints : Z;
  splitPoints : list SplitPoint;
  splitPoint : option SplitPointRef
}.

(** [woken] lists the threads [wake_up] was called on, the latest
    last. *)
Record ThreadsManager := mkManager {
  threads : list Thread;
  activeThreads : Z;
  maxThreadsPerSplitPoint : Z;
  useSleepingThreads : bool;
  woken : list Z
}.

(** [sp->is_slave[i]]; a read outside the array gives [false]. *)
Definition slave_flag (sp : SplitPoint) (i : Z) : bool :=
  default false (is_slave sp !! Z.to_nat i).

Definition thread_at (ts : list Thread) (i : Z) : option Thread :=
  ts !! Z.to_nat i.

(** [Thread::is_available_to] *)
Definition is_available_to (t : Thread) (master : Z) : bool :=
  if is_searching t then false
  else
    let localActiveSplitPoints := activeSplitPoints t in
    if (localActiveSplitPoints =? 0)
       || match splitPoints t !! Z.to_nat (localActiveSplitPoints - 1) with
          | Some sp => slave_flag sp master
          | None => false
          end
    then true
    else false.

(** [threads[i].is_available_to(master)] *)
Definition available (ts : list Thread) (i master : Z) : bool :=
  match thread_at ts i with
  | Some t => is_available_to t master
  | None => false
  end.

(** [ThreadsManager::available_slave_exists] *)
Definition available_slave_exists (m : ThreadsManager) (master : Z) : bool :=
  existsb (fun i => negb (i =? master) && available (threads m) i master)
          (seqZ 0 (activeThreads m)).

(** [ThreadsManager::split_point_finished] *)
Definition split_point_finished (m : ThreadsManager) (sp : SplitPoint)
    : bool :=
  forallb (fun i => negb (slave_flag sp i)) (seqZ 0 (activeThreads m)).

(** Writes through [threads[i]] and through a pointer to a split
    point. *)
Definition update_thread (i : Z) (f : Thread -> Thread) (ts : list Thread)
    : list Thread :=
  alter f (Z.to_nat i) ts.

Definition update_sp (k : Z) (f : SplitPoint -> SplitPoint) (t : Thread)
    : Thread :=
  mkThread (is_searching t) (activeSplitPoints t)
           (alter f (Z.to_nat k) (splitPoints t)) (splitPoint t).

Definition set_is_slave (flags : list bool) (sp : SplitPoint) : SplitPoint :=
  mkSplitPoint (parent sp) (master sp) (is_betaCutoff sp) (depth sp)
               (threatMove sp) (alpha sp) (beta sp) (nodeType sp)
               (bestValue sp) (mp sp) (moveCount sp) (pos sp) (nodes sp)
               (ss sp) flags.

(** A thread booked for the split point [r]. *)
Definition booked (r : SplitPointRef) (t : Thread) : Thread :=
  mkThread true (activeSplitPoints t) (splitPoints t) (Some r).

(** The body of the loop that books the slaves, for a thread [i] that
    is available: [sp->is_slave[i] = true], [threads[i].splitPoint = sp],
    [threads[i].is_searching = true] and the wake-up. The split point
    is the one at place [k] of the master. *)
Definition book (i masterId k : Z) (m : ThreadsManager) : ThreadsManager :=
  let ts1 :=
    update_thread masterId
      (update_sp k (fun sp =>
         set_is_slave (<[Z.to_nat i := true]> (is_slave sp)) sp))
      (threads m) in
  let ts2 :=
    update_thread i (booked (masterId, k)) ts1 in
  mkManager ts2 (activeThreads m) (maxThreadsPerSplitPoint m)
            (useSleepingThreads m)
            (if useSleepingThreads m then woken m ++ [i] else woken m).

(** [for (i = 0; !Fake && i < activeThreads
         && workersCnt < maxThreadsPerSplitPoint; i++)], over the
    values of [i] that are left. *)
Fixpoint book_loop (ids : list Z) (masterId k : Z) (m : ThreadsManager)
    (workersCnt : Z) : ThreadsManager * Z :=
  match ids with
  | [] => (m, workersCnt)
  | i :: rest =>
      if workersCnt <? maxThreadsPerSplitPoint m then
        if negb (i =? masterId) && available (threads m) i masterId
        then book_loop rest masterId k (book i masterId k m) (workersCnt + 1)
        else book_loop rest masterId k m workersCnt
      else (m, workersCnt)
  end.

(** How [split] goes on after the slaves are booked: it returns
    [bestValue] at once, or the master enters [idle_loop] on the split
    point. *)
Inductive SplitStart :=
| Returned (m : ThreadsManager) (value : Z)
| Searching (m : ThreadsManager) (sp : SplitPointRef).

(** [ThreadsManager::split<Fake>] up to the call of [idle_loop]; the
    master is [pos.thread()]. A master outside [threads] fails the
    assertion of [split]; the function then returns as it was
    called. *)
Definition split (Fake : bool) (m : ThreadsManager) (masterId : Z)
    (p stack a b best d threat count picker node : Z) : SplitStart :=
  match thread_at (threads m) masterId with
  | None => Returned m best
  | Some masterThread =>
      if MAX_ACTIVE_SPLIT_POINTS <=? activeSplitPoints masterThread
      then Returned m best
      else
        let k := activeSplitPoints masterThread in
        let init (sp : SplitPoint) :=
          mkSplitPoint (splitPoint masterThread) masterId false d threat a b
            node best picker count p 0 stack
            (imap (fun j flag =>
                     if Z.of_nat j <? activeThreads m then false else flag)
                  (is_slave sp)) in
        let m1 :=
          mkManager (update_thread masterId (update_sp k init) (threads m))
                    (activeThreads m) (maxThreadsPerSplitPoint m)
                    (useSleepingThreads m) (woken m) in
        let '(m2, workersCnt) :=
          if Fake then (m1, 1)
          else book_loop (seqZ 0 (activeThreads m)) masterId k m1 1 in
        if negb Fake && (workersCnt =? 1) then Returned m2 best
        else
          Searching
            (mkManager
               (update_thread masterId
                  (fun t => mkThread (is_searching t)
                                     (activeSplitPoints t + 1)
                                     (splitPoints t) (Some (masterId, k)))
                  (threads m2))
               (activeThreads m2) (maxThreadsPerSplitPoint m2)
               (useSleepingThreads m2) (woken m2))
            (masterId, k)
  end.

(** The arrays have their sizes, and the active threads are among
    them. *)
Definition manager_ok (m : ThreadsManager) : Prop :=
  Z.of_nat (length (threads m)) = MAX_THREADS
  /\ 0 <= activeThreads m <= MAX_THREADS
  /\ Forall (fun t =>
       Z.of_nat (length (splitPoints t)) = MAX_ACTIVE_SPLIT_POINTS
       /\ Forall (fun sp => Z.of_nat (length (is_slave sp)) = MAX_THREADS)
                 (splitPoints t))
     (threads m).

(** The split point a pointer refers to. *)
Definition deref (ts : list Thread) (r : SplitPointRef) : option SplitPoint :=
  match thread_at ts (fst r) with
  | Some t => splitPoints t !! Z.to_nat (snd r)
  | None => None
  end.

(** [sp->is_slave[j]] through a pointer. *)
Definition is_slave_at (ts : list Thread) (r : SplitPointRef) (j : Z) : bool :=
  match deref ts r with
  | Some sp => slave_flag sp j
  | None => false
  end.

(** A manager for the examples: thread 0 is searching, the others are
    idle, three threads are active. *)
Definition example_split_point : SplitPoint :=
  mkSplitPoint None 0 false 0 0 0 0 0 0 0 0 0 0 0 (replicate 32 false).

Definition example_idle : Thread :=
  mkThread false 0 (replicate 8 example_split_point) None.

Definition example_busy : Thread :=
  mkThread true 0 (replicate 8 example_split_point) None.

Definition example_manager (maxThreads : Z) : ThreadsManager :=
  mkManager (example_busy :: replicate 31 example_idle) 3 maxThreads false [].

End Threads.

(** * uci.cpp and ucioption.cpp *)

Module UCI.

(** ** Reading tokens from a [std::istringstream] *)

(** [std::isspace] in the "C" locale: space and the characters 9 to 13. *)
Definition is_space (c : Ascii.ascii) : bool :=
  let n := Ascii.nat_of_ascii c in
  Nat.eqb n 32 || (Nat.leb 9 n && Nat.leb n 13).

Fixpoint skip_ws (s : string) : string :=
  match s with
  | EmptyString => EmptyString
  | String c rest => if is_space c then skip_ws rest else s
  end.

(** The characters up to the next white space, and what follows them. *)
Fixpoint read_word (s : string) : string * string :=
  match s with
  | EmptyString => (EmptyString, EmptyString)
  | String c rest =>
      if is_space c then (EmptyString, s)
      else let '(w, rest') := read_word rest in (String c w, rest')
  end.

(** [up >> token]: the next token and the rest of the stream, or [None]
    when the stream holds no further token (the extraction fails and
    leaves [token] as it was). *)
Definition read_token (s : string) : option (string * string) :=
  match skip_ws s with
  | EmptyString => None
  | s' => Some (read_word s')
  end.

(** A token: not empty and without white space. *)
Fixpoint no_space (w : string) : bool :=
  match w with
  | EmptyString => true
  | String c rest => negb (is_space c) && no_space rest
  end.

Definition is_token (w : string) : Prop :=
  w <> EmptyString /\ no_space w = true.

(** [S n] spaces. *)
Fixpoint blanks (n : nat) : string :=
  match n with
  | O => " "
  | S n' => String.append " " (blanks n')
  end.

(** A command line that holds the given tokens, each after the given
    number of spaces (one more than the number paired with it). *)
Fixpoint render (ws : list (nat * string)) : string :=
  match ws with
  | [] => EmptyString
  | (n, w) :: rest =>
      String.append (blanks n) (String.append w (render rest))
  end.

(** ** The option registry of ucioption.cpp *)

Inductive OptionType := SPIN | COMBO | CHECK | STRING | BUTTON.

Record Option := mkOption {
  defaultValue : string;
  currentValue : string;
  type : OptionType;
  minValue : Z;
  maxValue : Z;
  comboValues : list string
}.

Definition set_currentValue (v : string) (o : Option) : Option :=
  mkOption (defaultValue o) v (type o) (minValue o) (maxValue o)
           (comboValues o).

Section Engine.

(** The class [Position], whose header is not among the sources. *)
Variable Position : Type.

(** The state a command acts on: the root position (the static local of
    [execute_uci_command]), the option registry, and the lines sent to
    the standard output, the latest last. *)
Record Engine := mkEngine {
  pos : Position;
  options : gmap string Option;
  output : list string
}.

Definition say (line : string) (st : Engine) : Engine :=
  mkEngine (pos st) (options st) (output st ++ [line]).

Definition set_pos (p : Position) (st : Engine) : Engine :=
  mkEngine p (options st) (output st).

Definition set_options (o : gmap string Option) (st : Engine) : Engine :=
  mkEngine (pos st) o (output st).

(** [set_option_value] of ucioption.cpp *)
Definition set_option_value (optionName newValue : string) (st : Engine)
    : Engine :=
  match options st !! optionName with
  | Some o =>
      set_options (<[optionName := set_currentValue newValue o]> (options st))
                  st
  | None => say (String.append "No such option: " optionName) st
  end.

(** [get_option_value<bool>] *)
Definition get_option_value_bool (optionName : string) (st : Engine) : bool :=
  match options st !! optionName with
  | Some o => String.eqb (currentValue o) "true"
  | None => false
  end.

(** [get_option_value<std::string>]: [ss >> ret] reads one token of the
    current value; [ret] stays empty when the option is not registered
    or the value holds no token. *)
Definition get_option_value_string (optionName : string) (st : Engine)
    : string :=
  match options st !! optionName with
  | Some o =>
      match read_token (currentValue o) with
      | Some (w, _) => w
      | None => EmptyString
      end
  | None => EmptyString
  end.

(** [push_button] *)
Definition push_button (buttonName : string) (st : Engine) : Engine :=
  set_option_value buttonName "true" st.

(** [button_was_pressed] *)
Definition button_was_pressed (buttonName : string) (st : Engine)
    : bool * Engine :=
  if get_option_value_bool buttonName st
  then (true, set_option_value buttonName "false" st)
  else (false, st).

(** What uci.cpp calls in files that are not among the sources: the
    position, the search, the evaluation and the newer option class. *)
Class Handlers := {
  (** [pos.from_fen(StartPositionFEN, false)] *)
  from_fen_start : Position -> Position;
  (** [go(pos, up)], which ends in [think] *)
  go : string -> Engine -> bool * Engine;
  (** [set_position(pos, up)] *)
  set_position : string -> Engine -> Engine;
  (** [perft(pos, up)] *)
  perft : string -> Engine -> Engine;
  (** [pos.print()] *)
  print : Position -> list string;
  (** [pos.flip()] *)
  flip : Position -> Position;
  (** [read_evaluation_uci_options] and [trace_evaluate] *)
  trace_evaluate : Engine -> string;
  (** the text of the [key] command *)
  key_text : Position -> string;
  (** the text of the [uci] command *)
  uci_text : gmap string Option -> string;
  (** [Option::set_value] *)
  set_value : string -> Option -> Option
}.

Context `{H : Handlers}.

(** The tokens [up >> token] yields until the stream is exhausted; the
    fuel is the length of the stream. *)
Fixpoint tokens_fuel (fuel : nat) (s : string) : list string :=
  match fuel with
  | O => []
  | S fuel' =>
      match read_token s with
      | Some (w, rest) => w :: tokens_fuel fuel' rest
      | None => []
      end
  end.

Definition tokens (s : string) : list string :=
  tokens_fuel (S (String.length s)) s.

(** [name += string(" ", !name.empty()) + token] over the given
    tokens. *)
Definition join_tokens (ws : list string) : string :=
  fold_left (fun acc w =>
               String.append
                 (String.append acc (if String.eqb acc "" then "" else " "))
                 w)
            ws EmptyString.

(** The tokens before the first ["value"], and those after it. *)
Fixpoint split_at_value (ws : list string) : list string * list string :=
  match ws with
  | [] => ([], [])
  | w :: rest =>
      if String.eqb w "value" then ([], rest)
      else let '(n, v) := split_at_value rest in (w :: n, v)
  end.

(** The name and the value [set_option] reads from the stream: the
    first token (["name"]) is dropped, the name runs up to the token
    ["value"], the value is what follows. *)
Definition parse_setoption (up : string) : string * string :=
  let rest := match read_token up with
              | Some (_, r) => r
              | None => up
              end in
  let '(nameTokens, valueTokens) := split_at_value (tokens rest) in
  (join_tokens nameTokens, join_tokens valueTokens).

(** [set_option] of uci.cpp *)
Definition set_option (up : string) (st : Engine) : Engine :=
  let '(name, value) := parse_setoption up in
  match options st !! name with
  | Some o =>
      set_options
        (<[name := set_value (if String.eqb value "" then "true" else value)
                             o]> (options st)) st
  | None => say (String.append "No such option: " name) st
  end.

(** The commands [execute_uci_command] recognizes. *)
Definition commands : list string :=
  ["quit"; "go"; "ucinewgame"; "isready"; "position"; "setoption"; "perft";
   "d"; "flip"; "eval"; "key"; "uci"]%string.

(** [up >> skipws >> token] on a fresh stream: the first word of the
    command and the rest of the stream; the token stays empty when the
    command holds no word. *)
Definition first_token (cmd : string) : string * string :=
  match read_token cmd with
  | Some r => r
  | None => (EmptyString, EmptyString)
  end.

(** [execute_uci_command] *)
Definition execute_uci_command (cmd : string) (st : Engine) : bool * Engine :=
  let '(token, up) := first_token cmd in
  if String.eqb token "quit" then (false, st)
  else if String.eqb token "go" then go up st
  else if String.eqb token "ucinewgame"
  then (true, set_pos (from_fen_start (pos st)) st)
  else if String.eqb token "isready" then (true, say "readyok" st)
  else if String.eqb token "position" then (true, set_position up st)
  else if String.eqb token "setoption" then (true, set_option up st)
  else if String.eqb token "perft" then (true, perft up st)
  else if String.eqb token "d"
  then (true, mkEngine (pos st) (options st) (output st ++ print (pos st)))
  else if String.eqb token "flip" then (true, set_pos (flip (pos st)) st)
  else if String.eqb token "eval" then (true, say (trace_evaluate st) st)
  else if String.eqb token "key" then (true, say (key_text (pos st)) st)
  else if String.eqb token "uci" then (true, say (uci_text (options st)) st)
  else (true, say (String.append "Unknown command: " cmd) st).

End Engine.

(** An engine for the examples: no position to speak of, handlers that
    do nothing, and a registry with two of the options of
    [load_defaults]. *)
Definition example_handlers : Handlers unit := {|
  from_fen_start := fun p => p;
  go := fun _ st => (true, st);
  set_position := fun _ st => st;
  perft := fun _ st => st;
  print := fun _ => [];
  flip := fun p => p;
  trace_evaluate := fun _ => EmptyString;
  key_text := fun _ => EmptyString;
  uci_text := fun _ => EmptyString;
  set_value := set_currentValue
|}.

Definition example_engine : Engine unit :=
  mkEngine unit tt
    (<["Hash" := mkOption "32" "32" SPIN 4 4096 []]>
       (<["Ponder" := mkOption "true" "true" CHECK 0 0 []]> ∅))
    [].

(** A second registry for the examples, with a button and an option
    whose name has several words, as [load_defaults] sets them. *)
Definition example_registry : Engine unit :=
  mkEngine unit tt
    (<["Clear Hash" := mkOption "false" "false" BUTTON 0 0 []]>
       (<["Search Log Filename" :=
            mkOption "SearchLog.txt" "SearchLog.txt" STRING 0 0 []]> ∅))
    [].

End UCI.

(** Closed goals over concrete data are settled by evaluation. *)
Ltac by_computation :=
  first [ reflexivity
        | vm_compute; reflexivity
        | vm_compute; discriminate
        | simpl; lia ].

(** A conjunction of boolean checks that holds, taken apart. *)
Ltac boolean_facts :=
  repeat match goal with
         | H : _ && _ = true |- _ => apply andb_true_iff in H; destruct H
         | H : eqb _ _ = true |- _ => apply eqb_prop in H
         | H : (_ =? _) = true |- _ => apply Z.eqb_eq in H
         end.

(** * Part II : theorems *)

(** ** Facts about the accessors *)

Lemma land_ones_low (x n : Z) :
  0 <= n -> Z.land x (Z.ones n) = x mod 2 ^ n.
Proof. intros Hn. now apply Z.land_ones. Qed.

Lemma tt_move_mod (e : TT.TTEntry) : TT.move e = TT.data e mod 2 ^ 17.
Proof.
  unfold TT.move. change 0x1FFFF with (Z.ones 17).
  apply land_ones_low. lia.
Qed.

Lemma tt_type_mod (e : TT.TTEntry) :
  TT.type e = (TT.data e / 2 ^ 20) mod 2 ^ 3.
Proof.
  unfold TT.type. change 7 with (Z.ones 3).
  rewrite land_ones_low by lia.
  now rewrite Z.shiftr_div_pow2 by lia.
Qed.

Lemma tt_generation_div (e : TT.TTEntry) :
  TT.generation e = TT.data e / 2 ^ 23.
Proof. unfold TT.generation. now rewrite Z.shiftr_div_pow2 by lia. Qed.

Lemma tt_move_bits (e : TT.TTEntry) (i : Z) :
  Z.testbit (TT.move e) i = Z.testbit (TT.data e) i && (i <? 17).
Proof.
  unfold TT.move. change 0x1FFFF with (Z.ones 17).
  rewrite Z.land_spec.
  destruct (Z.ltb_spec i 17) as [Hlt | Hge].
  - destruct (Z.ltb_spec i 0) as [Hneg | Hpos].
    + now rewrite !Z.testbit_neg_r by lia.
    + rewrite Z.ones_spec_low by lia. reflexivity.
  - rewrite Z.ones_spec_high by lia. reflexivity.
Qed.

Lemma tt_generation_bits (e : TT.TTEntry) (i : Z) :
  0 <= i -> Z.testbit (TT.generation e) i = Z.testbit (TT.data e) (i + 23).
Proof. intros Hi. unfold TT.generation. now rewrite Z.shiftr_spec by lia. Qed.

Lemma tt_type_bits (e : TT.TTEntry) (i : Z) :
  0 <= i ->
  Z.testbit (TT.type e) i = Z.testbit (TT.data e) (i + 20) && (i <? 3).
Proof.
  intros Hi. unfold TT.type. change 7 with (Z.ones 3).
  rewrite Z.land_spec, Z.shiftr_spec by lia.
  destruct (Z.ltb_spec i 3) as [Hlt | Hge].
  - rewrite Z.ones_spec_low by lia. reflexivity.
  - rewrite Z.ones_spec_high by lia. reflexivity.
Qed.

(** C6, as the code has it: [move()] is the low 17 bits of [data] (bits
    0-16, as the header comment of tt.h documents), [type()] is the three
    bits 20-22 and [generation()] is the nine bits 23-31. *)
Theorem tt_data_layout (e : TT.TTEntry) :
  TT.data_ok e ->
  TT.move e = TT.data e mod 2 ^ 17 /\
  TT.type e = (TT.data e / 2 ^ 20) mod 2 ^ 3 /\
  TT.generation e = TT.data e / 2 ^ 23 /\
  0 <= TT.generation e < 2 ^ 9 /\
  (forall i, Z.testbit (TT.move e) i = Z.testbit (TT.data e) i && (i <? 17)) /\
  (forall i, 0 <= i ->
     Z.testbit (TT.type e) i = Z.testbit (TT.data e) (i + 20) && (i <? 3)) /\
  (forall i, 0 <= i ->
     Z.testbit (TT.generation e) i = Z.testbit (TT.data e) (i + 23)).
Proof.
  intros [Hlo Hhi].
  repeat split.
  - apply tt_move_mod.
  - apply tt_type_mod.
  - apply tt_generation_div.
  - rewrite tt_generation_div. apply Z.div_pos; lia.
  - rewrite tt_generation_div.
    apply Z.div_lt_upper_bound; [lia |].
    change (2 ^ 23 * 2 ^ 9) with (2 ^ 32). exact Hhi.
  - apply tt_move_bits.
  - apply tt_type_bits.
  - apply tt_generation_bits.
Qed.

Lemma tt_data_layout_witness :
  TT.data_ok (TT.mkTTEntry 0 0x80310000 0 0) /\
  TT.move (TT.mkTTEntry 0 0x80310000 0 0) = 0x10000 /\
  TT.type (TT.mkTTEntry 0 0x80310000 0 0) = 3 /\
  TT.generation (TT.mkTTEntry 0 0x80310000 0 0) = 256.
Proof.
  assert (Hok : TT.data_ok (TT.mkTTEntry 0 0x80310000 0 0))
    by (unfold TT.data_ok; simpl; lia).
  pose proof (tt_data_layout _ Hok) as (Hm & Ht & Hg & _).
  split; [exact Hok |].
  split; [rewrite Hm; reflexivity |].
  split; [rewrite Ht; reflexivity | rewrite Hg; reflexivity].
Defined.

(** C6 as the claim words it fails: bit 16 belongs to the move, so
    [move()] is not the low 16 bits of [data], and [generation()] can hold
    a value that does not fit in 8 bits. *)
Lemma tt_data_layout_counterexample :
  TT.data_ok (TT.mkTTEntry 0 0x80010000 0 0) /\
  TT.move (TT.mkTTEntry 0 0x80010000 0 0)
    <> Z.land (TT.data (TT.mkTTEntry 0 0x80010000 0 0)) 0xFFFF /\
  ~ TT.generation (TT.mkTTEntry 0 0x80010000 0 0) < 2 ^ 8.
Proof.
  split; [| split].
  - unfold TT.data_ok; simpl; lia.
  - vm_compute. discriminate.
  - vm_compute. discriminate.
Qed.

(** ** The killer ring (search.cpp, [update_killers]) *)

Section Killers.

Import Search.

Lemma shift_killers_length (i : nat) (ks : list Z) :
  length (shift_killers i ks) = length ks.
Proof.
  revert ks. induction i as [| j IH]; intros ks; simpl; [reflexivity |].
  destruct (ks !! j); rewrite IH; [apply length_insert | reflexivity].
Qed.

(** The loop moves every slot up to [i] one place to the right and
    leaves the first slot and the slots after [i] alone. *)
Lemma shift_killers_lookup (i : nat) (ks : list Z) (k : nat) :
  (i < length ks)%nat ->
  shift_killers i ks !! k =
    if decide (k = 0%nat) then ks !! 0%nat
    else if decide (k <= i)%nat then ks !! (k - 1)%nat
    else ks !! k.
Proof.
  revert ks. induction i as [| j IH]; intros ks Hlen; simpl.
  - repeat case_decide; subst; try reflexivity; lia.
  - destruct (lookup_lt_is_Some_2 ks j ltac:(lia)) as [x Hx].
    rewrite Hx, IH by (rewrite length_insert; lia).
    repeat case_decide; subst; try lia.
    + now rewrite list_lookup_insert_ne by lia.
    + now rewrite list_lookup_insert_ne by lia.
    + assert (k = S j) by lia. subst k.
      rewrite list_lookup_insert_eq by lia.
      rewrite <- Hx. f_equal. lia.
    + now rewrite list_lookup_insert_ne by lia.
Qed.

Lemma set_killers_same (ss : SearchStack) : set_killers ss (killers ss) = ss.
Proof. now destruct ss. Qed.

Lemma update_killers_hit (m : Z) (ss : SearchStack) :
  killers ss !! 0%nat = Some m -> update_killers m ss = ss.
Proof.
  intros H. unfold update_killers.
  now rewrite bool_decide_eq_true_2.
Qed.

Lemma update_killers_miss (m : Z) (ss : SearchStack) :
  killers ss !! 0%nat <> Some m ->
  killers (update_killers m ss) =
    <[0%nat := m]> (shift_killers (length (killers ss) - 1) (killers ss)).
Proof.
  intros H. unfold update_killers.
  now rewrite bool_decide_eq_false_2.
Qed.

Lemma update_killers_length (m : Z) (ss : SearchStack) :
  length (killers (update_killers m ss)) = length (killers ss).
Proof.
  destruct (decide (killers ss !! 0%nat = Some m)) as [Heq | Hne].
  - now rewrite update_killers_hit.
  - rewrite update_killers_miss by assumption.
    now rewrite length_insert, shift_killers_length.
Qed.

Lemma update_killers_first (m : Z) (ss : SearchStack) :
  (1 <= length (killers ss))%nat ->
  killers (update_killers m ss) !! 0%nat = Some m.
Proof.
  intros Hlen.
  destruct (decide (killers ss !! 0%nat = Some m)) as [Heq | Hne].
  - now rewrite update_killers_hit.
  - rewrite update_killers_miss by assumption.
    apply list_lookup_insert_eq. rewrite shift_killers_length. lia.
Qed.

Lemma update_killers_shifted (m : Z) (ss : SearchStack) (i : nat) :
  killers ss !! 0%nat <> Some m ->
  (1 <= i < length (killers ss))%nat ->
  killers (update_killers m ss) !! i = killers ss !! (i - 1)%nat.
Proof.
  intros Hne Hi.
  rewrite update_killers_miss by assumption.
  rewrite list_lookup_insert_ne by lia.
  rewrite shift_killers_lookup by lia.
  repeat case_decide; try lia. reflexivity.
Qed.

Lemma update_killers_empty (m : Z) (ss : SearchStack) :
  killers ss = [] -> update_killers m ss = ss.
Proof.
  intros Hks. unfold update_killers. rewrite Hks. simpl.
  rewrite <- Hks. apply set_killers_same.
Qed.

Lemma update_killers_twice (m : Z) (ss : SearchStack) :
  update_killers m (update_killers m ss) = update_killers m ss.
Proof.
  destruct (killers ss) as [| k0 ks] eqn:Hks.
  - rewrite (update_killers_empty m ss Hks).
    apply (update_killers_empty m ss Hks).
  - apply update_killers_hit, update_killers_first.
    rewrite Hks. simpl. lia.
Qed.

(** C10: [update_killers] leaves the ring alone when the move is already
    its first killer, so that a second call with the same move changes
    nothing; otherwise the move becomes the first killer and every other
    slot takes the move of the slot before it, and the first two slots
    then differ. *)
Theorem update_killers_ring (m : Z) (ss : Search.SearchStack) :
  (2 <= length (Search.killers ss))%nat ->
  (Search.killers ss !! 0%nat = Some m -> Search.update_killers m ss = ss) /\
  Search.update_killers m (Search.update_killers m ss)
    = Search.update_killers m ss /\
  (Search.killers ss !! 0%nat <> Some m ->
     Search.killers (Search.update_killers m ss) !! 0%nat = Some m /\
     (forall i : nat, (1 <= i < length (Search.killers ss))%nat ->
        Search.killers (Search.update_killers m ss) !! i
          = Search.killers ss !! (i - 1)%nat) /\
     length (Search.killers (Search.update_killers m ss))
       = length (Search.killers ss)) /\
  (Search.update_killers m ss = ss \/
   Search.killers (Search.update_killers m ss) !! 0%nat
     <> Search.killers (Search.update_killers m ss) !! 1%nat).
Proof.
  intros Hlen. split; [apply update_killers_hit |].
  split; [apply update_killers_twice |]. split.
  - intros Hne. split; [apply update_killers_first; lia |].
    split; [| apply update_killers_length].
    intros i Hi. now apply update_killers_shifted.
  - destruct (decide (killers ss !! 0%nat = Some m)) as [Heq | Hne].
    + left. now apply update_killers_hit.
    + right. rewrite update_killers_first by lia.
      rewrite update_killers_shifted by (auto; lia).
      simpl. congruence.
Qed.

Lemma update_killers_ring_witness :
  (2 <= length [5; 3])%nat /\
  Search.killers
    (Search.update_killers 7 (Search.mkSearchStack 0 0 0 [5; 3] 0 0))
    !! 0%nat = Some 7 /\
  Search.killers
    (Search.update_killers 7 (Search.mkSearchStack 0 0 0 [5; 3] 0 0))
    !! 1%nat = Some 5.
Proof.
  assert (Hlen : (2 <= length [5; 3])%nat) by (simpl; lia).
  destruct (update_killers_ring 7 (Search.mkSearchStack 0 0 0 [5; 3] 0 0) Hlen)
    as (_ & _ & Hmiss & _).
  destruct Hmiss as (H0 & Hi & _); [simpl; discriminate |].
  split; [exact Hlen |]. split; [exact H0 |].
  apply (Hi 1%nat). simpl. lia.
Defined.

End Killers.

(** ** The node routines of search.cpp *)

Section NodeRoutines.

Import Search.
Context `{P : Params}.

Lemma bind_return {A B : Type} (v : Z) (k : A -> flow B) :
  bind (Return v) k = Return v.
Proof. reflexivity. Qed.



Lemma when_true (v : Z) : when true v = Return v.
Proof. reflexivity. Qed.




Lemma search_deep (env : Env) (beta depth ply : Z) (allowNullmove : bool)
    (excludedMove : Z) :
  OnePly <= depth ->
  search env beta depth ply allowNullmove excludedMove =
    match search_prologue env beta depth ply allowNullmove excludedMove with
    | Return v => v
    | Next (tte, ttMove, mateThreat) =>
        let st :=
          move_loop (fun st => bestValue st <? beta) (should_stop env)
            (search_body env beta excludedMove tte mateThreat)
            (picker env ttMove) 0
            (mkLoopSt (- VALUE_INFINITE) (beta - 1) 0) in
        if moveCount st =? 0
        then if negb (excludedMove =? 0) then beta - 1
             else if is_check env then value_mated_in ply
             else VALUE_DRAW
        else bestValue st
    end.
Proof.
  intros Hd. unfold search.
  replace (depth <? OnePly) with false by (symmetry; apply Z.ltb_ge; lia).
  reflexivity.
Qed.




End NodeRoutines.



(** ** The table at PV nodes *)

Section PvNodes.

Import Search.
Context `{P : Params}.

(** Before its move loop [search_pv] returns only at its three early
    exits; the probed entry plays no part in them. *)
Lemma search_pv_prologue_return (env : Env) (alpha beta depth ply v : Z) :
  search_pv_prologue env alpha beta depth ply = Return v <->
  (aborted env = true /\ v = 0)
  \/ (aborted env = false
      /\ is_draw env || (PLY_MAX - 1 <=? ply) = true
      /\ v = VALUE_DRAW)
  \/ (aborted env = false
      /\ is_draw env || (PLY_MAX - 1 <=? ply) = false
      /\ Z.min (value_mate_in (ply + 1)) beta
           <= Z.max (value_mated_in ply) alpha
      /\ v = Z.max (value_mated_in ply) alpha).
Proof.
  unfold search_pv_prologue.
  destruct (aborted env); simpl.
  { split; [intros [= <-]; auto | intros [[_ ->] | [[[=] _] | [[=] _]]]];
      reflexivity. }
  destruct (is_draw env || (PLY_MAX - 1 <=? ply)); simpl.
  { split.
    - intros [= <-]. right; left. auto.
    - intros [[[=] _] | [(_ & _ & ->) | (_ & [=] & _)]]. reflexivity. }
  destruct (Z.leb_spec (Z.min (value_mate_in (ply + 1)) beta)
                       (Z.max (value_mated_in ply) alpha)) as [Hle | Hgt];
    simpl.
  - split.
    + intros [= <-]. right; right. auto.
    + intros [[[=] _] | [(_ & [=] & _) | (_ & _ & _ & ->)]]. reflexivity.
  - split.
    + intros H.
      repeat match type of H with
             | context [if ?c then _ else _] => destruct c
             end; discriminate H.
    + intros [[[=] _] | [(_ & [=] & _) | (_ & _ & Hle & _)]]. lia.
Qed.

(** At a PV node [qsearch] skips the table cut-off. *)
Lemma qsearch_prologue_pv (env : Env) (alpha beta depth ply : Z) :
  qsearch_pvNode alpha beta = true ->
  qsearch_prologue env alpha beta depth ply =
    let* _ := when (aborted env) 0 in
    let* _ := when (is_draw env || (PLY_MAX - 1 <=? ply)) VALUE_DRAW in
    let* _ := when (beta <=? qsearch_staticValue env ply)
                   (qsearch_staticValue env ply) in
    Next (qsearch_staticValue env ply,
          if alpha <? qsearch_staticValue env ply
          then qsearch_staticValue env ply else alpha).
Proof.
  intros Hpv. unfold qsearch_prologue. rewrite Hpv.
  destruct (aborted env); [reflexivity |].
  destruct (is_draw env || (PLY_MAX - 1 <=? ply)); reflexivity.
Qed.

(** With a window of width one [qsearch] returns the value of a usable
    entry. *)
Lemma qsearch_cutoff (env : Env) (e : TT.TTEntry)
    (alpha beta depth ply : Z) :
  qsearch_pvNode alpha beta = false ->
  aborted env = false ->
  is_draw env = false ->
  ply < PLY_MAX - 1 ->
  tt_key env = Some e ->
  ok_to_use_TT e depth beta ply = true ->
  qsearch env alpha beta depth ply = value_from_tt (TT.value e) ply.
Proof.
  intros Hpv Ha Hd Hply He Hok.
  unfold qsearch, qsearch_prologue.
  rewrite Hpv, Ha, Hd, He.
  replace (PLY_MAX - 1 <=? ply) with false by (symmetry; apply Z.leb_gt; lia).
  simpl. now rewrite Hok.
Qed.

Lemma move_loop_ext (cond : LoopSt -> bool) (stop : nat -> bool)
    (body body' : LoopSt -> Z -> LoopSt * bool) (moves : list Z) :
  (forall st m, body st m = body' st m) ->
  forall (fetched : nat) (st : LoopSt),
    move_loop cond stop body moves fetched st
    = move_loop cond stop body' moves fetched st.
Proof.
  intros Hbody. induction moves as [| m rest IH]; intros fetched st;
    cbn [move_loop].
  - reflexivity.
  - destruct (cond st); [| reflexivity].
    destruct (m =? MOVE_NONE); [reflexivity |].
    destruct (stop fetched); [reflexivity |].
    rewrite Hbody. destruct (body' st m) as [st' brk].
    destruct brk; [reflexivity | apply IH].
Qed.

Lemma search_pv_shallow (env : Env) (alpha beta depth ply : Z) :
  depth < OnePly ->
  search_pv env alpha beta depth ply
  = child env (CallQsearch Here alpha beta 0 ply).
Proof.
  intros Hd. unfold search_pv.
  now rewrite (proj2 (Z.ltb_lt _ _) Hd).
Qed.

Lemma search_pv_deep (env : Env) (alpha beta depth ply : Z) :
  OnePly <= depth ->
  search_pv env alpha beta depth ply =
    match search_pv_prologue env alpha beta depth ply with
    | Return v => v
    | Next (alpha', beta', tte, ttMove) =>
        let st :=
          move_loop (fun st => alpha_ st <? beta') (should_stop env)
            (search_pv_body env tte (has_mate_threat env))
            (picker env ttMove) 0
            (mkLoopSt (- VALUE_INFINITE) alpha' 0) in
        if moveCount st =? 0
        then if is_check env then value_mated_in ply else VALUE_DRAW
        else bestValue st
    end.
Proof.
  intros Hd. unfold search_pv.
  replace (depth <? OnePly) with false by (symmetry; apply Z.ltb_ge; lia).
  reflexivity.
Qed.

(** The early exits of [search_pv]. *)
Lemma search_pv_exits (env : Env) (alpha beta depth ply : Z) :
  OnePly <= depth ->
  (aborted env = true -> search_pv env alpha beta depth ply = 0)
  /\ (aborted env = false ->
      is_draw env || (PLY_MAX - 1 <=? ply) = true ->
      search_pv env alpha beta depth ply = VALUE_DRAW)
  /\ (aborted env = false ->
      is_draw env || (PLY_MAX - 1 <=? ply) = false ->
      Z.min (value_mate_in (ply + 1)) beta
        <= Z.max (value_mated_in ply) alpha ->
      search_pv env alpha beta depth ply = Z.max (value_mated_in ply) alpha).
Proof.
  intros Hd. rewrite search_pv_deep by exact Hd.
  unfold search_pv_prologue. split; [| split].
  - intros ->. reflexivity.
  - intros -> ->. reflexivity.
  - intros -> -> Hle. cbn [when bind]. cbv zeta.
    now rewrite (proj2 (Z.leb_le _ _) Hle).
Qed.

(** Past its early exits [search_pv] reads the entry for its move and
    in the body of the move loop only. *)
Lemma search_pv_entry (env : Env) (alpha beta depth ply : Z)
    (e1 e2 : option TT.TTEntry) :
  OnePly <= depth ->
  tt_move e1 = tt_move e2 ->
  (forall m mc bv a mt,
     search_move env PvNode m mc bv a e1 mt
     = search_move env PvNode m mc bv a e2 mt) ->
  search_pv (set_tt_key e1 env) alpha beta depth ply
  = search_pv (set_tt_key e2 env) alpha beta depth ply.
Proof.
  intros Hd Hmove Hbody. rewrite !search_pv_deep by exact Hd.
  unfold search_pv_prologue. cbn [set_tt_key aborted is_draw tt_key].
  destruct (aborted env); [reflexivity |].
  destruct (is_draw env || (PLY_MAX - 1 <=? ply)); [reflexivity |].
  cbn [when bind]. cbv zeta.
  destruct (Z.min (value_mate_in (ply + 1)) beta
            <=? Z.max (value_mated_in ply) alpha); [reflexivity |].
  cbn [when bind]. rewrite Hmove.
  destruct (UseIIDAtPVNodes && (5 * OnePly <=? depth)
            && (tt_move e2 =? MOVE_NONE)).
  - reflexivity.
  - cbn [set_tt_key should_stop has_mate_threat picker is_check].
    rewrite (move_loop_ext _ _
               (search_pv_body (set_tt_key e1 env) e1 (has_mate_threat env))
               (search_pv_body (set_tt_key e2 env) e2 (has_mate_threat env))).
    + reflexivity.
    + intros st m. unfold search_pv_body. cbn [set_tt_key search_move].
      now rewrite Hbody.
Qed.

(** At a PV node [qsearch] reads the entry for its move, for the static
    value and in the body of the move loop only. *)
Lemma qsearch_pv_entry (env : Env) (alpha beta depth ply : Z)
    (e1 e2 : option TT.TTEntry) :
  qsearch_pvNode alpha beta = true ->
  tt_move e1 = tt_move e2 ->
  qsearch_staticValue (set_tt_key e1 env) ply
  = qsearch_staticValue (set_tt_key e2 env) ply ->
  (forall m mc bv a mt,
     search_move env QNode m mc bv a e1 mt
     = search_move env QNode m mc bv a e2 mt) ->
  qsearch (set_tt_key e1 env) alpha beta depth ply
  = qsearch (set_tt_key e2 env) alpha beta depth ply.
Proof.
  intros Hpv Hmove Hsv Hbody. unfold qsearch.
  rewrite !qsearch_prologue_pv by exact Hpv.
  cbn [set_tt_key aborted is_draw]. rewrite Hsv.
  destruct (aborted env); [reflexivity |].
  destruct (is_draw env || (PLY_MAX - 1 <=? ply)); [reflexivity |].
  cbn [when bind]. cbv zeta.
  destruct (beta <=? qsearch_staticValue (set_tt_key e2 env) ply);
    [reflexivity |].
  cbn [when bind set_tt_key tt_key picker is_check]. rewrite Hmove.
  rewrite (move_loop_ext _ _ (qsearch_body (set_tt_key e1 env))
             (qsearch_body (set_tt_key e2 env))).
  - reflexivity.
  - intros st m. unfold qsearch_body. cbn [set_tt_key search_move tt_key].
    now rewrite Hbody.
Qed.

(** The stand-pat exit of [qsearch] at a PV node. *)
Lemma qsearch_stand_pat (env : Env) (alpha beta depth ply : Z) :
  qsearch_pvNode alpha beta = true ->
  aborted env = false ->
  is_draw env = false ->
  ply < PLY_MAX - 1 ->
  beta <= qsearch_staticValue env ply ->
  qsearch env alpha beta depth ply = qsearch_staticValue env ply.
Proof.
  intros Hpv Ha Hdr Hply Hsv. unfold qsearch.
  rewrite qsearch_prologue_pv by exact Hpv. rewrite Ha, Hdr.
  replace (PLY_MAX - 1 <=? ply) with false by (symmetry; apply Z.leb_gt; lia).
  cbn [orb when bind]. cbv zeta.
  now rewrite (proj2 (Z.leb_le _ _) Hsv).
Qed.

(** C2, as the code has it: the table cut-off is never taken at a PV
    node. [search_pv] at a depth below one ply is [qsearch] on the same
    window; from one ply on it returns 0 (aborted search), [VALUE_DRAW]
    or the mate-distance bound at its early exits, and otherwise its
    value depends on the probed entry through the move of the entry and
    the body of the move loop only. [qsearch] with [beta - alpha <> 1]
    skips the cut-off: its value depends on the probed entry through the
    move of the entry, the static value and the body of the move loop
    only; with [beta - alpha = 1] it returns the ply-adjusted value of
    an entry that passes [ok_to_use_TT]. A PV node of [qsearch] still
    reads the value of the entry: not in check, an entry tagged as an
    evaluation supplies the static value, and this stand-pat value is
    the value of the node when it reaches [beta]. *)
Theorem pv_nodes_no_tt_cutoff (env : Search.Env) (alpha beta depth ply : Z) :
  (depth < Search.OnePly ->
   Search.search_pv env alpha beta depth ply
   = Search.child env (Search.CallQsearch Search.Here alpha beta 0 ply))
  /\ (Search.OnePly <= depth ->
      (Search.aborted env = true ->
       Search.search_pv env alpha beta depth ply = 0)
      /\ (Search.aborted env = false ->
          Search.is_draw env || (Search.PLY_MAX - 1 <=? ply) = true ->
          Search.search_pv env alpha beta depth ply = Search.VALUE_DRAW)
      /\ (Search.aborted env = false ->
          Search.is_draw env || (Search.PLY_MAX - 1 <=? ply) = false ->
          Z.min (Search.value_mate_in (ply + 1)) beta
            <= Z.max (Search.value_mated_in ply) alpha ->
          Search.search_pv env alpha beta depth ply
          = Z.max (Search.value_mated_in ply) alpha))
  /\ (forall e1 e2 : option TT.TTEntry,
        Search.OnePly <= depth ->
        Search.tt_move e1 = Search.tt_move e2 ->
        (forall m mc bv a mt,
           Search.search_move env Search.PvNode m mc bv a e1 mt
           = Search.search_move env Search.PvNode m mc bv a e2 mt) ->
        Search.search_pv (Search.set_tt_key e1 env) alpha beta depth ply
        = Search.search_pv (Search.set_tt_key e2 env) alpha beta depth ply)
  /\ (forall e1 e2 : option TT.TTEntry,
        Search.qsearch_pvNode alpha beta = true ->
        Search.tt_move e1 = Search.tt_move e2 ->
        Search.qsearch_staticValue (Search.set_tt_key e1 env) ply
        = Search.qsearch_staticValue (Search.set_tt_key e2 env) ply ->
        (forall m mc bv a mt,
           Search.search_move env Search.QNode m mc bv a e1 mt
           = Search.search_move env Search.QNode m mc bv a e2 mt) ->
        Search.qsearch (Search.set_tt_key e1 env) alpha beta depth ply
        = Search.qsearch (Search.set_tt_key e2 env) alpha beta depth ply)
  /\ (Search.qsearch_pvNode alpha beta = true ->
      Search.aborted env = false ->
      Search.is_draw env = false ->
      ply < Search.PLY_MAX - 1 ->
      beta <= Search.qsearch_staticValue env ply ->
      Search.qsearch env alpha beta depth ply
      = Search.qsearch_staticValue env ply)
  /\ (forall e : TT.TTEntry,
        Search.tt_key env = Some e ->
        Search.is_check env = false ->
        Search.qsearch_staticValue env ply =
          if Search.is_eval_entry (Some e)
          then Search.value_from_tt (TT.value e) ply
          else Search.evaluate env)
  /\ (forall e : TT.TTEntry,
        Search.qsearch_pvNode alpha beta = false ->
        Search.aborted env = false ->
        Search.is_draw env = false ->
        ply < Search.PLY_MAX - 1 ->
        Search.tt_key env = Some e ->
        Search.ok_to_use_TT e depth beta ply = true ->
        Search.qsearch env alpha beta depth ply
          = Search.value_from_tt (TT.value e) ply).
Proof.
  split; [apply search_pv_shallow |].
  split; [apply search_pv_exits |].
  split; [intros e1 e2; apply search_pv_entry |].
  split; [intros e1 e2; apply qsearch_pv_entry |].
  split; [apply qsearch_stand_pat |]. split.
  - intros e He Hc. unfold qsearch_staticValue, static_value.
    rewrite Hc, He. reflexivity.
  - intros e. apply qsearch_cutoff.
Qed.

End PvNodes.

(** A PV node of [search_pv] whose value is the same with a lower-bound
    entry of depth 6 and value 120 as without an entry, and a
    zero-window node of [qsearch] with a usable upper-bound entry. *)
Lemma pv_nodes_no_tt_cutoff_witness :
  Search.search_pv (P := Search.sample_params)
    (Search.set_tt_key (Some (TT.mkTTEntry 0 0x200000 120 6)) Search.quiet_env)
    0 100 4 1
  = Search.search_pv (P := Search.sample_params)
      (Search.set_tt_key None Search.quiet_env) 0 100 4 1 /\
  Search.qsearch (P := Search.sample_params)
    (Search.set_tt_key (Some (TT.mkTTEntry 0 0x100000 20 6)) Search.quiet_env)
    99 100 0 1 = 20.
Proof.
  destruct (pv_nodes_no_tt_cutoff (P := Search.sample_params)
              Search.quiet_env 0 100 4 1)
    as (_ & _ & Hpv & _).
  destruct (pv_nodes_no_tt_cutoff (P := Search.sample_params)
              (Search.set_tt_key (Some (TT.mkTTEntry 0 0x100000 20 6))
                                 Search.quiet_env) 99 100 0 1)
    as (_ & _ & _ & _ & _ & _ & Hcut).
  split.
  - apply Hpv; [by_computation | reflexivity | reflexivity].
  - apply (Hcut (TT.mkTTEntry 0 0x100000 20 6)); by_computation.
Defined.


(** C2 as the claim words it fails at a PV node of [qsearch]: with an
    open window the node returns 150, the value stored in the probed
    entry (tagged as an evaluation), where the evaluation of the
    position is 0 and the same node without the entry returns 0. It
    fails for [search_pv] below one ply as well: called on a window of
    width one, with [qsearch] on the same node as its call, it returns
    the value 20 of the usable entry through the cut-off of
    [qsearch]. *)
Lemma pv_nodes_no_tt_cutoff_counterexample :
  Search.qsearch_pvNode 0 100 = true /\
  Search.qsearch (P := Search.sample_params)
    (Search.set_tt_key (Some (TT.mkTTEntry 0 0x600000 150 0)) Search.quiet_env)
    0 100 0 1
  = @Search.value_from_tt Search.sample_params
      (TT.value (TT.mkTTEntry 0 0x600000 150 0)) 1 /\
  @Search.value_from_tt Search.sample_params
      (TT.value (TT.mkTTEntry 0 0x600000 150 0)) 1 = 150 /\
  Search.evaluate Search.quiet_env = 0 /\
  Search.qsearch (P := Search.sample_params) Search.quiet_env 0 100 0 1 = 0 /\
  Search.search_pv (P := Search.sample_params)
    (Search.set_tt_key (Some (TT.mkTTEntry 0 0x100000 20 6))
       (Search.example_env false 0 false
          (fun c =>
             match c with
             | Search.CallQsearch Search.Here a b d p =>
                 Search.qsearch (P := Search.sample_params)
                   (Search.set_tt_key (Some (TT.mkTTEntry 0 0x100000 20 6))
                                      Search.quiet_env) a b d p
             | _ => 0
             end)))
    99 100 0 1
  = @Search.value_from_tt Search.sample_params
      (TT.value (TT.mkTTEntry 0 0x100000 20 6)) 1 /\
  @Search.value_from_tt Search.sample_params
      (TT.value (TT.mkTTEntry 0 0x100000 20 6)) 1 = 20.
Proof. repeat split; reflexivity. Qed.

(** ** Nodes without a legal move *)

Section NoLegalMove.

Import Search.
Context `{P : Params}.

(** Without a move to fetch the loop does not run its body. *)
Lemma move_loop_nil (cond : LoopSt -> bool) (stop : nat -> bool)
    (body : LoopSt -> Z -> LoopSt * bool) (fetched : nat) (st : LoopSt) :
  move_loop cond stop body [] fetched st = st.
Proof. simpl. now destruct (cond st). Qed.

Lemma search_pv_prologue_next (env : Env) (alpha beta depth ply : Z) :
  aborted env = false ->
  is_draw env = false ->
  ply < PLY_MAX - 1 ->
  Z.max (value_mated_in ply) alpha < Z.min (value_mate_in (ply + 1)) beta ->
  exists tte ttMove,
    search_pv_prologue env alpha beta depth ply =
      Next (Z.max (value_mated_in ply) alpha,
            Z.min (value_mate_in (ply + 1)) beta, tte, ttMove).
Proof.
  intros Ha Hd Hply Hwin. unfold search_pv_prologue. rewrite Ha, Hd.
  replace (PLY_MAX - 1 <=? ply) with false by (symmetry; apply Z.leb_gt; lia).
  simpl.
  replace (Z.min (value_mate_in (ply + 1)) beta
             <=? Z.max (value_mated_in ply) alpha) with false
    by (symmetry; apply Z.leb_gt; lia).
  simpl.
  match goal with
  | |- context [if ?c then _ else _] => destruct c
  end; eauto.
Qed.

(** C3, as the code has it: when the move picker has no move to hand
    out, [search_pv] and [search] return the mated score of the ply in
    check and [VALUE_DRAW] otherwise, without running the body of the
    move loop, provided the node gets as far as its move loop ([depth >=
    OnePly] and none of the earlier exits is taken) and, in [search],
    no move is excluded (with an excluded move the result is
    [beta - 1]). [qsearch] returns the mated score in check and its
    stand-pat value otherwise. *)
Theorem no_legal_move_value (env : Search.Env) :
  (forall ttMove : Z, Search.picker env ttMove = []) ->
  (forall (cond : Search.LoopSt -> bool) (stop : nat -> bool)
          (body : Search.LoopSt -> Z -> Search.LoopSt * bool)
          (ttMove : Z) (st : Search.LoopSt),
     Search.move_loop cond stop body (Search.picker env ttMove) 0 st = st)
  /\ (forall alpha beta depth ply : Z,
        Search.OnePly <= depth ->
        Search.aborted env = false ->
        Search.is_draw env = false ->
        ply < Search.PLY_MAX - 1 ->
        Z.max (Search.value_mated_in ply) alpha
          < Z.min (Search.value_mate_in (ply + 1)) beta ->
        Search.search_pv env alpha beta depth ply =
          if Search.is_check env then Search.value_mated_in ply
          else Search.VALUE_DRAW)
  /\ (forall (beta depth ply : Z) (allowNullmove : bool) (excludedMove : Z)
             (x : option TT.TTEntry * Z * bool),
        Search.OnePly <= depth ->
        Search.search_prologue env beta depth ply allowNullmove excludedMove
          = Search.Next x ->
        Search.search env beta depth ply allowNullmove excludedMove =
          if negb (excludedMove =? 0) then beta - 1
          else if Search.is_check env then Search.value_mated_in ply
          else Search.VALUE_DRAW)
  /\ (forall (alpha beta depth ply bestValue0 alpha0 : Z),
        Search.qsearch_prologue env alpha beta depth ply
          = Search.Next (bestValue0, alpha0) ->
        Search.qsearch env alpha beta depth ply =
          if Search.is_check env then Search.value_mated_in ply
          else bestValue0).
Proof.
  intros Hnone. split; [| split; [| split]].
  - intros cond stop body ttMove st. rewrite Hnone. apply move_loop_nil.
  - intros alpha beta depth ply Hd Ha Hdr Hply Hwin.
    destruct (search_pv_prologue_next env alpha beta depth ply Ha Hdr Hply Hwin)
      as (tte & ttMove & Hpro).
    unfold search_pv.
    replace (depth <? OnePly) with false by (symmetry; apply Z.ltb_ge; lia).
    rewrite Hpro, Hnone, move_loop_nil. reflexivity.
  - intros beta depth ply allowNullmove excludedMove [[tte ttMove] mt] Hd Hpro.
    rewrite search_deep by assumption.
    rewrite Hpro, Hnone, move_loop_nil. reflexivity.
  - intros alpha beta depth ply bestValue0 alpha0 Hpro.
    unfold qsearch. rewrite Hpro, Hnone, move_loop_nil. simpl.
    now destruct (is_check env).
Qed.

End NoLegalMove.

(** A mated side to move at ply 3, at a PV node and at a zero-window
    node. *)
Lemma no_legal_move_value_witness :
  Search.search_pv (P := Search.sample_params)
    (Search.example_env true 0 false (fun _ => 0)) (-50) 50 4 3 = -29997 /\
  Search.search (P := Search.sample_params)
    (Search.example_env true 0 false (fun _ => 0)) 50 4 3 true 0 = -29997.
Proof.
  destruct (no_legal_move_value (P := Search.sample_params)
              (Search.example_env true 0 false (fun _ => 0))
              (fun _ => eq_refl)) as (_ & Hpv & Hs & _).
  split.
  - rewrite Hpv; by_computation.
  - rewrite (Hs 50 4 3 true 0 (None, 0, false)); by_computation.
Defined.

(** C3 as the claim words it fails: a stalemated side to move (no legal
    move, not in check) that is far behind, searched at depth 4 with
    [beta = -2500]: the static null-move pruning returns -2336, not
    [VALUE_DRAW]. *)
Lemma no_legal_move_value_counterexample :
  (forall ttMove : Z,
     Search.picker (Search.example_env false (-2000) false (fun _ => 0)) ttMove
       = []) /\
  Search.is_check (Search.example_env false (-2000) false (fun _ => 0))
    = false /\
  Search.search (P := Search.sample_params)
    (Search.example_env false (-2000) false (fun _ => 0)) (-2500) 4 3 true 0
    = -2336 /\
  -2336 <> @Search.VALUE_DRAW.
Proof. repeat split; by_computation. Qed.

(** ** The null-move search *)

Section NullMove.

Import Search.
Context `{P : Params}.





End NullMove.



(** ** The node limit (search.cpp, [think] and [poll]) *)

Section NodeLimit.

Import Search.

Lemma poll_info_AbortSearch (g : Globals) (t : Z) :
  AbortSearch (poll_info g t) = AbortSearch g.
Proof.
  unfold poll_info.
  repeat match goal with
         | |- context [if ?c then _ else _] => destruct c
         end; reflexivity.
Qed.

(** [poll_info] touches [lastInfoTime] and [printCurrentLine] only. *)
Lemma poll_info_limits (g : Globals) (t : Z) :
  Iteration (poll_info g t) = Iteration g
  /\ MaxNodes (poll_info g t) = MaxNodes g
  /\ ExactMaxTime (poll_info g t) = ExactMaxTime g
  /\ UseTimeManagement (poll_info g t) = UseTimeManagement g
  /\ PonderSearch (poll_info g t) = PonderSearch g
  /\ noMoreTime (poll_info g t) t = noMoreTime g t.
Proof.
  unfold poll_info.
  repeat match goal with
         | |- context [if ?c then _ else _] => destruct c
         end; repeat split; reflexivity.
Qed.

Lemma poll_stop_AbortSearch (g : Globals) (t nodes_searched : Z) :
  PonderSearch g = false ->
  AbortSearch (poll_stop g t nodes_searched) =
    AbortSearch g || time_stop g t || node_stop g nodes_searched.
Proof.
  intros Hp. unfold poll_stop. rewrite Hp.
  fold (time_stop g t). fold (node_stop g nodes_searched).
  rewrite <- orb_assoc.
  destruct (time_stop g t || node_stop g nodes_searched); simpl.
  - now rewrite orb_true_r.
  - now rewrite orb_false_r.
Qed.

Lemma poll_no_input (g : Globals) (t t' nodes_searched : Z) :
  PonderSearch g = false ->
  AbortSearch (poll g t t' NoInput nodes_searched) =
    AbortSearch g || time_stop g t || node_stop g nodes_searched.
Proof.
  intros Hp. unfold poll.
  destruct (poll_info_limits g t) as (Hi & Hn & He & Hu & Hpo & Ht).
  rewrite poll_stop_AbortSearch by congruence.
  rewrite poll_info_AbortSearch.
  unfold time_stop, node_stop. now rewrite Hi, Hn, He, Hu, Ht.
Qed.

(** C7, as the code has it: a node limit of 0 is no node limit. [think]
    stores the limit of the [go] command in [MaxNodes]; with
    [MaxNodes = 0] the node-count test of [poll] is false whatever the
    number of nodes searched, and [poll] stops the search on the time
    conditions only; with a positive [MaxNodes] it stops the search once
    the third iteration is reached and the count has reached the
    limit. *)
Theorem poll_node_limit (g : Search.Globals) (t t' nodes_searched : Z) :
  Search.PonderSearch g = false ->
  (forall (g0 : Search.Globals) (infinite ponder : bool)
          (maxDepth maxNodes maxTime : Z),
     Search.MaxNodes
       (Search.think_init g0 infinite ponder maxDepth maxNodes maxTime)
       = maxNodes)
  /\ (Search.MaxNodes g = 0 ->
      Search.AbortSearch (Search.poll g t t' Search.NoInput nodes_searched) =
        Search.AbortSearch g
        || ((3 <=? Search.Iteration g) && Search.UseTimeManagement g
            && Search.noMoreTime g t)
        || (negb (Search.ExactMaxTime g =? 0)
            && (Search.ExactMaxTime g <=? t)))
  /\ (0 < Search.MaxNodes g ->
      3 <= Search.Iteration g ->
      Search.MaxNodes g <= nodes_searched ->
      Search.AbortSearch (Search.poll g t t' Search.NoInput nodes_searched)
        = true)
  /\ (0 < Search.MaxNodes g ->
      nodes_searched < Search.MaxNodes g \/ Search.Iteration g < 3 ->
      Search.AbortSearch (Search.poll g t t' Search.NoInput nodes_searched) =
        Search.AbortSearch g
        || ((3 <=? Search.Iteration g) && Search.UseTimeManagement g
            && Search.noMoreTime g t)
        || (negb (Search.ExactMaxTime g =? 0)
            && (Search.ExactMaxTime g <=? t))).
Proof.
  intros Hp. split; [reflexivity |].
  pose proof (poll_no_input g t t' nodes_searched Hp) as Hpoll.
  unfold time_stop, node_stop in Hpoll.
  rewrite orb_assoc in Hpoll.
  split; [| split].
  - intros H0. rewrite Hpoll, H0.
    change (negb (0 =? 0)) with false.
    rewrite andb_false_r. simpl. apply orb_false_r.
  - intros Hpos Hit Hn. rewrite Hpoll.
    rewrite (proj2 (Z.leb_le _ _) Hit), (proj2 (Z.leb_le _ _) Hn).
    replace (MaxNodes g =? 0) with false by (symmetry; apply Z.eqb_neq; lia).
    simpl. apply orb_true_r.
  - intros Hpos Hcase. rewrite Hpoll.
    replace ((3 <=? Iteration g) && negb (MaxNodes g =? 0)
             && (MaxNodes g <=? nodes_searched)) with false;
      [now rewrite orb_false_r |].
    symmetry. destruct Hcase as [Hn | Hit].
    + rewrite (proj2 (Z.leb_gt _ _) Hn). apply andb_false_r.
    + now rewrite (proj2 (Z.leb_gt _ _) Hit).
Qed.

End NodeLimit.

(** A search limited to 1000 nodes is stopped by the poll that sees
    1000 nodes in iteration 3. *)
Lemma poll_node_limit_witness :
  Search.PonderSearch
    (Search.set_Iteration 3
       (Search.think_init Search.idle_globals false false 0 1000 0)) = false /\
  Search.AbortSearch
    (Search.poll
       (Search.set_Iteration 3
          (Search.think_init Search.idle_globals false false 0 1000 0))
       10 10 Search.NoInput 1000) = true.
Proof.
  assert (Hp : Search.PonderSearch
                 (Search.set_Iteration 3
                    (Search.think_init Search.idle_globals false false
                       0 1000 0)) = false) by reflexivity.
  split; [exact Hp |].
  destruct (poll_node_limit _ 10 10 1000 Hp) as (_ & _ & Hstop & _).
  apply Hstop; by_computation.
Defined.

(** C7 as the claim words it fails: after [go depth 20 nodes 0] the
    poll of iteration 10, five seconds and a million nodes into the
    search, does not stop it. *)
Lemma poll_node_limit_counterexample :
  Search.MaxNodes (Search.think_init Search.idle_globals false false 20 0 0)
    = 0 /\
  Search.AbortSearch
    (Search.poll
       (Search.set_Iteration 10
          (Search.think_init Search.idle_globals false false 20 0 0))
       5000 5000 Search.NoInput 1000000) = false.
Proof. split; reflexivity. Qed.

(** ** The history table (history.cpp) *)

Section HistoryTable.

Import HistoryT.

Lemma piece_is_ok_range (p : Z) : Piece.piece_is_ok p = true -> 0 <= p < 16.
Proof.
  unfold Piece.piece_is_ok, Piece.color_is_ok, Piece.color_of_piece.
  rewrite !andb_true_iff, !Z.leb_le, Z.shiftr_div_pow2 by lia.
  change (2 ^ 3) with 8. intros (_ & Hlo & Hhi).
  pose proof (Z.div_mod p 8 ltac:(lia)).
  pose proof (Z.mod_pos_bound p 8 ltac:(lia)). lia.
Qed.

Lemma square_is_ok_range (s : Z) : Piece.square_is_ok s = true -> 0 <= s < 64.
Proof.
  unfold Piece.square_is_ok. rewrite andb_true_iff, !Z.leb_le. lia.
Qed.

Lemma cell_bound (p to : Z) :
  0 <= p < 16 -> 0 <= to < 64 -> (cell p to < 1024)%nat.
Proof. intros Hp Hto. unfold cell. lia. Qed.

Lemma cell_inj (p to p' to' : Z) :
  0 <= p < 16 -> 0 <= to < 64 -> 0 <= p' < 16 -> 0 <= to' < 64 ->
  cell p to = cell p' to' -> p = p' /\ to = to'.
Proof. unfold cell. lia. Qed.

Lemma get_set_same (t : list Z) (p to v : Z) :
  (cell p to < length t)%nat -> get (set t p to v) p to = v.
Proof.
  intros H. unfold get, set. now rewrite list_lookup_insert_eq.
Qed.

Lemma get_set_other (t : list Z) (p to p' to' v : Z) :
  cell p to <> cell p' to' -> get (set t p to v) p' to' = get t p' to'.
Proof.
  intros H. unfold get, set. now rewrite list_lookup_insert_ne.
Qed.

Lemma get_map_quot (t : list Z) (p to : Z) :
  get (map (fun x => Z.quot x 4) t) p to = Z.quot (get t p to) 4.
Proof.
  unfold get. change (map (fun x => Z.quot x 4) t) with ((fun x => Z.quot x 4) <$> t).
  rewrite list_lookup_fmap. now destruct (t !! cell p to).
Qed.

(** C5, as the code has it: [success] adds [d * d] to the history
    counter of (p, to) and counts the success; when the counter has
    then reached [HistoryMax] every history counter is divided by 4
    (toward zero). [failure] leaves the history counters alone: it
    counts the failure of (p, to) in a table of its own. *)
Theorem history_update (HistoryMax : Z) (h : HistoryT.History) (p to d : Z) :
  HistoryT.wf h ->
  Piece.piece_is_ok p = true ->
  Piece.square_is_ok to = true ->
  HistoryT.get (HistoryT.successCount (HistoryT.success HistoryMax h p to d))
               p to
    = HistoryT.get (HistoryT.successCount h) p to + 1
  /\ (HistoryT.get (HistoryT.history h) p to + d * d < HistoryMax ->
      HistoryT.get (HistoryT.history (HistoryT.success HistoryMax h p to d))
                   p to
        = HistoryT.get (HistoryT.history h) p to + d * d
      /\ forall p' to' : Z,
           0 <= p' < 16 -> 0 <= to' < 64 -> (p', to') <> (p, to) ->
           HistoryT.get
             (HistoryT.history (HistoryT.success HistoryMax h p to d)) p' to'
             = HistoryT.get (HistoryT.history h) p' to')
  /\ (HistoryMax <= HistoryT.get (HistoryT.history h) p to + d * d ->
      HistoryT.get (HistoryT.history (HistoryT.success HistoryMax h p to d))
                   p to
        = Z.quot (HistoryT.get (HistoryT.history h) p to + d * d) 4
      /\ forall p' to' : Z,
           0 <= p' < 16 -> 0 <= to' < 64 -> (p', to') <> (p, to) ->
           HistoryT.get
             (HistoryT.history (HistoryT.success HistoryMax h p to d)) p' to'
             = Z.quot (HistoryT.get (HistoryT.history h) p' to') 4)
  /\ HistoryT.history (HistoryT.failure h p to) = HistoryT.history h
  /\ HistoryT.successCount (HistoryT.failure h p to) = HistoryT.successCount h
  /\ HistoryT.get (HistoryT.failureCount (HistoryT.failure h p to)) p to
       = HistoryT.get (HistoryT.failureCount h) p to + 1.
Proof.
  intros (Hh & Hs & Hf) Hp Hto.
  apply piece_is_ok_range in Hp. apply square_is_ok_range in Hto.
  pose proof (cell_bound p to Hp Hto) as Hcell.
  assert (Hother : forall p' to', 0 <= p' < 16 -> 0 <= to' < 64 ->
            (p', to') <> (p, to) -> cell p to <> cell p' to').
  { intros p' to' Hp' Hto' Hne Heq.
    destruct (cell_inj p to p' to' Hp Hto Hp' Hto' Heq). congruence. }
  split; [simpl; apply get_set_same; lia |].
  split; [| split].
  - intros Hlt. unfold success. cbv zeta. simpl.
    rewrite get_set_same by lia.
    rewrite (proj2 (Z.leb_gt _ _) Hlt).
    split; [apply get_set_same; lia |].
    intros p' to' Hp' Hto' Hne. apply get_set_other. now apply Hother.
  - intros Hge. unfold success. cbv zeta. simpl.
    rewrite get_set_same by lia.
    rewrite (proj2 (Z.leb_le _ _) Hge).
    split.
    + rewrite get_map_quot. now rewrite get_set_same by lia.
    + intros p' to' Hp' Hto' Hne. rewrite get_map_quot.
      f_equal. apply get_set_other. now apply Hother.
  - simpl. repeat split. apply get_set_same. lia.
Qed.

End HistoryTable.

(** A white pawn move to e4 that cuts off at depth 200, under a bound
    of 50000: the counter goes from 0 to 40000. *)
Lemma history_update_witness :
  HistoryT.wf HistoryT.clear /\
  HistoryT.get
    (HistoryT.history (HistoryT.success 50000 HistoryT.clear 1 28 200)) 1 28
    = 40000.
Proof.
  assert (Hwf : HistoryT.wf HistoryT.clear) by (repeat split; reflexivity).
  split; [exact Hwf |].
  destruct (history_update 50000 HistoryT.clear 1 28 200 Hwf eq_refl eq_refl)
    as (_ & Hlow & _).
  destruct Hlow as (Hsame & _); [by_computation |].
  rewrite Hsame. reflexivity.
Defined.

(** C5 as the claim words it fails: [failure] does not decrement the
    history counter of its move (it stays at 40000), and at the bound
    the counters are divided by 4, not halved (50000 becomes 12500). *)
Lemma history_update_counterexample :
  HistoryT.get
    (HistoryT.history
       (HistoryT.failure (HistoryT.success 50000 HistoryT.clear 1 28 200)
                         1 28)) 1 28
  = HistoryT.get
      (HistoryT.history (HistoryT.success 50000 HistoryT.clear 1 28 200)) 1 28
  /\ HistoryT.get
       (HistoryT.history
          (HistoryT.success 50000
             (HistoryT.success 50000 HistoryT.clear 1 28 200) 1 28 100)) 1 28
     = 12500
  /\ 12500 <> Z.quot (40000 + 100 * 100) 2.
Proof. repeat split; by_computation. Qed.

(** ** Unknown commands and options (uci.cpp, ucioption.cpp) *)

Section UnknownInput.

Import UCI.
Context {Position : Type} `{H : Handlers Position}.

Lemma eqb_not_in (token c : string) (l : list string) :
  ~ In token l -> In c l -> String.eqb token c = false.
Proof.
  intros Hnot Hin. apply String.eqb_neq. intros ->. now apply Hnot.
Qed.

Lemma execute_unknown (cmd : string) (st : Engine Position) :
  ~ In (fst (first_token cmd)) commands ->
  execute_uci_command Position cmd st =
    (true, say Position (String.append "Unknown command: " cmd) st).
Proof.
  intros Hnot. unfold execute_uci_command.
  destruct (first_token cmd) as [token up]. simpl in Hnot.
  rewrite !(eqb_not_in token _ commands Hnot) by (simpl; tauto).
  reflexivity.
Qed.

(** C9: a command whose first token is not a recognized command is
    answered by the line [Unknown command: ] followed by the command,
    and setting an option that is not registered by the line
    [No such option: ] followed by its name; the root position and the
    option registry are left as they were. *)
Theorem unknown_input_reported (st : UCI.Engine Position) :
  (forall cmd : string,
     ~ In (fst (UCI.first_token cmd)) UCI.commands ->
     UCI.execute_uci_command Position cmd st =
       (true,
        UCI.mkEngine Position (UCI.pos Position st) (UCI.options Position st)
          (UCI.output Position st
             ++ [String.append "Unknown command: " cmd])))
  /\ (forall optionName newValue : string,
        UCI.options Position st !! optionName = None ->
        UCI.set_option_value Position optionName newValue st =
          UCI.mkEngine Position (UCI.pos Position st)
            (UCI.options Position st)
            (UCI.output Position st
               ++ [String.append "No such option: " optionName]))
  /\ (forall up : string,
        UCI.options Position st !! fst (UCI.parse_setoption up) = None ->
        UCI.set_option Position up st =
          UCI.mkEngine Position (UCI.pos Position st)
            (UCI.options Position st)
            (UCI.output Position st
               ++ [String.append "No such option: "
                     (fst (UCI.parse_setoption up))])).
Proof.
  split; [| split].
  - intros cmd Hnot. now rewrite execute_unknown.
  - intros optionName newValue Hnone. unfold set_option_value.
    now rewrite Hnone.
  - intros up Hnone. unfold set_option.
    destruct (parse_setoption up) as [name value]. simpl in *.
    now rewrite Hnone.
Qed.

End UnknownInput.

(** The command [stop] is not one [execute_uci_command] knows, and
    [Hsah] is not a registered option. *)
Lemma unknown_input_reported_witness :
  UCI.execute_uci_command unit (H := UCI.example_handlers)
    "  stop now" UCI.example_engine
  = (true,
     UCI.mkEngine unit tt (UCI.options unit UCI.example_engine)
       ["Unknown command:   stop now"%string]) /\
  UCI.set_option unit (H := UCI.example_handlers)
    " name Hsah value 64" UCI.example_engine
  = UCI.mkEngine unit tt (UCI.options unit UCI.example_engine)
      ["No such option: Hsah"%string].
Proof.
  destruct (unknown_input_reported (H := UCI.example_handlers)
              UCI.example_engine) as (Hcmd & _ & Hopt).
  split.
  - rewrite Hcmd; [reflexivity |].
    vm_compute. intuition discriminate.
  - rewrite Hopt; [reflexivity |]. reflexivity.
Defined.

(** ** The search for magic numbers (bitboard.cpp) *)

Section MagicSearch.

Import Bitboard.
Context `{PF : Platform}.

(** *** Counting bits and shifting *)

Lemma count_in_range (squares : list Z) (b : Z) :
  0 <= count_in squares b <= Z.of_nat (length squares).
Proof.
  induction squares as [| s rest IH]; cbn [count_in length]; [lia |].
  destruct (Z.testbit b s); lia.
Qed.

Lemma count_1s_range (b : Z) : 0 <= count_1s b <= 64.
Proof.
  unfold count_1s. pose proof (count_in_range (seqZ 0 64) b) as H.
  rewrite length_seqZ in H. lia.
Qed.

Lemma shiftr_top (W k x : Z) :
  0 <= k <= W -> 0 <= x < 2 ^ W -> 0 <= Z.shiftr x (W - k) < 2 ^ k.
Proof.
  intros Hk Hx. rewrite Z.shiftr_div_pow2 by lia.
  assert (Hpos : 0 < 2 ^ (W - k)) by (apply Z.pow_pos_nonneg; lia).
  split; [apply Z.div_pos; lia |].
  apply Z.div_lt_upper_bound; [lia |].
  rewrite <- Z.pow_add_r by lia.
  replace (W - k + k) with W by lia. lia.
Qed.

Lemma wrap64_range (x : Z) : 0 <= wrap64 x < 2 ^ 64.
Proof. unfold wrap64. apply Z.mod_pos_bound. lia. Qed.

Lemma wrap32_range (x : Z) : 0 <= wrap32 x < 2 ^ 32.
Proof. unfold wrap32. apply Z.mod_pos_bound. lia. Qed.

Lemma wrap32_le (x : Z) : 0 <= x -> wrap32 x <= x.
Proof. intros Hx. unfold wrap32. apply Z.mod_le; lia. Qed.

Lemma square_maxKey_pow (s : Z) (deltas : list Z) :
  square_maxKey s deltas = 2 ^ count_1s (square_mask s deltas).
Proof.
  unfold square_maxKey. pose proof (count_1s_range (square_mask s deltas)).
  rewrite Z.shiftl_mul_pow2 by lia. lia.
Qed.

(** The index stays within the [maxKey] cells of the square. *)
Lemma magic_index_range (s : Z) (deltas : list Z) (occupancy mg : Z) :
  count_1s (square_mask s deltas) <= 32 ->
  0 <= magic_index occupancy mg (square_shift s deltas)
    < square_maxKey s deltas.
Proof.
  intros H32. rewrite square_maxKey_pow.
  pose proof (count_1s_range (square_mask s deltas)) as Hn.
  unfold magic_index, square_shift. destruct CpuIs64Bit.
  - pose proof (shiftr_top 64 (count_1s (square_mask s deltas))
                  (wrap64 (occupancy * mg)) ltac:(lia)
                  (wrap64_range _)) as Hs.
    pose proof (wrap32_range
                  (Z.shiftr (wrap64 (occupancy * mg))
                            (64 - count_1s (square_mask s deltas)))).
    pose proof (wrap32_le
                  (Z.shiftr (wrap64 (occupancy * mg))
                            (64 - count_1s (square_mask s deltas)))
                  ltac:(lia)).
    lia.
  - apply shiftr_top; [lia | apply wrap32_range].
Qed.

(** In the 64-bit build the cast to [unsigned] changes nothing. *)
Lemma magic_index_64 (s : Z) (deltas : list Z) (occupancy mg : Z) :
  CpuIs64Bit = true ->
  count_1s (square_mask s deltas) <= 32 ->
  magic_index occupancy mg (square_shift s deltas) =
    Z.shiftr (wrap64 (occupancy * mg))
             (64 - count_1s (square_mask s deltas)).
Proof.
  intros H64 H32. unfold magic_index, square_shift. rewrite H64.
  pose proof (count_1s_range (square_mask s deltas)) as Hn.
  pose proof (shiftr_top 64 (count_1s (square_mask s deltas))
                (wrap64 (occupancy * mg)) ltac:(lia) (wrap64_range _)) as Hs.
  unfold wrap32 at 1. apply Z.mod_small.
  assert (2 ^ count_1s (square_mask s deltas) <= 2 ^ 32)
    by (apply Z.pow_le_mono_r; lia).
  lia.
Qed.

(** *** The table *)

Lemma read_write_same (tbl : list Z) (offset i v : Z) :
  (Z.to_nat (offset + i) < length tbl)%nat ->
  read (write tbl offset i v) offset i = v.
Proof.
  intros H. unfold read, write. now rewrite list_lookup_insert_eq.
Qed.

Lemma lookup_write_other (tbl : list Z) (offset i v : Z) (j : nat) :
  j <> Z.to_nat (offset + i) -> write tbl offset i v !! j = tbl !! j.
Proof.
  intros H. unfold write. now rewrite list_lookup_insert_ne by congruence.
Qed.

Lemma length_write (tbl : list Z) (offset i v : Z) :
  length (write tbl offset i v) = length tbl.
Proof. apply length_insert. Qed.

Lemma length_clear_range (tbl : list Z) (offset n : Z) :
  0 <= offset -> 0 <= n -> offset + n <= Z.of_nat (length tbl) ->
  length (clear_range tbl offset n) = length tbl.
Proof.
  intros Ho Hn Hlen. unfold clear_range.
  rewrite !length_app, length_take, length_replicate, length_drop. lia.
Qed.

Lemma lookup_clear_range_other (tbl : list Z) (offset n : Z) (j : nat) :
  0 <= offset -> 0 <= n -> offset + n <= Z.of_nat (length tbl) ->
  (j < Z.to_nat offset \/ Z.to_nat (offset + n) <= j)%nat ->
  clear_range tbl offset n !! j = tbl !! j.
Proof.
  intros Ho Hn Hlen Hj. unfold clear_range.
  destruct Hj as [Hlt | Hge].
  - rewrite lookup_app_l by (rewrite length_take; lia).
    now rewrite lookup_take_lt by lia.
  - rewrite lookup_app_r by (rewrite length_take; lia).
    rewrite lookup_app_r by (rewrite length_take, length_replicate; lia).
    rewrite length_take, length_replicate, lookup_drop.
    f_equal. lia.
Qed.

Lemma read_clear_range (tbl : list Z) (offset n i : Z) :
  0 <= offset -> 0 <= i < n -> offset + n <= Z.of_nat (length tbl) ->
  read (clear_range tbl offset n) offset i = 0.
Proof.
  intros Ho Hi Hlen. unfold read, clear_range.
  rewrite lookup_app_r by (rewrite length_take; lia).
  rewrite length_take.
  rewrite lookup_app_l by (rewrite length_replicate; lia).
  rewrite lookup_replicate_2 by lia. reflexivity.
Qed.

(** *** The loop over the keys *)

(** Whatever its outcome, the loop keeps the length of the table and
    every cell that is not the slot of one of its keys. *)
Lemma fill_loop_frame (proofs : list (Z * Z)) (mg sh offset : Z)
    (tbl : list Z) :
  length (fst (fill_loop proofs mg sh offset tbl)) = length tbl
  /\ forall j : nat,
       (forall p, In p proofs ->
                  j <> Z.to_nat (offset + magic_index (fst p) mg sh)) ->
       fst (fill_loop proofs mg sh offset tbl) !! j = tbl !! j.
Proof.
  revert tbl. induction proofs as [| [occ pr] rest IH]; intros tbl; simpl.
  - split; reflexivity.
  - destruct (read tbl offset (magic_index occ mg sh) =? 0).
    + destruct (IH (write tbl offset (magic_index occ mg sh) pr))
        as [Hlen Hframe].
      split; [now rewrite Hlen, length_write |].
      intros j Hj. rewrite Hframe by (intros p Hp; apply Hj; now right).
      apply lookup_write_other. apply (Hj (occ, pr)). now left.
    + destruct (negb (read tbl offset (magic_index occ mg sh) =? pr)).
      * split; reflexivity.
      * destruct (IH tbl) as [Hlen Hframe]. split; [exact Hlen |].
        intros j Hj. apply Hframe. intros p Hp. apply Hj. now right.
Qed.

(** A cell that is not zero is never written. *)
Lemma fill_loop_keeps (proofs : list (Z * Z)) (mg sh offset : Z)
    (tbl : list Z) (j : nat) :
  default 0 (tbl !! j) <> 0 ->
  fst (fill_loop proofs mg sh offset tbl) !! j = tbl !! j.
Proof.
  revert tbl. induction proofs as [| [occ pr] rest IH]; intros tbl Hj; simpl.
  - reflexivity.
  - destruct (Z.eqb_spec (read tbl offset (magic_index occ mg sh)) 0)
      as [Hzero | Hnz].
    + assert (Hne : j <> Z.to_nat (offset + magic_index occ mg sh)).
      { intros ->. now apply Hj. }
      rewrite IH; [now apply lookup_write_other |].
      now rewrite lookup_write_other.
    + destruct (negb (read tbl offset (magic_index occ mg sh) =? pr)).
      * reflexivity.
      * now apply IH.
Qed.

(** When the loop runs to its end, the slot of every key holds the
    attack set of that key, provided no attack set is empty. *)
Lemma fill_loop_done (proofs : list (Z * Z)) (mg sh offset : Z)
    (tbl tbl' : list Z) :
  fill_loop proofs mg sh offset tbl = (tbl', true) ->
  (forall p, In p proofs -> snd p <> 0) ->
  (forall p, In p proofs ->
     (Z.to_nat (offset + magic_index (fst p) mg sh) < length tbl)%nat) ->
  forall p, In p proofs ->
    read tbl' offset (magic_index (fst p) mg sh) = snd p.
Proof.
  revert tbl. induction proofs as [| [occ pr] rest IH];
    intros tbl Hfill Hnz Hin p Hp; [destruct Hp |].
  simpl in Hfill.
  assert (Hpr : pr <> 0) by (apply (Hnz (occ, pr)); now left).
  assert (Hslot : (Z.to_nat (offset + magic_index occ mg sh) < length tbl)%nat)
    by (apply (Hin (occ, pr)); now left).
  destruct (Z.eqb_spec (read tbl offset (magic_index occ mg sh)) 0)
    as [Hzero | Hcur].
  - destruct Hp as [<- | Hp].
    + simpl. unfold read.
      replace tbl' with
        (fst (fill_loop rest mg sh offset
                (write tbl offset (magic_index occ mg sh) pr)))
        by now rewrite Hfill.
      rewrite fill_loop_keeps.
      * now apply read_write_same.
      * fold (read (write tbl offset (magic_index occ mg sh) pr) offset
                   (magic_index occ mg sh)).
        now rewrite read_write_same.
    + apply (IH _ Hfill); trivial.
      * intros q Hq. apply Hnz. now right.
      * intros q Hq. rewrite length_write. apply Hin. now right.
  - destruct (Z.eqb_spec (read tbl offset (magic_index occ mg sh)) pr)
      as [Heq | Hne]; simpl in Hfill; [| discriminate].
    destruct Hp as [<- | Hp].
    + simpl. unfold read.
      replace tbl' with (fst (fill_loop rest mg sh offset tbl))
        by now rewrite Hfill.
      rewrite fill_loop_keeps; [exact Heq |].
      fold (read tbl offset (magic_index occ mg sh)). congruence.
    + apply (IH _ Hfill); trivial.
      * intros q Hq. apply Hnz. now right.
      * intros q Hq. apply Hin. now right.
Qed.

(** *** No attack set is empty *)

Lemma set_bit_spec (b s t : Z) :
  0 <= s -> Z.testbit (set_bit b s) t = Z.testbit b t || (s =? t).
Proof.
  intros Hs. unfold set_bit.
  rewrite Z.lor_spec, Z.shiftl_1_l, Z.pow2_bits_eqb by lia. reflexivity.
Qed.

Lemma square_is_ok_range64 (s : Z) : square_is_ok s = true -> 0 <= s < 64.
Proof. unfold square_is_ok. rewrite andb_true_iff, !Z.leb_le. lia. Qed.

(** A ray only adds squares. *)
Lemma ray_mono (fuel : nat) (s d occ ex att t : Z) :
  Z.testbit att t = true -> Z.testbit (ray fuel s d occ ex att) t = true.
Proof.
  revert s att. induction fuel as [| f IH]; intros s att Hatt; cbn [ray];
    [exact Hatt |].
  destruct (square_is_ok s) eqn:Hok; cbn [andb]; [| exact Hatt].
  destruct ((square_distance s (s - d) =? 1) && negb (bit_is_set ex s));
    [| exact Hatt].
  apply square_is_ok_range64 in Hok.
  assert (Hset : Z.testbit (set_bit att s) t = true)
    by (rewrite set_bit_spec by lia; now rewrite Hatt).
  destruct (bit_is_set occ s); [exact Hset | now apply IH].
Qed.

(** With nothing excluded, a first step that stays on the board puts
    its square in the ray. *)
Lemma ray_first (fuel : nat) (sq d occ att : Z) :
  first_step_ok sq d = true ->
  Z.testbit (ray (S fuel) (sq + d) d occ EmptyBoardBB att) (sq + d) = true.
Proof.
  unfold first_step_ok. rewrite andb_true_iff. intros [Hok Hdist]. cbn [ray].
  replace (sq + d - d) with sq by lia. rewrite Hok, Hdist.
  unfold bit_is_set at 1. unfold EmptyBoardBB. rewrite Z.bits_0.
  cbn [andb negb].
  apply square_is_ok_range64 in Hok.
  assert (Hset : Z.testbit (set_bit att (sq + d)) (sq + d) = true)
    by (rewrite set_bit_spec by lia; rewrite Z.eqb_refl; apply orb_true_r).
  destruct (bit_is_set occ (sq + d)); [exact Hset | now apply ray_mono].
Qed.

Lemma fold_ray_mono (l : list Z) (sq occ ex att t : Z) :
  Z.testbit att t = true ->
  Z.testbit (fold_left (fun a d => ray 64 (sq + d) d occ ex a) l att) t
    = true.
Proof.
  revert att. induction l as [| d l IH]; intros att Hatt; cbn [fold_left];
    [exact Hatt |].
  apply IH. now apply ray_mono.
Qed.

Lemma fold_ray_hit (l : list Z) (sq occ att : Z) :
  existsb (first_step_ok sq) l = true ->
  exists t,
    Z.testbit (fold_left (fun a d => ray 64 (sq + d) d occ EmptyBoardBB a)
                         l att) t = true.
Proof.
  revert att. induction l as [| d l IH]; intros att Hex;
    cbn [fold_left existsb] in *; [discriminate |].
  destruct (first_step_ok sq d) eqn:Hd; cbn [orb] in Hex.
  - exists (sq + d). apply fold_ray_mono.
    change 64%nat with (S 63). now apply ray_first.
  - now apply IH.
Qed.

Lemma sliding_attacks_nonzero (sq occ : Z) (deltas : list Z) :
  has_step sq deltas = true ->
  sliding_attacks sq occ deltas EmptyBoardBB <> 0.
Proof.
  intros Hstep. unfold sliding_attacks.
  destruct (fold_ray_hit (firstn 4 deltas) sq occ 0 Hstep) as [t Ht].
  intros Hzero. rewrite Hzero, Z.bits_0 in Ht. discriminate.
Qed.

(** On each of the 64 squares a rook and a bishop have a first step,
    and their masks have at most 12 squares. *)
Lemma squares_checked (deltas : list Z) (s : Z) :
  deltas = RDeltas \/ deltas = BDeltas ->
  0 <= s < 64 ->
  has_step s deltas = true /\ count_1s (square_mask s deltas) <= 12.
Proof.
  intros Hd Hs.
  assert (Hall : forallb (fun s => has_step s deltas
                                   && (count_1s (square_mask s deltas) <=? 12))
                         (seqZ 0 64) = true)
    by (destruct Hd as [-> | ->]; vm_compute; reflexivity).
  rewrite forallb_forall in Hall.
  specialize (Hall s). rewrite andb_true_iff, Z.leb_le in Hall.
  apply Hall. apply list_elem_of_In, elem_of_seqZ. lia.
Qed.

(** *** The two loops *)

Lemma pick_loop_ok (fuel : nat) (msk lsb : Z) (rk rk' : RK) (mg : Z) :
  pick_loop fuel msk lsb rk = Some (mg, rk') -> magic_ok msk lsb mg = true.
Proof.
  revert rk. induction fuel as [| f IH]; intros rk; cbn [pick_loop];
    [discriminate |].
  destruct (draw_magic rk) as [c rk1].
  destruct (magic_ok msk lsb c) eqn:Hok.
  - now intros [= <- <-].
  - apply IH.
Qed.

Lemma square_maxKey_pos (s : Z) (deltas : list Z) :
  0 < square_maxKey s deltas.
Proof.
  rewrite square_maxKey_pow. apply Z.pow_pos_nonneg; [lia |].
  apply count_1s_range.
Qed.

Lemma square_proofs_in (s : Z) (deltas : list Z) (p : Z * Z) :
  In p (square_proofs s deltas) <->
  exists key, 0 <= key < square_maxKey s deltas
              /\ p = (submask (square_mask s deltas) key,
                      sliding_attacks s (submask (square_mask s deltas) key)
                                      deltas EmptyBoardBB).
Proof.
  unfold square_proofs. rewrite in_map_iff. split.
  - intros (key & <- & Hin).
    apply list_elem_of_In, elem_of_seqZ in Hin. exists key. split; [lia |].
    reflexivity.
  - intros (key & Hkey & ->). exists key. split; [reflexivity |].
    apply list_elem_of_In, elem_of_seqZ. lia.
Qed.

(** One round keeps the length of the table and what lies outside the
    cells of the square. *)
Lemma try_magic_frame (s : Z) (deltas : list Z) (offset mg : Z)
    (tbl : list Z) :
  count_1s (square_mask s deltas) <= 32 ->
  in_range s deltas offset tbl ->
  length (fst (try_magic s deltas offset mg tbl)) = length tbl
  /\ forall j : nat,
       (j < Z.to_nat offset
        \/ Z.to_nat (offset + square_maxKey s deltas) <= j)%nat ->
       fst (try_magic s deltas offset mg tbl) !! j = tbl !! j.
Proof.
  intros H32 [Ho Hlen]. unfold try_magic.
  pose proof (square_maxKey_pos s deltas) as Hpos.
  destruct (fill_loop_frame (square_proofs s deltas) mg
              (square_shift s deltas) offset
              (clear_range tbl offset (square_maxKey s deltas)))
    as [Hl Hframe].
  split; [rewrite Hl; apply length_clear_range; lia |].
  intros j Hj. rewrite Hframe.
  - apply lookup_clear_range_other; lia.
  - intros p _.
    pose proof (magic_index_range s deltas (fst p) mg H32). lia.
Qed.

(** What [find_magic] returns passed the test of [pick_magic] and made
    the loop over the keys run to its end, on a table that differs from
    the given one within the cells of the square only. *)
Lemma find_magic_result (fuel inner : nat) (s : Z) (deltas : list Z)
    (offset : Z) (rk rk' : RK) (tbl tbl' : list Z) (mg : Z) :
  count_1s (square_mask s deltas) <= 32 ->
  in_range s deltas offset tbl ->
  find_magic fuel inner s deltas offset rk tbl = Some (mg, tbl', rk') ->
  exists tbl0,
    in_range s deltas offset tbl0
    /\ magic_ok (square_mask s deltas) (pick_lsb (square_mask s deltas)) mg
       = true
    /\ try_magic s deltas offset mg tbl0 = (tbl', true)
    /\ forall j : nat,
         (j < Z.to_nat offset
          \/ Z.to_nat (offset + square_maxKey s deltas) <= j)%nat ->
         tbl0 !! j = tbl !! j.
Proof.
  intros H32. revert rk tbl.
  induction fuel as [| f IH]; intros rk tbl Hin; cbn [find_magic];
    [discriminate |].
  destruct (pick_magic inner (square_mask s deltas) rk (square_booster s))
    as [[c rk1] |] eqn:Hpick; [| discriminate].
  destruct (try_magic s deltas offset c tbl) as [tbl1 done] eqn:Htry.
  destruct (try_magic_frame s deltas offset c tbl H32 Hin) as [Hl Hframe].
  rewrite Htry in Hl, Hframe. cbn [fst] in Hl, Hframe.
  destruct done.
  - intros [= <- <- <-]. exists tbl. split; [exact Hin |].
    split; [eapply pick_loop_ok; exact Hpick |].
    split; [exact Htry | reflexivity].
  - intros Hfind.
    assert (Hin1 : in_range s deltas offset tbl1)
      by (destruct Hin; split; [| rewrite Hl]; assumption).
    destruct (IH rk1 tbl1 Hin1 Hfind) as (tbl0 & Hin0 & Hok & Ht & Hf).
    exists tbl0. split; [exact Hin0 |]. split; [exact Hok |].
    split; [exact Ht |].
    intros j Hj. rewrite Hf by assumption. now apply Hframe.
Qed.

(** The slot of every key holds the attack set of its occupancy. *)
Lemma try_magic_keys (s : Z) (deltas : list Z) (offset mg : Z)
    (tbl tbl' : list Z) (key : Z) :
  has_step s deltas = true ->
  count_1s (square_mask s deltas) <= 32 ->
  in_range s deltas offset tbl ->
  try_magic s deltas offset mg tbl = (tbl', true) ->
  0 <= key < square_maxKey s deltas ->
  read tbl' offset
       (magic_index (submask (square_mask s deltas) key) mg
                    (square_shift s deltas))
  = sliding_attacks s (submask (square_mask s deltas) key) deltas
                    EmptyBoardBB.
Proof.
  intros Hstep H32 [Ho Hlen] Htry Hkey. unfold try_magic in Htry.
  pose proof (square_maxKey_pos s deltas) as Hpos.
  assert (Hall : forall p, In p (square_proofs s deltas) ->
            read tbl' offset (magic_index (fst p) mg (square_shift s deltas))
            = snd p).
  { apply (fill_loop_done (square_proofs s deltas) mg (square_shift s deltas)
             offset _ tbl' Htry).
    - intros q Hq. apply square_proofs_in in Hq.
      destruct Hq as (k & Hk & ->). cbn [snd].
      now apply sliding_attacks_nonzero.
    - intros q Hq. rewrite length_clear_range by lia.
      pose proof (magic_index_range s deltas (fst q) mg H32). lia. }
  assert (Hpair : forall occ pr, In (occ, pr) (square_proofs s deltas) ->
            read tbl' offset (magic_index occ mg (square_shift s deltas))
            = pr)
    by (intros occ pr Hin; exact (Hall (occ, pr) Hin)).
  apply Hpair. apply square_proofs_in. now exists key.
Qed.

(** *** Every subset of the mask is the occupancy of a key *)

Lemma bits_bound (k N : Z) :
  0 <= k -> 0 <= N -> (forall j, N <= j -> Z.testbit k j = false) ->
  k < 2 ^ N.
Proof.
  intros Hk HN Hbits.
  destruct (Z.eq_dec k 0) as [-> | Hnz]; [apply Z.pow_pos_nonneg; lia |].
  apply Z.log2_lt_pow2; [lia |].
  destruct (Z.lt_ge_cases (Z.log2 k) N) as [Hlt | Hge]; [exact Hlt |].
  specialize (Hbits (Z.log2 k) Hge).
  rewrite Z.bit_log2 in Hbits by lia. discriminate.
Qed.

Lemma bits_above (k N j : Z) :
  0 <= k < 2 ^ N -> N <= j -> Z.testbit k j = false.
Proof.
  intros [Hk Hlt] Hj.
  destruct (Z.eq_dec k 0) as [-> | Hnz]; [apply Z.bits_0 |].
  apply Z.bits_above_log2; [lia |].
  assert (Z.log2 k < N) by (apply Z.log2_lt_pow2; lia). lia.
Qed.

Lemma key_of_loop_nonneg (squares : list Z) (msk occ b : Z) :
  -1 <= b -> 0 <= key_of_loop squares msk occ b.
Proof.
  revert b. induction squares as [| s rest IH]; intros b Hb;
    cbn [key_of_loop]; [lia |].
  destruct (bit_is_set msk s); [| now apply IH].
  apply Z.lor_nonneg. split; [| apply IH; lia].
  destruct (bit_is_set occ s); [apply Z.pow_nonneg |]; lia.
Qed.

Lemma key_of_loop_low (squares : list Z) (msk occ b j : Z) :
  -1 <= b -> j <= b -> Z.testbit (key_of_loop squares msk occ b) j = false.
Proof.
  revert b. induction squares as [| s rest IH]; intros b Hb Hj;
    cbn [key_of_loop]; [apply Z.bits_0 |].
  destruct (bit_is_set msk s); [| now apply IH].
  rewrite Z.lor_spec, IH by lia.
  destruct (bit_is_set occ s); [| now rewrite Z.bits_0].
  rewrite Z.pow2_bits_eqb by lia.
  now rewrite (proj2 (Z.eqb_neq _ _)) by lia.
Qed.

Lemma key_of_loop_high (squares : list Z) (msk occ b j : Z) :
  -1 <= b -> b + 1 + count_in squares msk <= j ->
  Z.testbit (key_of_loop squares msk occ b) j = false.
Proof.
  revert b. induction squares as [| s rest IH]; intros b Hb Hj;
    cbn [key_of_loop count_in] in *; [apply Z.bits_0 |].
  pose proof (count_in_range rest msk) as Hc.
  unfold bit_is_set. destruct (Z.testbit msk s).
  - rewrite Z.lor_spec, IH by lia.
    destruct (Z.testbit occ s); [| now rewrite Z.bits_0].
    rewrite Z.pow2_bits_eqb by lia.
    now rewrite (proj2 (Z.eqb_neq _ _)) by lia.
  - apply IH; lia.
Qed.

(** [submask] on a key that agrees with the key of [occ] above [b]:
    the squares of the walk that are in the mask and in [occ] are
    added. *)
Lemma submask_loop_bits (squares : list Z) (msk occ key sub b t : Z) :
  -1 <= b ->
  (forall s, In s squares -> 0 <= s) ->
  (forall j, b < j ->
     Z.testbit key j = Z.testbit (key_of_loop squares msk occ b) j) ->
  Z.testbit (submask_loop squares msk key sub b) t =
    Z.testbit sub t
    || (existsb (Z.eqb t) squares && Z.testbit msk t && Z.testbit occ t).
Proof.
  revert sub b. induction squares as [| s rest IH]; intros sub b Hb Hpos Hkey;
    cbn [submask_loop existsb].
  - now rewrite orb_false_r.
  - assert (Hs : 0 <= s) by (apply Hpos; now left).
    assert (Hrest : forall u, In u rest -> 0 <= u)
      by (intros u Hu; apply Hpos; now right).
    cbn [key_of_loop] in Hkey. unfold bit_is_set in *.
    destruct (Z.testbit msk s) eqn:Hm.
    + assert (Hbit : Z.testbit key (b + 1) = Z.testbit occ s).
      { rewrite Hkey, Z.lor_spec, key_of_loop_low by lia.
        rewrite orb_false_r.
        destruct (Z.testbit occ s); [| apply Z.bits_0].
        rewrite Z.pow2_bits_eqb by lia. apply Z.eqb_refl. }
      rewrite IH; [| lia | exact Hrest |].
      * rewrite Hbit.
        destruct (Z.eqb_spec t s) as [-> | Hne].
        -- rewrite Hm. destruct (Z.testbit occ s) eqn:Ho; cbn [orb andb].
           ++ rewrite set_bit_spec, Z.eqb_refl by lia.
              now rewrite orb_true_r, !orb_true_l.
           ++ now rewrite andb_false_r.
        -- cbn [orb]. f_equal.
           destruct (Z.testbit occ s); [| reflexivity].
           rewrite set_bit_spec by lia.
           rewrite (proj2 (Z.eqb_neq s t)) by congruence.
           apply orb_false_r.
      * intros j Hj. rewrite Hkey, Z.lor_spec by lia.
        destruct (Z.testbit occ s); [| now rewrite Z.bits_0].
        rewrite Z.pow2_bits_eqb by lia.
        now rewrite (proj2 (Z.eqb_neq _ _)) by lia.
    + rewrite IH by assumption.
      destruct (Z.eqb_spec t s) as [-> | Hne]; [| reflexivity].
      rewrite Hm. cbn [orb andb]. now rewrite andb_false_r.
Qed.

Lemma submask_key_of (msk occ : Z) :
  0 <= occ < 2 ^ 64 -> Z.land occ msk = occ ->
  submask msk (key_of msk occ) = occ.
Proof.
  intros Hocc Hsub. apply Z.bits_inj'. intros t Ht.
  unfold submask, key_of.
  rewrite (submask_loop_bits (seqZ 0 64) msk occ) by
    (try lia; try reflexivity;
     intros u Hu; apply list_elem_of_In, elem_of_seqZ in Hu; lia).
  rewrite Z.bits_0. cbn [orb].
  destruct (Z.testbit occ t) eqn:Ho; [| apply andb_false_r].
  assert (Hm : Z.testbit msk t = true).
  { rewrite <- Hsub, Z.land_spec in Ho. now apply andb_true_iff in Ho. }
  assert (Hlt : t < 64).
  { destruct (Z.lt_ge_cases t 64) as [Hlt | Hge]; [exact Hlt |].
    rewrite (bits_above occ 64 t Hocc Hge) in Ho. discriminate. }
  rewrite Hm, !andb_true_r. apply existsb_exists. exists t.
  split; [| apply Z.eqb_refl].
  apply list_elem_of_In, elem_of_seqZ. lia.
Qed.

Lemma key_of_range (msk occ : Z) : 0 <= key_of msk occ < 2 ^ count_1s msk.
Proof.
  unfold key_of. split; [apply key_of_loop_nonneg; lia |].
  apply bits_bound.
  - apply key_of_loop_nonneg; lia.
  - apply count_1s_range.
  - intros j Hj. apply key_of_loop_high; [lia |]. unfold count_1s in Hj. lia.
Qed.

(** *** The loop over the keys ends exactly on a magic without collision *)

Lemma fill_loop_complete (done proofs : list (Z * Z)) (mg sh offset : Z)
    (tbl : list Z) :
  (forall p, In p proofs ->
     (Z.to_nat (offset + magic_index (fst p) mg sh) < length tbl)%nat) ->
  (forall p, In p proofs ->
     read tbl offset (magic_index (fst p) mg sh) <> 0 ->
     exists q, In q done
               /\ magic_index (fst q) mg sh = magic_index (fst p) mg sh
               /\ snd q = read tbl offset (magic_index (fst p) mg sh)) ->
  (forall p, In p proofs -> 0 <= offset + magic_index (fst p) mg sh) ->
  collision_free_on (done ++ proofs) mg sh ->
  snd (fill_loop proofs mg sh offset tbl) = true.
Proof.
  revert done tbl.
  induction proofs as [| [occ pr] rest IH]; intros done tbl Hin Hinv Hpos Hfree;
    cbn [fill_loop]; [reflexivity |].
  assert (Hrest : collision_free_on ((done ++ [(occ, pr)]) ++ rest) mg sh)
    by now rewrite <- app_assoc.
  assert (Hslot : (Z.to_nat (offset + magic_index occ mg sh) < length tbl)%nat)
    by (apply (Hin (occ, pr)); now left).
  assert (Hslot0 : 0 <= offset + magic_index occ mg sh)
    by (apply (Hpos (occ, pr)); now left).
  destruct (Z.eqb_spec (read tbl offset (magic_index occ mg sh)) 0)
    as [Hzero | Hcur].
  - apply (IH (done ++ [(occ, pr)])); trivial.
    + intros p Hp. rewrite length_write. apply Hin. now right.
    + intros p Hp Hnz.
      destruct (Z.eq_dec (magic_index (fst p) mg sh) (magic_index occ mg sh))
        as [Heq | Hne].
      * exists (occ, pr). split; [apply in_or_app; right; now left |].
        split; [now rewrite Heq |]. cbn [snd]. rewrite Heq.
        now rewrite read_write_same.
      * assert (Hsame : read (write tbl offset (magic_index occ mg sh) pr)
                             offset (magic_index (fst p) mg sh)
                        = read tbl offset (magic_index (fst p) mg sh)).
        { unfold read. rewrite lookup_write_other; [reflexivity |].
          specialize (Hpos p (or_intror Hp)). lia. }
        rewrite Hsame in Hnz |- *.
        destruct (Hinv p (or_intror Hp) Hnz) as (q & Hq & Hidx & Hval).
        exists q. split; [apply in_or_app; now left |]. now split.
    + intros p Hp. apply Hpos. now right.
  - destruct (Hinv (occ, pr) (or_introl eq_refl) Hcur) as (q & Hq & Hidx & Hval).
    assert (Hpr : snd q = pr).
    { apply (Hfree q (occ, pr)); trivial.
      - apply in_or_app; now left.
      - apply in_or_app; right; now left. }
    cbn [fst] in Hval. rewrite <- Hval, Hpr, Z.eqb_refl. cbn [negb].
    apply (IH (done ++ [(occ, pr)])); trivial.
    + intros p Hp. apply Hin. now right.
    + intros p Hp Hnz.
      destruct (Hinv p (or_intror Hp) Hnz) as (q' & Hq' & Hidx' & Hval').
      exists q'. split; [apply in_or_app; now left |]. now split.
    + intros p Hp. apply Hpos. now right.
Qed.

Lemma try_magic_done_iff (s : Z) (deltas : list Z) (offset mg : Z)
    (tbl : list Z) :
  has_step s deltas = true ->
  count_1s (square_mask s deltas) <= 32 ->
  in_range s deltas offset tbl ->
  snd (try_magic s deltas offset mg tbl) = true <-> collision_free s deltas mg.
Proof.
  intros Hstep H32 Hin. pose proof Hin as [Ho Hlen].
  pose proof (square_maxKey_pos s deltas) as Hpos.
  split.
  - intros Hdone.
    destruct (try_magic s deltas offset mg tbl) as [tbl' done] eqn:Htry.
    cbn [snd] in Hdone. subst done.
    intros [o1 p1] [o2 p2] Hp Hq Hidx. cbn [fst snd] in *.
    apply square_proofs_in in Hp. destruct Hp as (k1 & Hk1 & Hp).
    apply square_proofs_in in Hq. destruct Hq as (k2 & Hk2 & Hq).
    injection Hp as Ho1 Hp1. injection Hq as Ho2 Hp2.
    rewrite Hp1, Hp2, <- Ho1, <- Ho2.
    rewrite Ho1 at 1. rewrite Ho2 at 1.
    rewrite <- (try_magic_keys s deltas offset mg tbl tbl' k1) by assumption.
    rewrite <- (try_magic_keys s deltas offset mg tbl tbl' k2) by assumption.
    now rewrite <- Ho1, <- Ho2, Hidx.
  - intros Hfree. unfold try_magic.
    apply (fill_loop_complete []).
    + intros p _. rewrite length_clear_range by lia.
      pose proof (magic_index_range s deltas (fst p) mg H32). lia.
    + intros p _ Hnz. exfalso. apply Hnz.
      pose proof (magic_index_range s deltas (fst p) mg H32).
      apply read_clear_range; lia.
    + intros p _.
      pose proof (magic_index_range s deltas (fst p) mg H32). lia.
    + exact Hfree.
Qed.

(** *** Fuel *)

Lemma pick_loop_mono (f f' : nat) (msk lsb : Z) (rk : RK) (r : Z * RK) :
  (f <= f')%nat ->
  pick_loop f msk lsb rk = Some r -> pick_loop f' msk lsb rk = Some r.
Proof.
  revert f' rk. induction f as [| f IH]; intros f' rk Hle; cbn [pick_loop];
    [discriminate |].
  destruct f' as [| f']; [lia |]. cbn [pick_loop].
  destruct (draw_magic rk) as [c rk1].
  destruct (magic_ok msk lsb c); [trivial |].
  apply IH. lia.
Qed.

Lemma find_magic_mono (fuel fuel' inner inner' : nat) (s : Z)
    (deltas : list Z) (offset : Z) (rk : RK) (tbl : list Z)
    (r : Z * list Z * RK) :
  (fuel <= fuel')%nat -> (inner <= inner')%nat ->
  find_magic fuel inner s deltas offset rk tbl = Some r ->
  find_magic fuel' inner' s deltas offset rk tbl = Some r.
Proof.
  intros Hf Hi. revert fuel' Hf rk tbl.
  induction fuel as [| f IH]; intros fuel' Hf rk tbl; cbn [find_magic];
    [discriminate |].
  destruct fuel' as [| f']; [lia |]. cbn [find_magic].
  unfold pick_magic.
  destruct (pick_loop inner (square_mask s deltas)
              (pick_lsb (square_mask s deltas))
              (advance (square_booster s) rk)) as [[c rk1] |] eqn:Hpick;
    [| discriminate].
  rewrite (pick_loop_mono inner inner' _ _ _ _ Hi Hpick).
  destruct (try_magic s deltas offset c tbl) as [tbl1 done].
  destruct done; [trivial |]. apply IH. lia.
Qed.

(** *** The search returns what the generator yields *)

Lemma yields_find_magic (s : Z) (deltas : list Z) (offset : Z)
    (rk rk' : RK) (mg : Z) :
  has_step s deltas = true ->
  count_1s (square_mask s deltas) <= 32 ->
  yields s deltas rk mg rk' ->
  forall tbl, in_range s deltas offset tbl ->
  exists fuel inner tbl',
    find_magic fuel inner s deltas offset rk tbl = Some (mg, tbl', rk').
Proof.
  intros Hstep H32 Hy.
  induction Hy as [rk inner mg rk' Hpick Hfree
                  | rk inner mg0 rk0 mg rk' Hpick Hcoll Hy IH];
    intros tbl Hin.
  - exists 1%nat, inner, (fst (try_magic s deltas offset mg tbl)).
    cbn [find_magic]. rewrite Hpick.
    apply (try_magic_done_iff s deltas offset mg tbl Hstep H32 Hin) in Hfree.
    destruct (try_magic s deltas offset mg tbl) as [tbl1 done].
    cbn [snd fst] in *. now subst done.
  - destruct (try_magic s deltas offset mg0 tbl) as [tbl1 done] eqn:Htry.
    assert (Hdone : done = false).
    { destruct done; [| reflexivity]. exfalso. apply Hcoll.
      apply (try_magic_done_iff s deltas offset mg0 tbl Hstep H32 Hin).
      now rewrite Htry. }
    subst done.
    destruct (try_magic_frame s deltas offset mg0 tbl H32 Hin) as [Hl _].
    rewrite Htry in Hl. cbn [fst] in Hl.
    assert (Hin1 : in_range s deltas offset tbl1)
      by (destruct Hin; split; [| rewrite Hl]; assumption).
    destruct (IH tbl1 Hin1) as (fuel & inner1 & tbl' & Hfind).
    exists (S fuel), (Nat.max inner inner1), tbl'.
    cbn [find_magic]. unfold pick_magic in *.
    rewrite (pick_loop_mono inner (Nat.max inner inner1) _ _ _ _
               (Nat.le_max_l _ _) Hpick).
    rewrite Htry.
    apply (find_magic_mono fuel fuel inner1 (Nat.max inner inner1));
      [lia | apply Nat.le_max_r | exact Hfind].
Qed.

Lemma find_magic_yields (fuel inner : nat) (s : Z) (deltas : list Z)
    (offset : Z) (rk rk' : RK) (tbl tbl' : list Z) (mg : Z) :
  has_step s deltas = true ->
  count_1s (square_mask s deltas) <= 32 ->
  in_range s deltas offset tbl ->
  find_magic fuel inner s deltas offset rk tbl = Some (mg, tbl', rk') ->
  yields s deltas rk mg rk'.
Proof.
  intros Hstep H32. revert rk tbl.
  induction fuel as [| f IH]; intros rk tbl Hin; cbn [find_magic];
    [discriminate |].
  destruct (pick_magic inner (square_mask s deltas) rk (square_booster s))
    as [[c rk1] |] eqn:Hpick; [| discriminate].
  destruct (try_magic s deltas offset c tbl) as [tbl1 done] eqn:Htry.
  pose proof (try_magic_done_iff s deltas offset c tbl Hstep H32 Hin) as Hiff.
  destruct (try_magic_frame s deltas offset c tbl H32 Hin) as [Hl _].
  rewrite Htry in Hiff, Hl. cbn [snd fst] in Hiff, Hl.
  destruct done.
  - intros [= <- <- <-]. apply (yields_now s deltas rk inner c rk1 Hpick).
    now apply Hiff.
  - intros Hfind.
    apply (yields_later s deltas rk inner c rk1 mg rk' Hpick).
    + intros Hfree. apply Hiff in Hfree. discriminate.
    + apply (IH rk1 tbl1); [| exact Hfind].
      destruct Hin; split; [| rewrite Hl]; assumption.
Qed.

(** *** The table of a square *)

(** Whatever the word size: the magic the search returns passed the
    test of [pick_magic], and the slot of every subset of the mask holds
    its attack set. *)
Lemma magic_search_table (fuel inner : nat) (s : Z) (deltas : list Z)
    (offset : Z) (rk rk' : RK) (tbl tbl' : list Z) (mg : Z) :
  0 <= s < 64 ->
  deltas = RDeltas \/ deltas = BDeltas ->
  in_range s deltas offset tbl ->
  find_magic fuel inner s deltas offset rk tbl = Some (mg, tbl', rk') ->
  magic_ok (square_mask s deltas) (pick_lsb (square_mask s deltas)) mg = true
  /\ (forall occ, 0 <= occ < 2 ^ 64 ->
        Z.land occ (square_mask s deltas) = occ ->
        read tbl' offset (magic_index occ mg (square_shift s deltas))
        = sliding_attacks s occ deltas EmptyBoardBB)
  /\ length tbl' = length tbl
  /\ (forall j : nat,
        (j < Z.to_nat offset
         \/ Z.to_nat (offset + square_maxKey s deltas) <= j)%nat ->
        tbl' !! j = tbl !! j).
Proof.
  intros Hs Hd Hin Hfind.
  destruct (squares_checked deltas s Hd Hs) as [Hstep H12].
  assert (H32 : count_1s (square_mask s deltas) <= 32) by lia.
  destruct (find_magic_result fuel inner s deltas offset rk rk' tbl tbl' mg
              H32 Hin Hfind) as (tbl0 & Hin0 & Hok & Htry & Hframe0).
  destruct (try_magic_frame s deltas offset mg tbl0 H32 Hin0) as [Hl Hframe].
  rewrite Htry in Hl, Hframe. cbn [fst] in Hl, Hframe.
  split; [exact Hok |]. split; [| split].
  - intros occ Hocc Hsub.
    pose proof (key_of_range (square_mask s deltas) occ) as Hkey.
    rewrite <- square_maxKey_pow in Hkey.
    pose proof (try_magic_keys s deltas offset mg tbl0 tbl'
                  (key_of (square_mask s deltas) occ) Hstep H32 Hin0 Htry Hkey)
      as Hslot.
    now rewrite (submask_key_of (square_mask s deltas) occ Hocc Hsub) in Hslot.
  - rewrite Hl.
    assert (Hlen0 : forall j : nat, (j < length tbl0)%nat <-> (j < length tbl)%nat).
    { intros j. destruct Hin as [Ho Hlen], Hin0 as [_ Hlen0].
      pose proof (square_maxKey_pos s deltas).
      split; intros Hj.
      - destruct (Nat.lt_ge_cases j (Z.to_nat (offset + square_maxKey s deltas)))
          as [Hlow | Hhigh]; [lia |].
        apply lookup_lt_is_Some. rewrite <- Hframe0 by lia.
        now apply lookup_lt_is_Some.
      - destruct (Nat.lt_ge_cases j (Z.to_nat (offset + square_maxKey s deltas)))
          as [Hlow | Hhigh]; [lia |].
        apply lookup_lt_is_Some. rewrite Hframe0 by lia.
        now apply lookup_lt_is_Some. }
    destruct (Nat.lt_trichotomy (length tbl0) (length tbl)) as [H | [H | H]];
      [| exact H |].
    + apply Hlen0 in H. lia.
    + apply Hlen0 in H. lia.
  - intros j Hj. rewrite Hframe by assumption. now apply Hframe0.
Qed.

(** What a result of the search for the magic of a square is, for a
    square [s] of a rook or bishop table on a 64-bit build. The search
    returns the magic the generator yields (the first candidate that
    passes the test of [pick_magic] and is free of collisions); whether
    the generator yields one is not decided by bitboard.cpp (see
    [find_magic_dry_generator]). Any magic the search returns passed
    the acceptance test:
    the top byte of [mask * magic] has at least 6 bits set, and for
    every subset [occ] of the mask the slot [(occ * magic) >> shift] of
    the table of the square holds the sliding attack set from [s] under
    [occ], so that keys sharing an index have equal attack sets. *)
Theorem magic_search_spec (s : Z) (deltas : list Z) (offset : Z)
    (tbl : list Z) (rk : Bitboard.RK) :
  0 <= s < 64 ->
  deltas = Bitboard.RDeltas \/ deltas = Bitboard.BDeltas ->
  Bitboard.CpuIs64Bit = true ->
  Bitboard.in_range s deltas offset tbl ->
  (forall (mg : Z) (rk' : Bitboard.RK),
     Bitboard.yields s deltas rk mg rk' ->
     exists fuel inner tbl',
       Bitboard.find_magic fuel inner s deltas offset rk tbl
         = Some (mg, tbl', rk'))
  /\ (forall (fuel inner : nat) (mg : Z) (tbl' : list Z) (rk' : Bitboard.RK),
        Bitboard.find_magic fuel inner s deltas offset rk tbl
          = Some (mg, tbl', rk') ->
        Bitboard.yields s deltas rk mg rk'
        /\ (forall fuel' inner' : nat,
              (fuel <= fuel')%nat -> (inner <= inner')%nat ->
              Bitboard.find_magic fuel' inner' s deltas offset rk tbl
                = Some (mg, tbl', rk'))
        /\ 6 <= Bitboard.count_1s
                  (Z.shiftr
                     (Bitboard.wrap64 (Bitboard.square_mask s deltas * mg))
                     56)
        /\ (forall occ : Z,
              0 <= occ < 2 ^ 64 ->
              Z.land occ (Bitboard.square_mask s deltas) = occ ->
              Bitboard.read tbl' offset
                (Z.shiftr (Bitboard.wrap64 (occ * mg))
                          (Bitboard.square_shift s deltas))
              = Bitboard.sliding_attacks s occ deltas Bitboard.EmptyBoardBB)
        /\ Bitboard.collision_free s deltas mg).
Proof.
  intros Hs Hd H64 Hin.
  destruct (squares_checked deltas s Hd Hs) as [Hstep H12].
  assert (H32 : count_1s (square_mask s deltas) <= 32) by lia.
  split.
  - intros mg rk' Hy. now apply (yields_find_magic s deltas offset rk rk' mg).
  - intros fuel inner mg tbl' rk' Hfind.
    destruct (magic_search_table fuel inner s deltas offset rk rk' tbl tbl' mg
                Hs Hd Hin Hfind) as (Hok & Hslots & _ & _).
    pose proof (find_magic_yields fuel inner s deltas offset rk rk' tbl tbl' mg
                  Hstep H32 Hin Hfind) as Hy.
    split; [exact Hy |]. split; [| split; [| split]].
    + intros fuel' inner' Hf Hi.
      now apply (find_magic_mono fuel fuel' inner inner').
    + unfold magic_ok in Hok. apply andb_true_iff in Hok.
      destruct Hok as [Hbits _]. now apply Z.leb_le in Hbits.
    + intros occ Hocc Hsub. rewrite <- (Hslots occ Hocc Hsub).
      f_equal. rewrite (magic_index_64 s deltas occ mg H64 H32).
      unfold square_shift. now rewrite H64.
    + destruct (find_magic_result fuel inner s deltas offset rk rk' tbl tbl' mg
                  H32 Hin Hfind) as (tbl0 & Hin0 & _ & Htry & _).
      apply (try_magic_done_iff s deltas offset mg tbl0 Hstep H32 Hin0).
      now rewrite Htry.
Qed.

End MagicSearch.

(** The bishop table of a1 (six mask squares, 64 keys) with a generator
    that answers a magic of a1 at every call: the search returns it in
    its first round, and the slot of the occupancy {b2} holds the attack
    set {b2}. *)
Lemma magic_search_spec_witness :
  exists tbl' : list Z,
    Bitboard.find_magic (PF := Bitboard.const_platform 4701830649676366144)
      1 1 0 Bitboard.BDeltas 0 tt (replicate 64 0)
    = Some (4701830649676366144, tbl', tt)
    /\ Bitboard.read tbl' 0
         (Z.shiftr (Bitboard.wrap64 (0x200 * 4701830649676366144))
            (Bitboard.square_shift
               (PF := Bitboard.const_platform 4701830649676366144)
               0 Bitboard.BDeltas))
       = 0x200.
Proof.
  eexists. split; [vm_compute; reflexivity |].
  destruct (magic_search_spec
              (PF := Bitboard.const_platform 4701830649676366144)
              0 Bitboard.BDeltas 0 (replicate 64 0) tt
              ltac:(lia) (or_intror eq_refl) eq_refl
              ltac:(split; vm_compute; discriminate)) as [_ Hres].
  destruct (Hres 1%nat 1%nat 4701830649676366144 _ tt
              ltac:(vm_compute; reflexivity)) as (_ & _ & _ & Hslots & _).
  rewrite (Hslots 0x200 ltac:(lia) ltac:(vm_compute; reflexivity)).
  vm_compute. reflexivity.
Defined.

(** ** The tables of all squares (bitboard.cpp, [do_magics]) *)

Section MagicTables.

Import Bitboard.
Context `{PF : Platform}.

Lemma offset_upto_mono (k k' : nat) (deltas : list Z) :
  (k <= k')%nat -> offset_upto k deltas <= offset_upto k' deltas.
Proof.
  induction 1 as [| k' _ IH]; [lia |]. cbn [offset_upto].
  pose proof (square_maxKey_pos (Z.of_nat k') deltas). lia.
Qed.

Lemma offset_of_nonneg (s : Z) (deltas : list Z) : 0 <= offset_of s deltas.
Proof. apply (offset_upto_mono 0 (Z.to_nat s) deltas). lia. Qed.

Lemma offset_of_succ (a : Z) (deltas : list Z) :
  0 <= a ->
  offset_of (a + 1) deltas = offset_of a deltas + square_maxKey a deltas.
Proof.
  intros Ha. unfold offset_of.
  replace (Z.to_nat (a + 1)) with (S (Z.to_nat a)) by lia.
  cbn [offset_upto]. now rewrite Z2Nat.id by lia.
Qed.

Lemma offset_of_le (a b : Z) (deltas : list Z) :
  a <= b -> offset_of a deltas <= offset_of b deltas.
Proof. intros Hab. apply offset_upto_mono. lia. Qed.

Lemma offset_of_0 (deltas : list Z) : offset_of 0 deltas = 0.
Proof. reflexivity. Qed.

Lemma of_nat_64 : Z.of_nat 64 = 64.
Proof. reflexivity. Qed.

Lemma offset_of_64 (deltas : list Z) :
  offset_of 64 deltas = offset_upto 64 deltas.
Proof. unfold offset_of. f_equal. Qed.

(** The cells of a square lie before those of every later square. *)
Lemma square_in_range (deltas : list Z) (a : Z) (tbl : list Z) :
  0 <= a < 64 ->
  offset_upto 64 deltas <= Z.of_nat (length tbl) ->
  in_range a deltas (offset_of a deltas) tbl.
Proof.
  intros Ha Hlen. split; [apply offset_of_nonneg |].
  rewrite <- offset_of_succ by lia.
  pose proof (offset_of_le (a + 1) 64 deltas ltac:(lia)) as Hle.
  rewrite offset_of_64 in Hle. lia.
Qed.

(** A square that is done stays done when a later square gets its
    entries and its cells. *)
Lemma square_done_frame (deltas : list Z) (m : Magics) (a u mg : Z)
    (tbl : list Z) :
  deltas = RDeltas \/ deltas = BDeltas ->
  0 <= u < a -> a < 64 ->
  (forall j : nat,
     (j < Z.to_nat (offset_of a deltas)
      \/ Z.to_nat (offset_of a deltas + square_maxKey a deltas) <= j)%nat ->
     tbl !! j = attTabl m !! j) ->
  square_done deltas m u ->
  square_done deltas
    (mkMagics (<[Z.to_nat a := mg]> (magic m))
              (<[Z.to_nat a := offset_of a deltas]> (attack m))
              tbl
              (<[Z.to_nat a := square_mask a deltas]> (mask m))
              (<[Z.to_nat a := square_shift a deltas]> (shift m)))
    u.
Proof.
  intros Hd Hu Ha Hframe (mu & Hmg & Hat & Hmk & Hsh & Hok & Hslots).
  exists mu. cbn [magic attack mask shift attTabl].
  rewrite !list_lookup_insert_ne by lia.
  repeat (split; [assumption |]).
  intros occ Hocc Hsub. rewrite <- (Hslots occ Hocc Hsub).
  unfold read. f_equal. apply Hframe. left.
  destruct (squares_checked deltas u Hd ltac:(lia)) as [_ H12].
  pose proof (magic_index_range u deltas occ mu ltac:(lia)) as Hidx.
  pose proof (offset_of_succ u deltas ltac:(lia)) as Hsucc.
  pose proof (offset_of_le (u + 1) a deltas ltac:(lia)).
  pose proof (offset_of_nonneg u deltas). lia.
Qed.

Lemma do_magics_loop_spec (fuel inner : nat) (deltas : list Z) (n : nat) :
  deltas = RDeltas \/ deltas = BDeltas ->
  forall (a : Z) (m out : Magics) (rk rk' : RK),
    0 <= a -> a + Z.of_nat n <= 64 ->
    arrays_ok deltas m ->
    (forall u, 0 <= u < a -> square_done deltas m u) ->
    do_magics_loop (seqZ a (Z.of_nat n)) fuel inner deltas m rk
                   (offset_of a deltas) = Some (out, rk') ->
    arrays_ok deltas out
    /\ forall u, 0 <= u < a + Z.of_nat n -> square_done deltas out u.
Proof.
  intros Hd. induction n as [| n IH]; intros a m out rk rk' Ha Hn Hok Hdone.
  - cbn [do_magics_loop seqZ]. intros [= <- <-]. split; [exact Hok |].
    intros u Hu. apply Hdone. lia.
  - rewrite seqZ_cons by lia.
    replace (Z.pred (Z.of_nat (S n))) with (Z.of_nat n) by lia.
    replace (Z.succ a) with (a + 1) by lia.
    cbn [do_magics_loop].
    destruct (find_magic fuel inner a deltas (offset_of a deltas) rk
                         (attTabl m)) as [[[mg tbl] rk1] |] eqn:Hfind;
      [| discriminate].
    rewrite <- offset_of_succ by lia.
    destruct Hok as (Hl1 & Hl2 & Hl3 & Hl4 & Hlen).
    pose proof (square_in_range deltas a (attTabl m) ltac:(lia) Hlen) as Hin.
    destruct (magic_search_table fuel inner a deltas (offset_of a deltas)
                rk rk1 (attTabl m) tbl mg ltac:(lia) Hd Hin Hfind)
      as (Hmok & Hslots & Hlt & Hframe).
    intros Hloop.
    apply IH in Hloop; [| lia | lia | |].
    + destruct Hloop as [Hok' Hall]. split; [exact Hok' |].
      intros u Hu. apply Hall. lia.
    + unfold arrays_ok. cbn [magic attack mask shift attTabl].
      rewrite !length_insert, Hlt. auto.
    + intros u Hu. destruct (Z.eq_dec u a) as [-> | Hne].
      * exists mg. cbn [magic attack mask shift attTabl].
        rewrite !list_lookup_insert_eq by lia. auto 10.
      * apply square_done_frame; trivial; try lia.
        apply Hdone. lia.
Qed.

Lemma do_magics_unfold (fuel inner : nat) (deltas : list Z) (m : Magics) :
  do_magics fuel inner deltas m
  = do_magics_loop (seqZ 0 64) fuel inner deltas m rk_init 0.
Proof. unfold do_magics. reflexivity. Qed.

(** When [do_magics] returns, every square is done: [do_magics] walks
    the 64 squares from offset 0. *)
Lemma do_magics_tables (fuel inner : nat) (deltas : list Z) (m out : Magics)
    (rk' : RK) :
  deltas = RDeltas \/ deltas = BDeltas ->
  arrays_ok deltas m ->
  do_magics fuel inner deltas m = Some (out, rk') ->
  forall s, 0 <= s < 64 -> square_done deltas out s.
Proof.
  intros Hd Hok Hrun s Hs.
  rewrite do_magics_unfold in Hrun.
  pose proof (do_magics_loop_spec fuel inner deltas 64 Hd 0 m out rk_init rk')
    as Hloop.
  rewrite offset_of_0, of_nat_64 in Hloop.
  assert (H0 : 0 <= 0) by lia.
  assert (H64 : 0 + 64 <= 64) by lia.
  assert (Hnone : forall u, 0 <= u < 0 -> square_done deltas m u)
    by (intros u Hu; lia).
  destruct (Hloop H0 H64 Hok Hnone Hrun) as [_ Hall].
  apply Hall. lia.
Qed.

End MagicTables.

(** ** The fuel of [sliding_attacks] *)

Section RayFuel.

Import Bitboard.

Lemma square_distance_same (s : Z) : square_distance s s = 0.
Proof.
  unfold square_distance, file_distance, rank_distance.
  rewrite !Z.sub_diag. reflexivity.
Qed.

Lemma ray_rounds_0 (s d : Z) :
  ray_rounds s d = 0%nat -> square_is_ok s = false.
Proof.
  unfold ray_rounds, square_is_ok. intros H.
  destruct (0 <? d); apply andb_false_iff; rewrite !Z.leb_gt; lia.
Qed.

Lemma ray_rounds_step (s d : Z) :
  d <> 0 -> square_is_ok s = true ->
  (S (ray_rounds (s + d) d) <= ray_rounds s d)%nat.
Proof.
  unfold ray_rounds, square_is_ok. intros Hd Hs.
  apply andb_true_iff in Hs. rewrite !Z.leb_le in Hs.
  destruct (0 <? d) eqn:Hpos; [apply Z.ltb_lt in Hpos | apply Z.ltb_ge in Hpos];
    lia.
Qed.

Lemma ray_stable (d occ ex : Z) (f1 : nat) :
  forall (f2 : nat) (s att : Z),
    (ray_rounds s d <= f1)%nat -> (ray_rounds s d <= f2)%nat ->
    ray f1 s d occ ex att = ray f2 s d occ ex att.
Proof.
  destruct (Z.eq_dec d 0) as [-> | Hd].
  - intros f2 s att _ _.
    assert (H0 : forall f, ray f s 0 occ ex att = att).
    { intros [| f]; cbn [ray]; [reflexivity |].
      rewrite Z.sub_0_r, square_distance_same.
      now rewrite andb_false_r. }
    now rewrite !H0.
  - induction f1 as [| f1 IH]; intros f2 s att H1 H2.
    + cbn [ray]. destruct f2 as [| f2]; cbn [ray]; [reflexivity |].
      rewrite (ray_rounds_0 s d) by lia. reflexivity.
    + cbn [ray]. destruct f2 as [| f2]; cbn [ray].
      * rewrite (ray_rounds_0 s d) by lia. reflexivity.
      * destruct (square_is_ok s) eqn:Hs; [| reflexivity].
        destruct (_ && _); [| reflexivity].
        destruct (bit_is_set occ s); [reflexivity |].
        pose proof (ray_rounds_step s d Hd Hs).
        apply IH; lia.
Qed.

(** X22: the [while] loop of [sliding_attacks] ends within 64 rounds,
    whatever the square it starts from, the direction (0 included) and
    the occupancy: rounds beyond the 64th change nothing. *)
Theorem ray_fuel_enough (f : nat) (s d occ ex att : Z) :
  (64 <= f)%nat -> ray f s d occ ex att = ray 64 s d occ ex att.
Proof.
  intros Hf. destruct (square_is_ok s) eqn:Hs.
  - apply ray_stable; unfold ray_rounds; unfold square_is_ok in Hs;
      apply andb_true_iff in Hs; rewrite !Z.leb_le in Hs;
      destruct (0 <? d); lia.
  - destruct f as [| f]; [lia |].
    change 64%nat with (S 63). cbn [ray]. rewrite Hs. reflexivity.
Qed.

End RayFuel.

Lemma ray_fuel_enough_witness :
  Bitboard.ray 100 1 1 0 0 0 = 0xFE.
Proof.
  rewrite (ray_fuel_enough 100 1 1 0 0 0 ltac:(lia)).
  vm_compute. reflexivity.
Defined.

(** ** The generator and the end of the search *)

(** With a generator that never hands out a candidate passing the test
    of [pick_magic] (here: one that answers 0 at every call) the search
    for a square comes to no result, however many rounds it is given. *)
Lemma find_magic_dry_generator (fuel inner : nat) (s : Z) (deltas : list Z)
    (offset : Z) (tbl : list Z) :
  Bitboard.find_magic (PF := Bitboard.const_platform 0)
    fuel inner s deltas offset tt tbl = None.
Proof.
  assert (Hadv : forall n : nat,
            Bitboard.advance (PF := Bitboard.const_platform 0) n tt = tt).
  { induction n as [| n IH]; [reflexivity | exact IH]. }
  assert (Hpick : forall (n : nat) (msk lsb : Z),
            Bitboard.pick_loop (PF := Bitboard.const_platform 0) n msk lsb tt
            = None).
  { induction n as [| n IH]; intros msk lsb; [reflexivity |].
    cbn [Bitboard.pick_loop].
    change (Bitboard.draw_magic (PF := Bitboard.const_platform 0) tt)
      with (0, tt).
    unfold Bitboard.magic_ok. rewrite Z.mul_0_r.
    change (6 <=? Bitboard.BitCount8Bit (Z.shiftr (Bitboard.wrap64 0) 56))
      with false.
    cbn [andb]. apply IH. }
  destruct fuel as [| fuel]; [reflexivity |].
  cbn [Bitboard.find_magic]. unfold Bitboard.pick_magic.
  now rewrite Hadv, Hpick.
Qed.

(** [do_magics] on the arrays of the bishops, with a generator that
    answers, for each square in turn, a magic of the square: the run
    takes one round for each square, stores these magics, and every
    square is done. *)
Lemma do_magics_tables_witness :
  exists out : Bitboard.Magics,
    Bitboard.do_magics
      (PF := Bitboard.list_platform
               (Bitboard.words_for Bitboard.MagicBoosters64
                                   Bitboard.bishop_magics))
      1 1 Bitboard.BDeltas Bitboard.bishop_arrays
    = Some (out, [])
    /\ Bitboard.magic out = Bitboard.bishop_magics
    /\ forall s, 0 <= s < 64 ->
         Bitboard.square_done
           (PF := Bitboard.list_platform
                    (Bitboard.words_for Bitboard.MagicBoosters64
                                        Bitboard.bishop_magics))
           Bitboard.BDeltas out s.
Proof.
  assert (Hrun : exists out : Bitboard.Magics,
            Bitboard.do_magics
              (PF := Bitboard.list_platform
                       (Bitboard.words_for Bitboard.MagicBoosters64
                                           Bitboard.bishop_magics))
              1 1 Bitboard.BDeltas Bitboard.bishop_arrays
            = Some (out, [])
            /\ Bitboard.magic out = Bitboard.bishop_magics).
  { eexists. split; vm_compute; reflexivity. }
  destruct Hrun as (out & Hrun & Hmagic).
  exists out. split; [exact Hrun |]. split; [exact Hmagic |].
  apply (do_magics_tables
           (PF := Bitboard.list_platform
                    (Bitboard.words_for Bitboard.MagicBoosters64
                                        Bitboard.bishop_magics))
           1 1 Bitboard.BDeltas Bitboard.bishop_arrays out []
           (or_intror eq_refl)).
  - repeat split; by_computation.
  - exact Hrun.
Defined.

(** * Part III : further properties of the code *)

(** ** Checks over a range *)

Lemma check_range (f : Z -> bool) (a n x : Z) :
  forallb f (seqZ a n) = true -> a <= x < a + n -> f x = true.
Proof.
  intros Hall Hx. rewrite forallb_forall in Hall. apply Hall.
  apply list_elem_of_In, elem_of_seqZ. lia.
Qed.

(** ** Pieces (piece.h, piece.cpp) *)

Section Pieces.

Import Piece.

(** X1: a piece made of a colour and a piece type gives both back, and
    is a piece exactly when the type is one of pawn to king; every
    piece is made of its colour and its type, and the pieces are the
    codes 1 to 6 and 9 to 14. *)
Theorem piece_of_color_and_type_round_trip :
  (forall c pt : Z,
     color_is_ok c = true -> 0 <= pt < 8 ->
     type_of_piece (piece_of_color_and_type c pt) = pt
     /\ color_of_piece (piece_of_color_and_type c pt) = c
     /\ piece_is_ok (piece_of_color_and_type c pt) = piece_type_is_ok pt)
  /\ (forall p : Z,
        piece_is_ok p = true <-> (1 <= p <= 6 \/ 9 <= p <= 14))
  /\ (forall p : Z,
        piece_is_ok p = true ->
        piece_of_color_and_type (color_of_piece p) (type_of_piece p) = p).
Proof.
  split; [| split].
  - intros c pt Hc Hpt.
    assert (Hall : forallb (fun c =>
              forallb (fun pt =>
                (type_of_piece (piece_of_color_and_type c pt) =? pt)
                && (color_of_piece (piece_of_color_and_type c pt) =? c)
                && eqb (piece_is_ok (piece_of_color_and_type c pt))
                       (piece_type_is_ok pt))
                (seqZ 0 8)) (seqZ 0 2) = true) by (vm_compute; reflexivity).
    unfold color_is_ok in Hc. apply andb_true_iff in Hc.
    rewrite !Z.leb_le in Hc.
    pose proof (check_range _ 0 2 c Hall ltac:(lia)) as Hc'. cbv beta in Hc'.
    pose proof (check_range _ 0 8 pt Hc' ltac:(lia)) as H. cbv beta in H.
    rewrite !andb_true_iff, !Z.eqb_eq, eqb_true_iff in H. tauto.
  - intros p. split.
    + intros Hok. pose proof (piece_is_ok_range p Hok) as Hr.
      assert (Hall : forallb (fun p =>
                implb (piece_is_ok p)
                      (((1 <=? p) && (p <=? 6)) || ((9 <=? p) && (p <=? 14))))
                (seqZ 0 16) = true) by (vm_compute; reflexivity).
      pose proof (check_range _ 0 16 p Hall ltac:(lia)) as H. cbv beta in H.
      rewrite Hok in H. cbn [implb] in H.
      rewrite orb_true_iff, !andb_true_iff, !Z.leb_le in H. exact H.
    + intros Hp.
      assert (Hall : forallb piece_is_ok (seqZ 1 6 ++ seqZ 9 6) = true)
        by (vm_compute; reflexivity).
      rewrite forallb_forall in Hall. apply Hall.
      apply in_or_app.
      destruct Hp as [Hp | Hp]; [left | right];
        apply list_elem_of_In, elem_of_seqZ; lia.
  - intros p Hok. pose proof (piece_is_ok_range p Hok) as Hr.
    assert (Hall : forallb (fun p =>
              piece_of_color_and_type (color_of_piece p) (type_of_piece p)
              =? p) (seqZ 0 16) = true) by (vm_compute; reflexivity).
    pose proof (check_range _ 0 16 p Hall ltac:(lia)) as H. cbv beta in H.
    now apply Z.eqb_eq in H.
Qed.

(** X2: on a piece [piece_is_slider] agrees with
    [piece_type_is_slider] on its type, and it is not 0 exactly for
    bishops, rooks and queens. *)
Theorem piece_is_slider_spec (p : Z) :
  piece_is_ok p = true ->
  piece_is_slider p = piece_type_is_slider (type_of_piece p)
  /\ (piece_is_slider p <> 0 <-> 3 <= type_of_piece p <= 5).
Proof.
  intros Hok. pose proof (piece_is_ok_range p Hok) as Hr.
  assert (Hall : forallb (fun p =>
            implb (piece_is_ok p)
              ((piece_is_slider p =? piece_type_is_slider (type_of_piece p))
               && eqb (negb (piece_is_slider p =? 0))
                      ((3 <=? type_of_piece p) && (type_of_piece p <=? 5))))
            (seqZ 0 16) = true) by (vm_compute; reflexivity).
  pose proof (check_range _ 0 16 p Hall ltac:(lia)) as H. cbv beta in H.
  rewrite Hok in H. cbn [implb] in H.
  rewrite andb_true_iff, Z.eqb_eq, eqb_true_iff in H.
  destruct H as [Heq Hiff]. split; [exact Heq |].
  rewrite <- Z.eqb_neq, <- negb_true_iff, Hiff, andb_true_iff, !Z.leb_le.
  reflexivity.
Qed.

Lemma piece_is_slider_spec_witness :
  piece_is_slider 12 = 2 /\ type_of_piece 12 = 4.
Proof.
  destruct (piece_is_slider_spec 12 eq_refl) as [Heq _].
  split; [rewrite Heq |]; reflexivity.
Defined.

(** X3: the letter of a piece type, in either case, reads back as the
    piece type; a character of the 7-bit set reads as a piece type
    between 0 and 6, and as [NO_PIECE_TYPE] unless it is one of the six
    letters, in either case. The character 0 reads as 7: [strchr] finds
    the end of the string. *)
Theorem piece_type_char_round_trip :
  (forall (pt : Z) (upcase : bool),
     piece_type_is_ok pt = true ->
     piece_type_from_char (piece_type_to_char pt upcase) = pt)
  /\ (forall c : Z,
        1 <= c < 128 ->
        0 <= piece_type_from_char c <= 6
        /\ (piece_type_from_char c <> 0 <->
            In (tolower c) [112; 110; 98; 114; 113; 107]))
  /\ piece_type_from_char 0 = 7.
Proof.
  split; [| split].
  - intros pt upcase Hok. unfold piece_type_is_ok in Hok.
    apply andb_true_iff in Hok. rewrite !Z.leb_le in Hok.
    assert (Hall : forallb (fun pt =>
              forallb (fun up =>
                piece_type_from_char (piece_type_to_char pt up) =? pt)
                [true; false]) (seqZ 1 6) = true) by (vm_compute; reflexivity).
    pose proof (check_range _ 1 6 pt Hall ltac:(lia)) as H. cbv beta in H.
    rewrite forallb_forall in H. apply Z.eqb_eq, H.
    destruct upcase; cbn; auto.
  - intros c Hc.
    assert (Hall : forallb (fun c =>
              (0 <=? piece_type_from_char c)
              && (piece_type_from_char c <=? 6)
              && eqb (negb (piece_type_from_char c =? 0))
                     (existsb (Z.eqb (tolower c))
                              [112; 110; 98; 114; 113; 107]))
              (seqZ 1 127) = true) by (vm_compute; reflexivity).
    pose proof (check_range _ 1 127 c Hall ltac:(lia)) as H. cbv beta in H.
    rewrite !andb_true_iff, !Z.leb_le, eqb_true_iff in H.
    destruct H as [Hr Hiff]. split; [exact Hr |].
    rewrite <- Z.eqb_neq, <- negb_true_iff, Hiff, existsb_exists.
    split.
    + intros (x & Hin & Heq). apply Z.eqb_eq in Heq. now subst x.
    + intros Hin. exists (tolower c). split; [exact Hin | apply Z.eqb_refl].
  - reflexivity.
Qed.

End Pieces.

(** ** The static-value flag (tt.h) *)

Section StaticFlag.

Lemma tt_setStaticValue_bits (e : TT.TTEntry) (i : Z) :
  0 <= i ->
  Z.testbit (TT.data (TT.setStaticValue e)) i
  = Z.testbit (TT.data e) i || (i =? 17).
Proof.
  intros Hi. unfold TT.setStaticValue. cbn [TT.data].
  rewrite Z.lor_spec, Z.shiftl_spec by lia.
  f_equal. destruct (Z.eqb_spec i 17) as [-> | Hne]; [reflexivity |].
  destruct (Z.ltb_spec (i - 17) 0) as [Hlt | Hge].
  - now rewrite Z.testbit_neg_r by lia.
  - change 1 with (2 ^ 0). rewrite Z.pow2_bits_eqb by lia.
    apply Z.eqb_neq. lia.
Qed.

(** X4: [setStaticValue] raises the flag [staticValue] reads and leaves
    the move, the type, the generation, the key, the value and the
    depth of the entry as they were; the data stays a 32-bit word, and
    setting the flag twice is setting it once. *)
Theorem tt_setStaticValue_spec (e : TT.TTEntry) :
  TT.data_ok e ->
  TT.staticValue (TT.setStaticValue e) = true
  /\ TT.move (TT.setStaticValue e) = TT.move e
  /\ TT.type (TT.setStaticValue e) = TT.type e
  /\ TT.generation (TT.setStaticValue e) = TT.generation e
  /\ TT.key (TT.setStaticValue e) = TT.key e
  /\ TT.value (TT.setStaticValue e) = TT.value e
  /\ TT.depth (TT.setStaticValue e) = TT.depth e
  /\ TT.data_ok (TT.setStaticValue e)
  /\ TT.setStaticValue (TT.setStaticValue e) = TT.setStaticValue e.
Proof.
  intros [Hlo Hhi].
  assert (Hmove : TT.move (TT.setStaticValue e) = TT.move e).
  { apply Z.bits_inj'. intros i Hi.
    rewrite !tt_move_bits, tt_setStaticValue_bits by lia.
    destruct (Z.ltb_spec i 17) as [Hlt | Hge];
      [| now rewrite !andb_false_r].
    replace (i =? 17) with false by (symmetry; apply Z.eqb_neq; lia).
    now rewrite orb_false_r. }
  assert (Htype : TT.type (TT.setStaticValue e) = TT.type e).
  { apply Z.bits_inj'. intros i Hi.
    rewrite !tt_type_bits, tt_setStaticValue_bits by lia.
    replace (i + 20 =? 17) with false by (symmetry; apply Z.eqb_neq; lia).
    now rewrite orb_false_r. }
  assert (Hgen : TT.generation (TT.setStaticValue e) = TT.generation e).
  { apply Z.bits_inj'. intros i Hi.
    rewrite !tt_generation_bits, tt_setStaticValue_bits by lia.
    replace (i + 23 =? 17) with false by (symmetry; apply Z.eqb_neq; lia).
    now rewrite orb_false_r. }
  assert (Hflag : TT.staticValue (TT.setStaticValue e) = true).
  { unfold TT.staticValue. apply negb_true_iff, Z.eqb_neq. intros H0.
    assert (Hb : Z.testbit
                   (Z.land (Z.shiftr (TT.data (TT.setStaticValue e)) 17) 1) 0
                 = false) by (rewrite H0; apply Z.bits_0).
    rewrite Z.land_spec, Z.shiftr_spec, tt_setStaticValue_bits in Hb by lia.
    cbn in Hb. rewrite orb_true_r in Hb. discriminate. }
  assert (Hok : TT.data_ok (TT.setStaticValue e)).
  { unfold TT.data_ok, TT.setStaticValue. cbn [TT.data]. split.
    - apply Z.lor_nonneg. split; [exact Hlo | now vm_compute].
    - destruct (Z.eq_dec (TT.data e) 0) as [H0 | Hne].
      + rewrite H0. now vm_compute.
      + assert (Hl : Z.log2 (Z.lor (TT.data e) (Z.shiftl 1 17)) < 32).
        { rewrite Z.log2_lor by (try lia; now vm_compute).
          apply Z.max_lub_lt; [| now vm_compute].
          apply Z.log2_lt_pow2; lia. }
        apply Z.log2_lt_cancel.
        rewrite Z.log2_pow2 by lia. exact Hl. }
  repeat (split; [first [assumption | reflexivity] |]).
  unfold TT.setStaticValue. cbn [TT.key_ TT.data TT.value_ TT.depth_].
  f_equal. rewrite <- Z.lor_assoc. now rewrite Z.lor_diag.
Qed.

Lemma tt_setStaticValue_spec_witness :
  TT.staticValue (TT.mkTTEntry 0 0x80310000 0 0) = false /\
  TT.staticValue (TT.setStaticValue (TT.mkTTEntry 0 0x80310000 0 0)) = true /\
  TT.move (TT.setStaticValue (TT.mkTTEntry 0 0x80310000 0 0)) = 0x10000.
Proof.
  assert (Hok : TT.data_ok (TT.mkTTEntry 0 0x80310000 0 0))
    by (unfold TT.data_ok; simpl; lia).
  destruct (tt_setStaticValue_spec _ Hok) as (Hflag & Hmove & _).
  split; [reflexivity |]. split; [exact Hflag |].
  rewrite Hmove. reflexivity.
Defined.

End StaticFlag.

(** ** The history table: bounds and the empty table (history.cpp) *)

Section HistoryBounds.

Import HistoryT.

Lemma get_default (t : list Z) (p to : Z) :
  (length t <= cell p to)%nat -> get t p to = 0.
Proof.
  intros H. unfold get. now rewrite lookup_ge_None_2.
Qed.

(** X5: [success] keeps the history counters within their bound: when
    every counter is in [[0, HistoryMax)] and the square of the depth
    is at most [3 * HistoryMax], every counter is in [[0, HistoryMax)]
    afterwards. *)
Theorem history_success_bounded (HistoryMax : Z) (h : History)
    (p to d : Z) :
  wf h ->
  Piece.piece_is_ok p = true ->
  Piece.square_is_ok to = true ->
  d * d <= 3 * HistoryMax ->
  (forall p' to', 0 <= get (history h) p' to' < HistoryMax) ->
  forall p' to',
    0 <= get (history (success HistoryMax h p to d)) p' to' < HistoryMax.
Proof.
  intros (Hh & Hs & Hf) Hp Hto Hd Hall p' to'.
  apply piece_is_ok_range in Hp. apply square_is_ok_range in Hto.
  pose proof (cell_bound p to Hp Hto) as Hcell.
  pose proof (Hall p to) as Hpto. pose proof (Hall p' to') as Hp'to'.
  assert (Hnew : forall q t,
            get (set (history h) p to (get (history h) p to + d * d)) q t
            = if decide (cell q t = cell p to)
              then get (history h) p to + d * d
              else get (history h) q t).
  { intros q t. destruct (decide (cell q t = cell p to)) as [He | Hne].
    - unfold get, set. rewrite He. now rewrite list_lookup_insert_eq by lia.
    - unfold get, set. now rewrite list_lookup_insert_ne by congruence. }
  unfold success. cbv zeta. cbn [history].
  rewrite (Hnew p to). destruct (decide (cell p to = cell p to)); [| congruence].
  destruct (Z.leb_spec HistoryMax (get (history h) p to + d * d)) as [Hge | Hlt].
  - rewrite get_map_quot, Hnew.
    destruct (decide (cell p' to' = cell p to)).
    + rewrite Z.quot_div_nonneg by nia.
      split; [apply Z.div_pos; nia |].
      apply Z.div_lt_upper_bound; nia.
    + rewrite Z.quot_div_nonneg by lia.
      split; [apply Z.div_pos; lia |].
      apply Z.div_lt_upper_bound; lia.
  - rewrite Hnew. destruct (decide (cell p' to' = cell p to)); [nia | lia].
Qed.

Lemma history_success_bounded_witness :
  0 <= get (history (success 50000 (success 50000 clear 1 28 200) 1 28 100))
           1 28 < 50000.
Proof.
  assert (Hwf : wf clear) by (repeat split; reflexivity).
  assert (Hzero : forall p' to', 0 <= get (history clear) p' to' < 50000).
  { intros p' to'. unfold get, clear. cbn [history].
    destruct (replicate 1024 0 !! cell p' to') as [x |] eqn:Hx; cbn.
    - apply lookup_replicate in Hx. lia.
    - lia. }
  assert (Hwf1 : wf (success 50000 clear 1 28 200))
    by (repeat split; reflexivity).
  apply (history_success_bounded 50000 (success 50000 clear 1 28 200) 1 28 100
           Hwf1 eq_refl eq_refl ltac:(lia)).
  apply (history_success_bounded 50000 clear 1 28 200
           Hwf eq_refl eq_refl ltac:(lia) Hzero).
Defined.

(** X6: in a cleared table every move has the ordering score 0 and no
    move is pruned, at any depth; a move whose failure is then recorded,
    with no success, is pruned at every depth. *)
Theorem history_clear_spec (p to d : Z) :
  Piece.piece_is_ok p = true ->
  Piece.square_is_ok to = true ->
  move_ordering_score clear p to = 0
  /\ ok_to_prune clear p to d = false
  /\ ok_to_prune (failure clear p to) p to d = true.
Proof.
  intros Hp Hto.
  apply piece_is_ok_range in Hp. apply square_is_ok_range in Hto.
  pose proof (cell_bound p to Hp Hto) as Hcell.
  assert (Hz : get (replicate 1024 0) p to = 0).
  { unfold get. now rewrite lookup_replicate_2 by lia. }
  unfold move_ordering_score, ok_to_prune, failure, clear.
  cbn [history successCount failureCount].
  rewrite get_set_same by (rewrite length_replicate; lia).
  rewrite Hz, Z.mul_0_r. repeat split.
Qed.

Lemma history_clear_spec_witness :
  ok_to_prune clear 1 28 6 = false
  /\ ok_to_prune (failure clear 1 28) 1 28 6 = true.
Proof.
  destruct (history_clear_spec 1 28 6 eq_refl eq_refl) as (_ & H1 & H2).
  split; assumption.
Defined.

End HistoryBounds.

(** ** Killers and extensions (search.cpp) *)

Section KillerMoves.

Import Search.

Lemma killer_among_lookup (ks : list Z) (m : Z) :
  killer_among ks m = true <-> exists i : nat, ks !! i = Some m.
Proof.
  induction ks as [| k ks IH]; cbn [killer_among].
  - split; [discriminate | intros [i Hi]; now rewrite lookup_nil in Hi].
  - destruct (Z.eqb_spec k m) as [-> | Hne].
    + split; [intros _; now exists 0%nat | reflexivity].
    + rewrite IH. split.
      * intros [i Hi]. now exists (S i).
      * intros [[| i] Hi]; cbn in Hi; [congruence | now exists i].
Qed.

(** X7: a move handed to [update_killers] is a killer afterwards, a
    killer that is not in the last slot stays one, and a move that is
    not a killer and is not the move handed over is not made one; after
    [initKillers] only [MOVE_NONE] is a killer. *)
Theorem move_is_killer_update (m : Z) (ss : SearchStack) :
  (1 <= length (killers ss))%nat ->
  move_is_killer m (update_killers m ss) = true
  /\ (forall (k : Z) (i : nat),
        (i + 1 < length (killers ss))%nat ->
        killers ss !! i = Some k ->
        move_is_killer k (update_killers m ss) = true)
  /\ (forall k : Z,
        k <> m -> move_is_killer k ss = false ->
        move_is_killer k (update_killers m ss) = false)
  /\ (forall none k : Z,
        move_is_killer k (initKillers none ss) = true <-> k = none).
Proof.
  intros Hlen. unfold move_is_killer. split; [| split; [| split]].
  - apply killer_among_lookup. exists 0%nat.
    now apply update_killers_first.
  - intros k i Hi Hk. apply killer_among_lookup.
    destruct (decide (killers ss !! 0%nat = Some m)) as [Heq | Hne].
    + rewrite update_killers_hit by assumption. now exists i.
    + exists (S i). rewrite update_killers_shifted by (assumption || lia).
      now replace (S i - 1)%nat with i by lia.
  - intros k Hkm Hnot. apply not_true_is_false. intros Hyes.
    apply killer_among_lookup in Hyes. destruct Hyes as [i Hi].
    assert (Hno : forall j, killers ss !! j <> Some k).
    { intros j Hj.
      assert (killer_among (killers ss) k = true)
        by (apply killer_among_lookup; now exists j).
      congruence. }
    destruct (decide (killers ss !! 0%nat = Some m)) as [Heq | Hne].
    + rewrite update_killers_hit in Hi by assumption. now apply (Hno i).
    + assert (Hi' : (i < length (killers ss))%nat).
      { rewrite <- (update_killers_length m ss).
        apply lookup_lt_is_Some. now exists k. }
      destruct i as [| i].
      * rewrite update_killers_first in Hi by assumption. congruence.
      * rewrite update_killers_shifted in Hi by (assumption || lia).
        now apply (Hno (S i - 1)%nat).
  - intros none k. unfold initKillers. cbn [killers].
    rewrite killer_among_lookup. split.
    + intros [i Hi]. apply lookup_replicate in Hi. now destruct Hi.
    + intros ->. exists 0%nat. apply lookup_replicate_2. lia.
Qed.

Lemma move_is_killer_update_witness :
  move_is_killer 7 (update_killers 7 (mkSearchStack 0 0 0 [3; 5] 0 0)) = true
  /\ move_is_killer 3 (update_killers 7 (mkSearchStack 0 0 0 [3; 5] 0 0))
     = true
  /\ move_is_killer 5 (update_killers 7 (mkSearchStack 0 0 0 [3; 5] 0 0))
     = false.
Proof.
  destruct (move_is_killer_update 7 (mkSearchStack 0 0 0 [3; 5] 0 0)
              ltac:(cbn; lia)) as (Hm & Hold & _).
  split; [exact Hm |]. split; [| reflexivity].
  apply (Hold 3 0%nat); [cbn; lia | reflexivity].
Defined.

End KillerMoves.

Section ExtensionDepth.

Import Search.

(** X8: [extension] never gives more than [OnePly]; it gives nothing
    and does not mark the move when none of its cases applies; whenever
    it gives more than nothing the move is marked dangerous, and a
    checking move, a single evasion and a move under a mate threat are
    always marked. *)
Theorem extension_spec (onePly : Z) (X : Extensions) (F : MoveFacts)
    (pvNode captureOrPromotion moveIsCheck singleEvasion mateThreat : bool) :
  0 <= onePly ->
  fst (extension onePly X F pvNode captureOrPromotion moveIsCheck
                 singleEvasion mateThreat) <= onePly
  /\ (0 < fst (extension onePly X F pvNode captureOrPromotion moveIsCheck
                         singleEvasion mateThreat) ->
      snd (extension onePly X F pvNode captureOrPromotion moveIsCheck
                     singleEvasion mateThreat) = true)
  /\ (moveIsCheck || singleEvasion || mateThreat = true ->
      snd (extension onePly X F pvNode captureOrPromotion moveIsCheck
                     singleEvasion mateThreat) = true)
  /\ (snd (extension onePly X F pvNode captureOrPromotion moveIsCheck
                     singleEvasion mateThreat) = false ->
      fst (extension onePly X F pvNode captureOrPromotion moveIsCheck
                     singleEvasion mateThreat) = 0).
Proof.
  intros H1. unfold extension.
  destruct (moveIsCheck || singleEvasion || mateThreat) eqn:Hd.
  - repeat match goal with
           | |- context [if ?c then _ else _] => destruct c
           end; cbn [fst snd];
      (split; [lia | repeat split; intros; congruence]).
  - apply orb_false_iff in Hd. destruct Hd as [Hd ->].
    apply orb_false_iff in Hd. destruct Hd as [-> ->].
    repeat match goal with
           | |- context [if ?c then _ else _] => destruct c
           end; cbn [fst snd];
      (split; [lia | repeat split; intros; first [congruence | lia]]).
Qed.

Lemma extension_spec_witness :
  extension 2 (mkExtensions (fun _ => 2) (fun _ => 2) (fun _ => 0)
                            (fun _ => 1) (fun _ => 1) (fun _ => 2))
    (mkMoveFacts true true false false false false false false)
    true false true false false = (2, true).
Proof.
  pose proof (extension_spec 2
                (mkExtensions (fun _ => 2) (fun _ => 2) (fun _ => 0)
                              (fun _ => 1) (fun _ => 1) (fun _ => 2))
                (mkMoveFacts true true false false false false false false)
                true false true false false ltac:(lia)) as (Hle & _ & Hd & _).
  apply injective_projections.
  - cbn [fst] in *. vm_compute. reflexivity.
  - cbn [snd]. apply Hd. reflexivity.
Defined.

End ExtensionDepth.

(** ** The order of the root moves (search.cpp, [RootMoveList]) *)

Section RootMoves.

Import Search.

Lemma RootMove_lt_spec (a b : RootMove) :
  RootMove_lt a b = true <->
  rm_score a < rm_score b
  \/ (rm_score a = rm_score b /\ rm_theirBeta a <= rm_theirBeta b).
Proof.
  unfold RootMove_lt.
  destruct (Z.eqb_spec (rm_score a) (rm_score b)) as [He | Hne]; cbn [negb].
  - rewrite Z.leb_le. lia.
  - rewrite Z.ltb_lt. lia.
Qed.

Lemma RootMove_lt_total (a b : RootMove) :
  RootMove_lt a b = false -> RootMove_lt b a = true.
Proof.
  intros H. apply RootMove_lt_spec.
  assert (Hn : ~ (rm_score a < rm_score b
                  \/ (rm_score a = rm_score b
                      /\ rm_theirBeta a <= rm_theirBeta b))).
  { rewrite <- RootMove_lt_spec. congruence. }
  lia.
Qed.

Lemma RootMove_lt_trans (a b c : RootMove) :
  RootMove_lt a b = true -> RootMove_lt b c = true -> RootMove_lt a c = true.
Proof. rewrite !RootMove_lt_spec. lia. Qed.

Lemma sort_insert_sorted (pre : list RootMove) :
  forall (x : RootMove) (post : list RootMove) (rm : RootMove),
    StronglySorted before pre ->
    exists l,
      sort_insert (pre ++ x :: post) rm (length pre) = l ++ post
      /\ l ≡ₚ rm :: pre
      /\ StronglySorted before l.
Proof.
  induction pre as [| prev pre' IH] using rev_ind; intros x post rm Hs.
  - exists [rm]. cbn. repeat split; [reflexivity | repeat constructor].
  - rewrite length_app. cbn [length]. rewrite Nat.add_1_r.
    cbn [sort_insert].
    rewrite <- app_assoc. cbn [app].
    rewrite list_lookup_middle by reflexivity.
    apply StronglySorted_app in Hs. destruct Hs as (Hcross & Hpre' & _).
    destruct (RootMove_lt prev rm) eqn:Hlt.
    + replace (<[S (length pre') := prev]> (pre' ++ prev :: x :: post))
        with (pre' ++ prev :: prev :: post).
      2:{ rewrite (insert_app_r_alt pre') by lia.
          now replace (S (length pre') - length pre')%nat with 1%nat by lia. }
      destruct (IH prev (prev :: post) rm Hpre') as (l' & Heq & Hperm & Hsl).
      exists (l' ++ [prev]). rewrite Heq, <- app_assoc. split; [reflexivity |].
      split.
      * rewrite Hperm. cbn. now rewrite Permutation_middle.
      * apply StronglySorted_app. split; [| split; [exact Hsl |]].
        -- intros a b Ha Hb. apply list_elem_of_singleton in Hb. subst b.
           rewrite Hperm in Ha. apply elem_of_cons in Ha.
           destruct Ha as [-> | Ha]; [exact Hlt |].
           apply Hcross; [exact Ha | now apply list_elem_of_singleton].
        -- repeat constructor.
    + exists ((pre' ++ [prev]) ++ [rm]). split.
      * rewrite (insert_app_r_alt pre') by lia.
        replace (S (length pre') - length pre')%nat with 1%nat by lia.
        cbn. now rewrite <- !app_assoc.
      * split; [symmetry; apply Permutation_cons_append |].
        apply StronglySorted_app. split; [| split].
        -- intros a b Ha Hb. apply list_elem_of_singleton in Hb. subst b.
           apply RootMove_lt_total in Hlt.
           apply elem_of_app in Ha. destruct Ha as [Ha | Ha].
           ++ unfold before.
              apply (RootMove_lt_trans rm prev a Hlt).
              apply Hcross; [exact Ha | now apply list_elem_of_singleton].
           ++ apply list_elem_of_singleton in Ha. now subst a.
        -- apply StronglySorted_app. split; [exact Hcross |].
           split; [exact Hpre' | repeat constructor].
        -- repeat constructor.
Qed.

(** What the rounds up to [k] make of the list. *)
Lemma sort_rounds (l0 : list RootMove) (k : nat) :
  (k < length l0)%nat ->
  exists l,
    fold_left sort_round (seq 1 k) l0 = l ++ drop (S k) l0
    /\ l ≡ₚ take (S k) l0
    /\ StronglySorted before l.
Proof.
  induction k as [| k IH]; intros Hk.
  - cbn [seq fold_left]. exists (take 1 l0).
    split; [now rewrite take_drop |]. split; [reflexivity |].
    destruct l0 as [| a l0]; cbn; repeat constructor.
  - destruct (IH ltac:(lia)) as (l & Heq & Hperm & Hs).
    rewrite seq_S, fold_left_app, Heq. cbn [fold_left Nat.add].
    destruct (lookup_lt_is_Some_2 l0 (S k) Hk) as [x Hx].
    assert (Hlen : length l = S k).
    { rewrite Hperm, length_take. lia. }
    rewrite (drop_S l0 x (S k) Hx). unfold sort_round.
    rewrite list_lookup_middle by (symmetry; exact Hlen).
    rewrite <- Hlen.
    destruct (sort_insert_sorted l x (drop (S (length l)) l0) x Hs)
      as (l' & Heq' & Hperm' & Hs').
    exists l'. rewrite Heq', Hlen. split; [reflexivity |].
    split; [| exact Hs'].
    rewrite Hperm', Hperm, (take_S_r l0 (S k) x Hx).
    now rewrite Permutation_cons_append.
Qed.

Lemma StronglySorted_lookup (l : list RootMove) (i j : nat) (a b : RootMove) :
  StronglySorted before l -> (i < j)%nat ->
  l !! i = Some a -> l !! j = Some b -> before a b.
Proof.
  intros Hs Hij Ha Hb.
  rewrite <- (take_drop j l) in Hs.
  apply StronglySorted_app in Hs. destruct Hs as (Hcross & _ & _).
  apply Hcross.
  - apply list_elem_of_lookup. exists i. now rewrite lookup_take_lt.
  - apply list_elem_of_lookup. exists 0%nat.
    rewrite lookup_drop. now rewrite Nat.add_0_r.
Qed.

(** X10: [sort_multipv(n)] permutes the first [n + 1] root moves and
    leaves the others in place; afterwards, of two of the first [n + 1]
    moves the later one is less than the earlier one in the sense of
    [RootMove::operator<]: scores do not increase, and among equal
    scores [theirBeta] does not increase. [sort()] does this for all
    [count] moves; on an empty list it does nothing. *)
Theorem sort_multipv_spec (moves : list RootMove) (n : Z) :
  n < Z.of_nat (length moves) ->
  sort_multipv moves n ≡ₚ moves
  /\ take (Z.to_nat (n + 1)) (sort_multipv moves n)
     ≡ₚ take (Z.to_nat (n + 1)) moves
  /\ drop (Z.to_nat (n + 1)) (sort_multipv moves n)
     = drop (Z.to_nat (n + 1)) moves
  /\ (forall (i j : nat) (a b : RootMove),
        (i < j)%nat -> Z.of_nat j <= n ->
        sort_multipv moves n !! i = Some a ->
        sort_multipv moves n !! j = Some b ->
        RootMove_lt b a = true
        /\ rm_score b <= rm_score a
        /\ (rm_score b = rm_score a -> rm_theirBeta b <= rm_theirBeta a))
  /\ sort moves 0 = moves.
Proof.
  intros Hn. unfold sort_multipv.
  destruct (Z.le_gt_cases 0 n) as [Hpos | Hneg].
  - destruct (sort_rounds moves (Z.to_nat n) ltac:(lia))
      as (l & Heq & Hperm & Hs).
    replace (Z.to_nat (n + 1)) with (S (Z.to_nat n)) by lia.
    assert (Hlen : length l = S (Z.to_nat n)).
    { rewrite Hperm, length_take. lia. }
    rewrite Heq. split; [| split; [| split; [| split]]].
    + rewrite Hperm. now rewrite take_drop.
    + now rewrite take_app_length' by (symmetry; exact Hlen).
    + now rewrite drop_app_length' by (symmetry; exact Hlen).
    + intros i j a b Hij Hj Ha Hb.
      rewrite lookup_app_l in Ha by lia.
      rewrite lookup_app_l in Hb by lia.
      pose proof (StronglySorted_lookup l i j a b Hs Hij Ha Hb) as Hlt.
      split; [exact Hlt |].
      unfold before in Hlt. apply RootMove_lt_spec in Hlt. lia.
    + reflexivity.
  - replace (Z.to_nat n) with 0%nat by lia.
    replace (Z.to_nat (n + 1)) with 0%nat by lia. cbn [seq fold_left].
    repeat split; try reflexivity; lia.
Qed.

Lemma sort_multipv_spec_witness :
  map rm_move
    (sort_multipv [mkRootMove 1 10 0 0 0 5 []; mkRootMove 2 30 0 0 0 1 [];
                   mkRootMove 3 10 0 0 0 9 []; mkRootMove 4 50 0 0 0 0 []] 2)
  = [2; 3; 1; 4]
  /\ RootMove_lt (mkRootMove 1 10 0 0 0 5 []) (mkRootMove 3 10 0 0 0 9 [])
     = true.
Proof.
  split; [reflexivity |].
  destruct (sort_multipv_spec
              [mkRootMove 1 10 0 0 0 5 []; mkRootMove 2 30 0 0 0 1 [];
               mkRootMove 3 10 0 0 0 9 []; mkRootMove 4 50 0 0 0 0 []] 2
              ltac:(cbn; lia)) as (_ & _ & _ & Hord & _).
  apply (Hord 1%nat 2%nat (mkRootMove 3 10 0 0 0 9 [])
              (mkRootMove 1 10 0 0 0 5 []));
    [lia | lia | reflexivity | reflexivity].
Defined.

End RootMoves.

(** ** The principal variation (search.cpp, [update_pv], [set_move_pv]) *)

Section PrincipalVariation.

Import Search.

Variable none : Z.

Lemma pv_line_stop (line post : list Z) :
  pv_line none (pv_line none line ++ none :: post) = pv_line none line.
Proof.
  induction line as [| m line IH]; cbn [pv_line app].
  - now rewrite Z.eqb_refl.
  - destruct (Z.eqb_spec m none) as [-> | Hne]; cbn [pv_line app].
    + now rewrite Z.eqb_refl.
    + rewrite (proj2 (Z.eqb_neq m none) Hne). now rewrite IH.
Qed.

(** The copy loop writes the line of the source and the [MOVE_NONE]
    that ends it over the cells from [p] on. *)
Lemma copy_pv_app (src : list Z) :
  forall pre mid post : list Z,
    In none src ->
    length mid = S (length (pv_line none src)) ->
    copy_pv none (pre ++ mid ++ post) src (length pre)
    = pre ++ pv_line none src ++ none :: post.
Proof.
  induction src as [| m rest IH]; intros pre mid post Hin Hlen;
    [destruct Hin |].
  cbn [copy_pv pv_line] in *.
  destruct (Z.eqb_spec m none) as [-> | Hne].
  - destruct mid as [| x [| y mid]]; try discriminate.
    cbn [app]. replace (length pre) with (length pre + 0)%nat by lia.
    now rewrite insert_app_r.
  - destruct mid as [| x mid]; [discriminate |].
    cbn [length] in Hlen.
    cbn [app]. replace (length pre) with (length pre + 0)%nat at 1 by lia.
    rewrite insert_app_r. cbn [insert list_insert].
    replace (pre ++ m :: mid ++ post) with ((pre ++ [m]) ++ mid ++ post)
      by now rewrite <- app_assoc.
    replace (S (length pre)) with (length (pre ++ [m]))
      by (rewrite length_app; cbn; lia).
    rewrite IH; [now rewrite <- app_assoc | | lia].
    destruct Hin as [-> | Hin]; [congruence | exact Hin].
Qed.

(** X11: [update_pv] makes the line of the node out of its current move
    and the line of the child: when the child's array holds a
    [MOVE_NONE] from [ply + 1] on and the node's array has room, the
    node's array reads, from [ply] on, as the current move followed by
    the child's line; its cells below [ply] and beyond the new
    [MOVE_NONE] are left alone. *)
Theorem update_pv_line (pv child_pv : list Z) (current : Z) (ply : nat) :
  current <> none ->
  In none (drop (S ply) child_pv) ->
  (S ply + length (pv_line none (drop (S ply) child_pv)) < length pv)%nat ->
  pv_line none (drop ply (update_pv none pv current child_pv ply))
    = current :: pv_line none (drop (S ply) child_pv)
  /\ take ply (update_pv none pv current child_pv ply) = take ply pv
  /\ drop (S (S ply) + length (pv_line none (drop (S ply) child_pv)))
          (update_pv none pv current child_pv ply)
     = drop (S (S ply) + length (pv_line none (drop (S ply) child_pv))) pv
  /\ length (update_pv none pv current child_pv ply) = length pv.
Proof.
  intros Hcur Hin Hroom.
  remember (pv_line none (drop (S ply) child_pv)) as line eqn:Hline.
  assert (Hupd : update_pv none pv current child_pv ply
                 = (take ply pv ++ [current]) ++ line
                   ++ none :: drop (S (S ply) + length line) pv).
  { unfold update_pv.
    rewrite (insert_take_drop pv ply current) by lia.
    rewrite <- (take_drop (S (length line)) (drop (S ply) pv)).
    pose proof (copy_pv_app (drop (S ply) child_pv)
                  (take ply pv ++ [current])
                  (take (S (length line)) (drop (S ply) pv))
                  (drop (S (length line)) (drop (S ply) pv)) Hin) as Hcopy.
    rewrite length_app in Hcopy. cbn [length] in Hcopy.
    replace (length (take ply pv) + 1)%nat with (S ply) in Hcopy
      by (rewrite length_take; lia).
    rewrite <- app_assoc in Hcopy. cbn [app] in Hcopy.
    assert (Hmid : length (take (S (length line)) (drop (S ply) pv))
                   = S (length (pv_line none (drop (S ply) child_pv)))).
    { rewrite length_take, length_drop, <- Hline. lia. }
    rewrite (Hcopy Hmid).
    rewrite <- Hline, drop_drop, <- !app_assoc. cbn [app].
    replace (S ply + S (length line))%nat with (S (S ply) + length line)%nat
      by lia.
    reflexivity. }
  assert (Hlt : length (take ply pv) = ply) by (rewrite length_take; lia).
  rewrite Hupd. split; [| split; [| split]].
  - rewrite <- app_assoc. rewrite drop_app_length' by (symmetry; exact Hlt).
    cbn [app pv_line].
    rewrite (proj2 (Z.eqb_neq current none) Hcur).
    f_equal. rewrite Hline. apply pv_line_stop.
  - rewrite <- app_assoc. now rewrite take_app_length' by (symmetry; exact Hlt).
  - replace ((take ply pv ++ [current]) ++ line
               ++ none :: drop (S (S ply) + length line) pv)
      with (((take ply pv ++ [current]) ++ line ++ [none])
              ++ drop (S (S ply) + length line) pv)
      by (rewrite <- !app_assoc; reflexivity).
    apply drop_app_length'.
    rewrite !length_app, Hlt. cbn. lia.
  - rewrite !length_app, Hlt. cbn [length].
    rewrite length_drop. lia.
Qed.

End PrincipalVariation.

Lemma update_pv_line_witness :
  Search.pv_line 0
    (drop 1 (Search.update_pv 0 [9; 9; 9; 9; 9; 9] 5 [8; 8; 6; 7; 0; 8] 1))
  = [5; 6; 7].
Proof.
  destruct (update_pv_line 0 [9; 9; 9; 9; 9; 9] [8; 8; 6; 7; 0; 8] 5 1
              ltac:(lia) ltac:(cbn; tauto) ltac:(cbn; lia)) as (Hline & _).
  rewrite Hline. reflexivity.
Defined.

Section RootMoveEntries.

Import Search.

(** X12: [set_move_pv] stores the line of the given array, up to its
    first [MOVE_NONE], as the line of the move and changes nothing else
    of the move and no other move; [set_move_nodes] stores the node
    count and adds it to the cumulative count. *)
Theorem set_move_pv_spec (none : Z) (moves : list RootMove) (moveNum : nat)
    (pv : list Z) (r : RootMove) :
  moves !! moveNum = Some r ->
  In none pv ->
  (length (pv_line none pv) < length (rm_pv r))%nat ->
  (exists r',
     set_move_pv none moves moveNum pv !! moveNum = Some r'
     /\ pv_line none (rm_pv r') = pv_line none pv
     /\ length (rm_pv r') = length (rm_pv r)
     /\ rm_move r' = rm_move r /\ rm_score r' = rm_score r
     /\ rm_nodes r' = rm_nodes r
     /\ rm_cumulativeNodes r' = rm_cumulativeNodes r
     /\ rm_ourBeta r' = rm_ourBeta r /\ rm_theirBeta r' = rm_theirBeta r)
  /\ (forall k : nat,
        k <> moveNum ->
        set_move_pv none moves moveNum pv !! k = moves !! k)
  /\ (forall nodes : Z,
        exists r',
          set_move_nodes moves moveNum nodes !! moveNum = Some r'
          /\ rm_nodes r' = nodes
          /\ rm_cumulativeNodes r' = rm_cumulativeNodes r + nodes).
Proof.
  intros Hr Hin Hroom.
  assert (Hlen : (moveNum < length moves)%nat)
    by (apply lookup_lt_is_Some; now exists r).
  split; [| split].
  - unfold set_move_pv. rewrite Hr.
    rewrite list_lookup_insert_eq by exact Hlen.
    eexists. split; [reflexivity |]. cbn.
    assert (Hcopy : copy_pv none (rm_pv r) pv 0
                    = pv_line none pv
                      ++ none :: drop (S (length (pv_line none pv))) (rm_pv r)).
    { rewrite <- (take_drop (S (length (pv_line none pv))) (rm_pv r)) at 1.
      apply (copy_pv_app none pv [] _ _ Hin).
      rewrite length_take. lia. }
    rewrite Hcopy. split; [apply pv_line_stop |].
    split; [| repeat split].
    rewrite length_app. cbn [length]. rewrite length_drop. lia.
  - intros k Hk. unfold set_move_pv. rewrite Hr.
    now rewrite list_lookup_insert_ne by congruence.
  - intros nodes. unfold set_move_nodes. rewrite Hr.
    rewrite list_lookup_insert_eq by exact Hlen.
    eexists. split; [reflexivity |]. now cbn.
Qed.

Lemma set_move_pv_spec_witness :
  exists r',
    set_move_pv 0 [mkRootMove 4 10 0 0 0 0 [4; 0; 9; 9]] 0 [4; 6; 0; 7] !! 0%nat
    = Some r'
    /\ pv_line 0 (rm_pv r') = [4; 6].
Proof.
  destruct (set_move_pv_spec 0 [mkRootMove 4 10 0 0 0 0 [4; 0; 9; 9]] 0
              [4; 6; 0; 7] (mkRootMove 4 10 0 0 0 0 [4; 0; 9; 9])
              eq_refl ltac:(cbn; tauto) ltac:(cbn; lia))
    as ((r' & Hr' & Hline & _) & _).
  exists r'. split; [exact Hr' |]. rewrite Hline. reflexivity.
Defined.

End RootMoveEntries.

(** ** Time and polling (search.cpp, [think], [init_node], [poll]) *)

Section ThinkingTime.

Import Search.

Lemma quot_bounds (a b : Z) : 0 <= a -> 0 < b -> 0 <= Z.quot a b <= a.
Proof.
  intros Ha Hb. rewrite Z.quot_div_nonneg by lia. split.
  - apply Z.div_pos; lia.
  - apply Z.div_le_upper_bound; nia.
Qed.

Lemma quot_3_4 (a : Z) : 0 <= a -> 0 <= Z.quot (a * 3) 4 <= a.
Proof.
  intros Ha. rewrite Z.quot_div_nonneg by lia. split.
  - apply Z.div_pos; lia.
  - apply Z.div_le_upper_bound; lia.
Qed.

Lemma as_int_in_range (x : Z) : INT_MIN <= x <= INT_MAX -> as_int x = Some x.
Proof.
  intros [Hlo Hhi]. unfold as_int.
  now rewrite (proj2 (Z.leb_le _ _) Hlo), (proj2 (Z.leb_le _ _) Hhi).
Qed.

Lemma as_int_out_of_range (x : Z) : INT_MAX < x -> as_int x = None.
Proof.
  intros Hhi. unfold as_int.
  rewrite (proj2 (Z.leb_gt _ _) Hhi). now rewrite andb_false_r.
Qed.

(** X13: the thinking time [think] allots, for a clock time and an
    increment from 0 to [2 ^ 29 - 1] and a move count that is not
    negative. No operation leaves the range of [int]; both times are not
    negative; with pondering enabled [MaxSearchTime] is at most
    [AbsoluteMaxSearchTime]; and unless the game is played with an
    increment and no move count, neither time exceeds the time left on
    the clock. The bound on the clock is needed: from [2 ^ 29] on, with
    two moves or more to go, [4 * myTime] leaves the range of [int]. *)
Theorem think_time_spec (myTime myIncrement movesToGo : Z)
    (PonderingEnabled : bool) :
  (0 <= myTime < 2 ^ 29 -> 0 <= myIncrement < 2 ^ 29 ->
   0 <= movesToGo <= INT_MAX ->
   exists maxSearchTime absoluteMaxSearchTime,
     think_time myTime myIncrement movesToGo PonderingEnabled
       = Some (maxSearchTime, absoluteMaxSearchTime)
     /\ 0 <= maxSearchTime
     /\ 0 <= absoluteMaxSearchTime
     /\ (PonderingEnabled = true -> maxSearchTime <= absoluteMaxSearchTime)
     /\ (myIncrement = 0 \/ 0 < movesToGo ->
         maxSearchTime <= myTime /\ absoluteMaxSearchTime <= myTime))
  /\ (2 ^ 29 <= myTime <= INT_MAX -> 2 <= movesToGo <= INT_MAX ->
      think_time myTime myIncrement movesToGo PonderingEnabled = None).
Proof.
  split.
  - intros Ht Hi Hm. unfold think_time, INT_MAX in *.
    pose proof (quot_bounds myTime 30 ltac:(lia) ltac:(lia)).
    pose proof (quot_bounds myTime 4 ltac:(lia) ltac:(lia)).
    pose proof (quot_bounds myTime 8 ltac:(lia) ltac:(lia)).
    pose proof (quot_bounds myTime 2 ltac:(lia) ltac:(lia)).
    pose proof (quot_bounds myTime 3 ltac:(lia) ltac:(lia)).
    pose proof (quot_3_4 myTime ltac:(lia)).
    assert (Hpond : forall m a : Z,
              0 <= m < 2 ^ 30 -> 0 <= a ->
              exists m' a',
                (if PonderingEnabled
                 then maxSearchTime ← as_int (fst (m, a) + Z.quot (fst (m, a)) 4);
                      Some (Z.min maxSearchTime (snd (m, a)), snd (m, a))
                 else Some (m, a)) = Some (m', a')
                /\ 0 <= m' <= m + Z.quot m 4 /\ a' = a
                /\ (PonderingEnabled = true -> m' <= a')
                /\ (PonderingEnabled = false -> m' = m)).
    { intros m a Hm0 Ha.
      pose proof (quot_bounds m 4 ltac:(lia) ltac:(lia)).
      destruct PonderingEnabled; cbn [fst snd].
      - rewrite as_int_in_range by (unfold INT_MIN, INT_MAX; lia).
        cbn [mbind option_bind]. eexists _, _. split; [reflexivity |].
        repeat split; try lia; try discriminate.
      - eexists _, _. split; [reflexivity |].
        repeat split; try lia; try discriminate. }
    destruct (Z.eqb_spec movesToGo 0) as [-> | Hm0];
      [| destruct (Z.eqb_spec movesToGo 1) as [-> | Hm1]].
    + destruct (Z.eqb_spec myIncrement 0) as [-> | Hi0]; cbn [negb].
      * cbn [mbind option_bind].
        destruct (Hpond (Z.quot myTime 30) (Z.quot myTime 8)
                    ltac:(lia) ltac:(lia))
          as (m' & a' & -> & Hm' & -> & Hle & Heq).
        exists m', (Z.quot myTime 8). split; [reflexivity |].
        pose proof (quot_bounds (Z.quot myTime 30) 4 ltac:(lia) ltac:(lia)).
        destruct PonderingEnabled.
        -- specialize (Hle eq_refl). repeat split; intros; lia.
        -- specialize (Heq eq_refl). repeat split; intros;
             try discriminate; lia.
      * rewrite !as_int_in_range by (unfold INT_MIN, INT_MAX; lia).
        cbn [mbind option_bind].
        destruct (Hpond (Z.quot myTime 30 + myIncrement)
                    (Z.max (Z.quot myTime 4) (myIncrement - 100))
                    ltac:(lia) ltac:(lia))
          as (m' & a' & -> & Hm' & -> & Hle & Heq).
        eexists _, _. split; [reflexivity |].
        repeat split; try lia; try exact Hle. 
    + assert (Habs : exists a,
                (if 3000 <? myTime then as_int (myTime - 500)
                 else product ← as_int (myTime * 3); Some (Z.quot product 4))
                = Some a /\ 0 <= a <= myTime).
      { destruct (Z.ltb_spec 3000 myTime).
        - rewrite as_int_in_range by (unfold INT_MIN, INT_MAX; lia).
          eexists. split; [reflexivity | lia].
        - rewrite as_int_in_range by (unfold INT_MIN, INT_MAX; lia).
          cbn [mbind option_bind]. eexists. split; [reflexivity | lia]. }
      destruct Habs as (a & -> & Ha). cbn [mbind option_bind].
      destruct (Hpond (Z.quot myTime 2) a ltac:(lia) ltac:(lia))
        as (m' & a' & -> & Hm' & -> & Hle & Heq).
      pose proof (quot_bounds (Z.quot myTime 2) 4 ltac:(lia) ltac:(lia)).
      eexists _, _. split; [reflexivity |].
      destruct PonderingEnabled.
      * specialize (Hle eq_refl). repeat split; intros; lia.
      * specialize (Heq eq_refl). repeat split; intros;
          try discriminate; lia.
    + pose proof (quot_bounds myTime (Z.min movesToGo 20) ltac:(lia)
                    ltac:(lia)).
      pose proof (quot_bounds (4 * myTime) movesToGo ltac:(lia) ltac:(lia)).
      rewrite !as_int_in_range by (unfold INT_MIN, INT_MAX; lia).
      cbn [mbind option_bind].
      rewrite !as_int_in_range by (unfold INT_MIN, INT_MAX; lia).
      cbn [mbind option_bind].
      destruct (Hpond (Z.quot myTime (Z.min movesToGo 20))
                  (Z.min (Z.quot (4 * myTime) movesToGo) (Z.quot myTime 3))
                  ltac:(lia) ltac:(lia))
        as (m' & a' & -> & Hm' & -> & Hle & Heq).
      pose proof (quot_bounds (Z.quot myTime (Z.min movesToGo 20)) 4
                    ltac:(lia) ltac:(lia)).
      eexists _, _. split; [reflexivity |].
      destruct PonderingEnabled.
      * specialize (Hle eq_refl). repeat split; intros; lia.
      * specialize (Heq eq_refl). repeat split; intros;
          try discriminate; lia.
  - intros Ht Hm. unfold think_time, INT_MAX in *.
    replace (movesToGo =? 0) with false by (symmetry; apply Z.eqb_neq; lia).
    replace (movesToGo =? 1) with false by (symmetry; apply Z.eqb_neq; lia).
    pose proof (quot_bounds myTime (Z.min movesToGo 20) ltac:(lia)
                  ltac:(lia)).
    rewrite (as_int_in_range (Z.quot myTime (Z.min movesToGo 20)))
      by (unfold INT_MIN, INT_MAX; lia).
    cbn [mbind option_bind].
    rewrite (as_int_out_of_range (4 * myTime)) by (unfold INT_MAX; lia).
    reflexivity.
Qed.

(** A minute on the clock without increment or move count, with
    pondering; and a clock of 600000 seconds with two moves to go. *)
Lemma think_time_spec_witness :
  (exists maxSearchTime absoluteMaxSearchTime,
     think_time 60000 0 0 true = Some (maxSearchTime, absoluteMaxSearchTime)
     /\ maxSearchTime <= absoluteMaxSearchTime
     /\ absoluteMaxSearchTime <= 60000)
  /\ think_time 600000000 0 2 false = None.
Proof.
  destruct (think_time_spec 60000 0 0 true) as [Hin _].
  destruct (think_time_spec 600000000 0 2 false) as [_ Hout].
  split.
  - destruct (Hin ltac:(lia) ltac:(lia) ltac:(unfold INT_MAX; lia))
      as (m & a & Hrun & _ & _ & Hle & Hclock).
    exists m, a. split; [exact Hrun |].
    split; [now apply Hle | apply Hclock; now left].
  - apply Hout; unfold INT_MAX; lia.
Defined.

Lemma poll_counters (g : Globals) (t t' : Z) (input : PollInput)
    (nodes_searched : Z) :
  NodesSincePoll (poll g t t' input nodes_searched) = NodesSincePoll g
  /\ NodesBetweenPolls (poll g t t' input nodes_searched)
     = NodesBetweenPolls g.
Proof.
  unfold poll, poll_stop, poll_info, ponderhit.
  destruct input as [| | command];
    repeat match goal with
           | |- context [if ?c then _ else _] => destruct c
           end; split; reflexivity.
Qed.

(** X14: the interval [think] chooses between two polls is
    [Min(MaxNodes, 30000)] when there is a node limit (so between 1 and
    30000, and at most the limit, for a positive limit, and the limit
    itself for a negative one) and 1000, 5000 or 30000 by the clock
    otherwise; it never exceeds 30000. With a positive interval and a
    counter below it, [init_node] keeps the counter below the interval:
    it counts the nodes modulo the interval, leaves the interval as it
    is, and polls exactly when the count comes back to 0. With an
    interval that is not positive, [init_node] polls at every node. *)
Theorem polling_interval (g : Globals) (t t' : Z) (input : PollInput)
    (nodes_searched : Z) :
  (forall myTime : Z,
     think_NodesBetweenPolls g myTime <= 30000
     /\ (0 < MaxNodes g ->
         think_NodesBetweenPolls g myTime = Z.min (MaxNodes g) 30000
         /\ 1 <= think_NodesBetweenPolls g myTime <= MaxNodes g)
     /\ (MaxNodes g < 0 -> think_NodesBetweenPolls g myTime = MaxNodes g)
     /\ (MaxNodes g = 0 ->
         think_NodesBetweenPolls g myTime = 1000
         \/ think_NodesBetweenPolls g myTime = 5000
         \/ think_NodesBetweenPolls g myTime = 30000))
  /\ (0 < NodesBetweenPolls g ->
      0 <= NodesSincePoll g < NodesBetweenPolls g ->
      NodesBetweenPolls (init_node_poll g t t' input nodes_searched)
      = NodesBetweenPolls g
      /\ NodesSincePoll (init_node_poll g t t' input nodes_searched)
         = (NodesSincePoll g + 1) mod NodesBetweenPolls g
      /\ 0 <= NodesSincePoll (init_node_poll g t t' input nodes_searched)
           < NodesBetweenPolls g
      /\ (NodesSincePoll g + 1 < NodesBetweenPolls g ->
          init_node_poll g t t' input nodes_searched
          = set_NodesSincePoll (NodesSincePoll g + 1) g))
  /\ (NodesBetweenPolls g <= 0 -> 0 <= NodesSincePoll g ->
      init_node_poll g t t' input nodes_searched
      = set_NodesSincePoll 0
          (poll (set_NodesSincePoll (NodesSincePoll g + 1) g) t t' input
                nodes_searched)).
Proof.
  split; [| split].
  - intros myTime. unfold think_NodesBetweenPolls.
    destruct (Z.eqb_spec (MaxNodes g) 0) as [H0 | Hn0]; cbn [negb].
    + repeat match goal with
             | |- context [if ?c then _ else _] => destruct c
             end; repeat split; intros; try lia; auto.
    + repeat split; intros; lia.
  - intros Hpos Hcnt.
    assert (Hstep :
      NodesBetweenPolls (init_node_poll g t t' input nodes_searched)
      = NodesBetweenPolls g
      /\ NodesSincePoll (init_node_poll g t t' input nodes_searched)
         = (NodesSincePoll g + 1) mod NodesBetweenPolls g).
    { unfold init_node_poll. cbv zeta.
      change (NodesBetweenPolls (set_NodesSincePoll (NodesSincePoll g + 1) g))
        with (NodesBetweenPolls g).
      change (NodesSincePoll (set_NodesSincePoll (NodesSincePoll g + 1) g))
        with (NodesSincePoll g + 1).
      destruct (Z.leb_spec (NodesBetweenPolls g) (NodesSincePoll g + 1))
        as [Hge | Hlt].
      - change (NodesBetweenPolls (set_NodesSincePoll 0 ?x))
          with (NodesBetweenPolls x).
        destruct (poll_counters (set_NodesSincePoll (NodesSincePoll g + 1) g)
                    t t' input nodes_searched) as [_ Hb].
        split; [exact Hb |].
        replace (NodesSincePoll g + 1) with (NodesBetweenPolls g) by lia.
        now rewrite Z.mod_same by lia.
      - split; [reflexivity |].
        now rewrite Z.mod_small by lia. }
    destruct Hstep as [Hb Hs]. split; [exact Hb | split; [exact Hs |]].
    split.
    + rewrite Hs. apply Z.mod_pos_bound. lia.
    + intros Hlt. unfold init_node_poll. cbv zeta.
      change (NodesBetweenPolls (set_NodesSincePoll (NodesSincePoll g + 1) g))
        with (NodesBetweenPolls g).
      change (NodesSincePoll (set_NodesSincePoll (NodesSincePoll g + 1) g))
        with (NodesSincePoll g + 1).
      now rewrite (proj2 (Z.leb_gt _ _) Hlt).
  - intros Hneg Hcnt. unfold init_node_poll. cbv zeta.
    change (NodesBetweenPolls (set_NodesSincePoll (NodesSincePoll g + 1) g))
      with (NodesBetweenPolls g).
    change (NodesSincePoll (set_NodesSincePoll (NodesSincePoll g + 1) g))
      with (NodesSincePoll g + 1).
    assert (Hle : NodesBetweenPolls g <= NodesSincePoll g + 1) by lia.
    now rewrite (proj2 (Z.leb_le _ _) Hle).
Qed.

Lemma polling_interval_witness :
  NodesSincePoll
    (init_node_poll (set_NodesSincePoll 29999 idle_globals) 0 0 NoInput 0) = 0
  /\ NodesSincePoll (init_node_poll idle_globals 0 0 NoInput 0) = 1.
Proof.
  destruct (polling_interval (set_NodesSincePoll 29999 idle_globals)
              0 0 NoInput 0) as (_ & Hs & _).
  destruct (polling_interval idle_globals 0 0 NoInput 0) as (_ & Hs' & _).
  destruct (Hs ltac:(cbn; lia) ltac:(cbn; lia)) as (_ & H1 & _).
  destruct (Hs' ltac:(cbn; lia) ltac:(cbn; lia)) as (_ & H2 & _).
  split; [rewrite H1 | rewrite H2]; reflexivity.
Defined.

(** X15: what [poll] does to the flags of the search. It never clears
    [AbortSearch] or [Quit]; on "quit", and when the input has ended, it
    sets both and ends pondering; on "stop" it sets [AbortSearch], ends
    pondering and leaves [Quit] alone; and while the search ponders and
    nothing is read, it leaves [AbortSearch] as it is, whatever the
    time and the number of nodes. *)
Theorem poll_flags (g : Globals) (t t' : Z) (nodes_searched : Z) :
  (forall input,
     (AbortSearch g = true ->
      AbortSearch (poll g t t' input nodes_searched) = true)
     /\ (Quit g = true -> Quit (poll g t t' input nodes_searched) = true))
  /\ (forall input,
        input = EndOfInput \/ input = Line "quit" ->
        AbortSearch (poll g t t' input nodes_searched) = true
        /\ Quit (poll g t t' input nodes_searched) = true
        /\ PonderSearch (poll g t t' input nodes_searched) = false)
  /\ (AbortSearch (poll g t t' (Line "stop") nodes_searched) = true
      /\ PonderSearch (poll g t t' (Line "stop") nodes_searched) = false
      /\ Quit (poll g t t' (Line "stop") nodes_searched) = Quit g)
  /\ (PonderSearch g = true ->
      AbortSearch (poll g t t' NoInput nodes_searched) = AbortSearch g
      /\ PonderSearch (poll g t t' NoInput nodes_searched) = true).
Proof.
  split; [| split; [| split]].
  - intros input. unfold poll, poll_stop, poll_info, ponderhit.
    destruct input as [| | command];
      repeat match goal with
             | |- context [if ?c then _ else _] => destruct c
             end; split; intros H; try reflexivity; exact H.
  - intros input [-> | ->]; repeat split.
  - unfold poll, poll_stop, poll_info. cbn [String.eqb Ascii.eqb Bool.eqb].
    repeat match goal with
           | |- context [if ?c then _ else _] => destruct c
           end; repeat split.
  - intros Hp. unfold poll, poll_stop.
    destruct (poll_info_limits g t) as (_ & _ & _ & _ & Hpo & _).
    rewrite Hpo, Hp. split; [apply poll_info_AbortSearch | congruence].
Qed.

Lemma poll_flags_witness :
  AbortSearch
    (poll (set_PonderSearch true
             (set_Iteration 10 (think_init idle_globals false true 0 1000 0)))
          5000 5000 NoInput 1000000) = false.
Proof.
  destruct (poll_flags
              (set_PonderSearch true
                 (set_Iteration 10
                    (think_init idle_globals false true 0 1000 0)))
              5000 5000 1000000) as (_ & _ & _ & Hp).
  destruct (Hp eq_refl) as [Ha _]. rewrite Ha. reflexivity.
Defined.

End ThinkingTime.

(** ** Scanning for the first bit (bitboard.cpp, [first_1], [pop_1st_bit]) *)

Section BitScan.

Import Bitboard.

(** A positive number has a least bit, and taking 1 away clears it and
    sets all the bits below it. *)
Lemma low_bit (w : Z) :
  0 < w ->
  exists k,
    0 <= k
    /\ Z.testbit w k = true
    /\ (forall j, 0 <= j < k -> Z.testbit w j = false)
    /\ (forall j, 0 <= j ->
          Z.testbit (w - 1) j
          = (Z.testbit w j && negb (j =? k)) || (j <? k)).
Proof.
  intros Hw. destruct w as [| p | p]; try lia. clear Hw.
  induction p as [p IH | p IH |].
  - exists 0. rewrite Pos2Z.inj_xI.
    split; [lia |]. split; [apply Z.testbit_odd_0 |].
    split; [intros j Hj; lia |].
    intros j Hj. replace (2 * Z.pos p + 1 - 1) with (2 * Z.pos p) by lia.
    destruct (Z.eqb_spec j 0) as [-> | Hne].
    + now rewrite Z.testbit_even_0, Z.testbit_odd_0.
    + replace j with (Z.succ (j - 1)) by lia.
      rewrite Z.testbit_even_succ, Z.testbit_odd_succ by lia.
      replace (Z.succ (j - 1) <? 0) with false
        by (symmetry; apply Z.ltb_ge; lia).
      now rewrite andb_true_r, orb_false_r.
  - destruct IH as (k & Hk & Hbit & Hlow & Hpred).
    exists (k + 1). rewrite Pos2Z.inj_xO.
    split; [lia |]. split.
    + replace (k + 1) with (Z.succ k) by lia.
      now rewrite Z.testbit_even_succ by lia.
    + split.
      * intros j Hj. destruct (Z.eqb_spec j 0) as [-> | Hne].
        -- apply Z.testbit_even_0.
        -- replace j with (Z.succ (j - 1)) by lia.
           rewrite Z.testbit_even_succ by lia. apply Hlow. lia.
      * intros j Hj.
        replace (2 * Z.pos p - 1) with (2 * (Z.pos p - 1) + 1) by lia.
        destruct (Z.eqb_spec j 0) as [-> | Hne].
        -- rewrite Z.testbit_odd_0, Z.testbit_even_0.
           replace (0 <? k + 1) with true by (symmetry; apply Z.ltb_lt; lia).
           reflexivity.
        -- replace j with (Z.succ (j - 1)) at 1 2 by lia.
           rewrite Z.testbit_odd_succ, Z.testbit_even_succ by lia.
           rewrite Hpred by lia.
           replace (j - 1 =? k) with (j =? k + 1)
             by (destruct (Z.eqb_spec j (k + 1)), (Z.eqb_spec (j - 1) k);
                 (reflexivity || lia)).
           replace (j - 1 <? k) with (j <? k + 1)
             by (destruct (Z.ltb_spec j (k + 1)), (Z.ltb_spec (j - 1) k);
                 (reflexivity || lia)).
           reflexivity.
  - exists 0. split; [lia |]. split; [reflexivity |].
    split; [intros j Hj; lia |].
    intros j Hj. change (1 - 1) with 0. rewrite Z.bits_0.
    destruct (Z.eqb_spec j 0) as [-> | Hne]; [reflexivity |].
    cbn [negb]. rewrite andb_true_r.
    replace (j <? 0) with false by (symmetry; apply Z.ltb_ge; lia).
    rewrite orb_false_r.
    replace j with (Z.succ (j - 1)) by lia.
    change 1 with (2 * 0 + 1). rewrite Z.testbit_odd_succ by lia.
    now rewrite Z.bits_0.
Qed.

Lemma low_bit_bound (w k N : Z) :
  0 <= N -> 0 < w < 2 ^ N -> 0 <= k -> Z.testbit w k = true -> k < N.
Proof.
  intros HN Hw Hk Hbit.
  destruct (Z.lt_ge_cases k N) as [Hlt | Hge]; [exact Hlt |].
  rewrite (bits_above w N k) in Hbit by lia. discriminate.
Qed.

(** [w & (w - 1)], [w ^ (w - 1)] and [w & -w] for the least bit [k]. *)
Lemma land_pred (w k : Z) :
  0 <= k -> Z.testbit w k = true ->
  (forall j, 0 <= j < k -> Z.testbit w j = false) ->
  (forall j, 0 <= j ->
     Z.testbit (w - 1) j = (Z.testbit w j && negb (j =? k)) || (j <? k)) ->
  Z.land w (w - 1) = w - 2 ^ k.
Proof.
  intros Hk Hbit Hlow Hpred.
  rewrite (Z.sub_nocarry_ldiff w (2 ^ k)).
  - apply Z.bits_inj'. intros j Hj.
    rewrite Z.land_spec, Z.ldiff_spec, Hpred, Z.pow2_bits_eqb by lia.
    rewrite (Z.eqb_sym k j).
    destruct (Z.ltb_spec j k) as [Hlt | Hge].
    + rewrite Hlow by lia. reflexivity.
    + rewrite orb_false_r. now destruct (Z.testbit w j), (j =? k).
  - apply Z.bits_inj'. intros j Hj.
    rewrite Z.ldiff_spec, Z.pow2_bits_eqb, Z.bits_0 by lia.
    destruct (Z.eqb_spec k j) as [<- | Hne]; [now rewrite Hbit |].
    reflexivity.
Qed.

Lemma lxor_pred (w k : Z) :
  0 < w -> 0 <= k -> Z.testbit w k = true ->
  (forall j, 0 <= j < k -> Z.testbit w j = false) ->
  (forall j, 0 <= j ->
     Z.testbit (w - 1) j = (Z.testbit w j && negb (j =? k)) || (j <? k)) ->
  Z.lxor w (w - 1) = Z.ones (k + 1).
Proof.
  intros Hw Hk Hbit Hlow Hpred.
  apply Z.bits_inj'. intros j Hj.
  rewrite Z.lxor_spec, Hpred by lia.
  destruct (Z.ltb_spec j k) as [Hlt | Hge].
  - rewrite Hlow by lia. rewrite Z.ones_spec_low by lia. reflexivity.
  - rewrite orb_false_r. destruct (Z.eqb_spec j k) as [-> | Hne].
    + rewrite Hbit, Z.ones_spec_low by lia. reflexivity.
    + rewrite andb_true_r, Z.ones_spec_high by lia.
      apply xorb_nilpotent.
Qed.

Lemma land_opp (w k : Z) :
  0 < w < 2 ^ 64 -> 0 <= k -> Z.testbit w k = true ->
  (forall j, 0 <= j < k -> Z.testbit w j = false) ->
  (forall j, 0 <= j ->
     Z.testbit (w - 1) j = (Z.testbit w j && negb (j =? k)) || (j <? k)) ->
  Z.land w (wrap64 (- w)) = 2 ^ k.
Proof.
  intros Hw Hk Hbit Hlow Hpred.
  pose proof (low_bit_bound w k 64 ltac:(lia) Hw Hk Hbit) as Hk64.
  apply Z.bits_inj'. intros j Hj.
  rewrite Z.land_spec, Z.pow2_bits_eqb by lia. unfold wrap64.
  destruct (Z.lt_ge_cases j 64) as [Hlt | Hge].
  - rewrite Z.mod_pow2_bits_low, Z.bits_opp by lia.
    replace (Z.pred w) with (w - 1) by lia. rewrite Hpred by lia.
    rewrite (Z.eqb_sym k j).
    destruct (Z.ltb_spec j k) as [Hl | Hg].
    + rewrite Hlow by lia.
      replace (j =? k) with false by (symmetry; apply Z.eqb_neq; lia).
      reflexivity.
    + rewrite orb_false_r. destruct (Z.eqb_spec j k) as [-> | Hne].
      * now rewrite Hbit.
      * rewrite andb_true_r. apply andb_negb_r.
  - rewrite Z.mod_pow2_bits_high by lia.
    replace (k =? j) with false by (symmetry; apply Z.eqb_neq; lia).
    apply andb_false_r.
Qed.

Lemma lowest_bit_unique (b k k' : Z) :
  lowest_bit b k -> lowest_bit b k' -> k = k'.
Proof.
  intros (Hk & Hb & Hl) (Hk' & Hb' & Hl').
  destruct (Z.lt_trichotomy k k') as [H | [H | H]]; [| exact H |].
  - rewrite Hl' in Hb by lia. discriminate.
  - rewrite Hl in Hb' by lia. discriminate.
Qed.

Lemma first_1_64_lowest (b : Z) :
  0 < b < 2 ^ 64 ->
  lowest_bit b (first_1_64 b)
  /\ pop_1st_bit_64 b = (first_1_64 b, b - 2 ^ first_1_64 b).
Proof.
  intros Hb.
  destruct (low_bit b ltac:(lia)) as (k & Hk & Hbit & Hlow & Hpred).
  pose proof (low_bit_bound b k 64 ltac:(lia) Hb Hk Hbit) as Hk64.
  assert (Hall : forallb (fun k =>
            getZ (BSFTable true) (bsf_index64 (2 ^ k)) =? k) (seqZ 0 64)
          = true) by (vm_compute; reflexivity).
  pose proof (check_range _ 0 64 k Hall ltac:(lia)) as Hidx. cbv beta in Hidx.
  apply Z.eqb_eq in Hidx.
  assert (Hf : first_1_64 b = k).
  { unfold first_1_64. rewrite (land_opp b k Hb Hk Hbit Hlow Hpred).
    exact Hidx. }
  rewrite Hf. split; [repeat split; (lia || assumption) |].
  unfold pop_1st_bit_64.
  rewrite (land_opp b k Hb Hk Hbit Hlow Hpred), Hidx.
  unfold wrap64. rewrite (Z.mod_small (b - 1)) by lia.
  now rewrite (land_pred b k Hk Hbit Hlow Hpred).
Qed.

(** X17: in the 64-bit build [first_1] returns the least square of a
    non-empty bitboard: the square is in the set and no square below it
    is; [pop_1st_bit] returns the same square and takes it out of the
    set. *)
Theorem bit_scan_64 (b : Z) :
  0 < b < 2 ^ 64 ->
  0 <= first_1_64 b < 64
  /\ Z.testbit b (first_1_64 b) = true
  /\ (forall j, 0 <= j < first_1_64 b -> Z.testbit b j = false)
  /\ fst (pop_1st_bit_64 b) = first_1_64 b
  /\ snd (pop_1st_bit_64 b) = b - 2 ^ first_1_64 b
  /\ Z.testbit (snd (pop_1st_bit_64 b)) (first_1_64 b) = false.
Proof.
  intros Hb.
  destruct (first_1_64_lowest b Hb) as [(Hr & Hbit & Hlow) Hpop].
  rewrite Hpop. cbn [fst snd]. repeat split; try assumption; try lia.
  destruct (low_bit b ltac:(lia)) as (k & Hk & Hbk & Hlk & Hpred).
  assert (Hkk : first_1_64 b = k).
  { apply (lowest_bit_unique b); [repeat split; (assumption || lia) |].
    pose proof (low_bit_bound b k 64 ltac:(lia) Hb Hk Hbk).
    repeat split; (assumption || lia). }
  rewrite Hkk, <- (land_pred b k Hk Hbk Hlk Hpred).
  rewrite Z.land_spec, Hpred by lia.
  rewrite Z.eqb_refl, Z.ltb_irrefl. now rewrite Hbk.
Qed.

Lemma bit_scan_64_witness :
  first_1_64 0x8100 = 8 /\ snd (pop_1st_bit_64 0x8100) = 0x8000.
Proof.
  destruct (bit_scan_64 0x8100 ltac:(lia)) as (_ & _ & _ & _ & Hpop & _).
  assert (Hf : first_1_64 0x8100 = 8) by (vm_compute; reflexivity).
  split; [exact Hf |]. rewrite Hpop, Hf. reflexivity.
Defined.

(** X18: the 32-bit build, with its folding of the two halves, finds
    the same square as the 64-bit build: [first_1] returns the least
    square of a non-empty bitboard, and [pop_1st_bit], working on the
    halves, returns it and takes it out of the set. *)
Theorem bit_scan_32 (b : Z) :
  0 < b < 2 ^ 64 ->
  first_1_32 b = first_1_64 b
  /\ lowest_bit b (first_1_32 b)
  /\ pop_1st_bit_32 b = (first_1_32 b, b - 2 ^ first_1_32 b).
Proof.
  intros Hb.
  destruct (first_1_64_lowest b Hb) as [Hlow64 _].
  destruct (low_bit b ltac:(lia)) as (k & Hk & Hbit & Hlow & Hpred).
  pose proof (low_bit_bound b k 64 ltac:(lia) Hb Hk Hbit) as Hk64.
  assert (Hk_low : lowest_bit b k) by (repeat split; (assumption || lia)).
  assert (H64 : first_1_64 b = k) by now apply (lowest_bit_unique b).
  assert (Hall : forallb (fun k =>
            getZ (BSFTable false)
                 (bsf_index32
                    (wrap32 (Z.lxor (Z.ones (k + 1))
                                    (Z.shiftr (Z.ones (k + 1)) 32))))
            =? k) (seqZ 0 64) = true) by (vm_compute; reflexivity).
  pose proof (check_range _ 0 64 k Hall ltac:(lia)) as Hidx. cbv beta in Hidx.
  apply Z.eqb_eq in Hidx.
  assert (H32 : first_1_32 b = k).
  { unfold first_1_32, bsf_fold. cbv zeta. unfold wrap64.
    rewrite (Z.mod_small (b - 1)) by lia.
    rewrite (lxor_pred b k ltac:(lia) Hk Hbit Hlow Hpred). exact Hidx. }
  rewrite H32, H64. split; [reflexivity |]. split; [exact Hk_low |].
  unfold pop_1st_bit_32.
  assert (Hsplit : b = wrap32 b + 2 ^ 32 * Z.shiftr b 32).
  { unfold wrap32. rewrite Z.shiftr_div_pow2 by lia.
    pose proof (Z.div_mod b (2 ^ 32) ltac:(lia)). lia. }
  assert (Hl : 0 <= wrap32 b < 2 ^ 32) by (apply Z.mod_pos_bound; lia).
  assert (Hh : 0 <= Z.shiftr b 32 < 2 ^ 32).
  { rewrite Z.shiftr_div_pow2 by lia. split.
    - apply Z.div_pos; lia.
    - apply Z.div_lt_upper_bound; lia. }
  destruct (Z.eqb_spec (wrap32 b) 0) as [H0 | Hn0]; cbn [negb].
  - (* the least square is in the upper half *)
    assert (Hhpos : 0 < Z.shiftr b 32) by lia.
    destruct (low_bit (Z.shiftr b 32) Hhpos)
      as (kh & Hkh & Hbh & Hlh & Hph).
    pose proof (low_bit_bound _ kh 32 ltac:(lia) (conj Hhpos (proj2 Hh))
                  Hkh Hbh) as Hkh32.
    assert (Hkk : k = 32 + kh).
    { apply (lowest_bit_unique b); [exact Hk_low |].
      split; [lia |]. split.
      - rewrite Z.shiftr_spec in Hbh by lia.
        now replace (32 + kh) with (kh + 32) by lia.
      - intros j Hj. destruct (Z.lt_ge_cases j 32) as [Hlt | Hge].
        + assert (Hz : Z.testbit (wrap32 b) j = false)
            by (rewrite H0; apply Z.bits_0).
          unfold wrap32 in Hz.
          now rewrite Z.mod_pow2_bits_low in Hz by lia.
        + specialize (Hlh (j - 32) ltac:(lia)).
          rewrite Z.shiftr_spec in Hlh by lia.
          now replace (j - 32 + 32) with j in Hlh by lia. }
    assert (Hall2 : forallb (fun k =>
              getZ (BSFTable false)
                   (bsf_index32 (2 ^ 32 - 1 - Z.ones (k + 1)))
              =? 32 + k) (seqZ 0 32) = true) by (vm_compute; reflexivity).
    pose proof (check_range _ 0 32 kh Hall2 ltac:(lia)) as Hi2.
    cbv beta in Hi2. apply Z.eqb_eq in Hi2.
    assert (Hw : wrap32 (Z.shiftr b 32 - 1) = Z.shiftr b 32 - 1)
      by (unfold wrap32; apply Z.mod_small; lia).
    rewrite Hw, (lxor_pred _ kh Hhpos Hkh Hbh Hlh Hph), Hi2.
    rewrite (land_pred _ kh Hkh Hbh Hlh Hph).
    rewrite Hkk. f_equal. rewrite Z.pow_add_r by lia. lia.
  - (* the least square is in the lower half *)
    assert (Hlpos : 0 < wrap32 b) by lia.
    destruct (low_bit (wrap32 b) Hlpos) as (kl & Hkl & Hbl & Hll & Hpl).
    pose proof (low_bit_bound _ kl 32 ltac:(lia) (conj Hlpos (proj2 Hl))
                  Hkl Hbl) as Hkl32.
    assert (Hkk : k = kl).
    { apply (lowest_bit_unique b); [exact Hk_low |].
      split; [lia |]. unfold wrap32 in Hbl, Hll. split.
      - now rewrite Z.mod_pow2_bits_low in Hbl by lia.
      - intros j Hj. specialize (Hll j Hj).
        now rewrite Z.mod_pow2_bits_low in Hll by lia. }
    assert (Hall2 : forallb (fun k =>
              getZ (BSFTable false) (bsf_index32 (Z.ones (k + 1))) =? k)
              (seqZ 0 32) = true) by (vm_compute; reflexivity).
    pose proof (check_range _ 0 32 kl Hall2 ltac:(lia)) as Hi2.
    cbv beta in Hi2. apply Z.eqb_eq in Hi2.
    assert (Hw : wrap32 (wrap32 b - 1) = wrap32 b - 1)
      by (unfold wrap32 at 1; apply Z.mod_small; lia).
    rewrite Hw, (lxor_pred _ kl Hlpos Hkl Hbl Hll Hpl), Hi2.
    rewrite (land_pred _ kl Hkl Hbl Hll Hpl), Hkk.
    f_equal. lia.
Qed.

Lemma bit_scan_32_witness :
  first_1_32 (2 ^ 40 + 2 ^ 50) = 40
  /\ pop_1st_bit_32 (2 ^ 40 + 2 ^ 50) = (40, 2 ^ 50).
Proof.
  destruct (bit_scan_32 (2 ^ 40 + 2 ^ 50) ltac:(lia)) as (_ & _ & Hpop).
  assert (Hf : first_1_32 (2 ^ 40 + 2 ^ 50) = 40) by (vm_compute; reflexivity).
  split; [exact Hf |]. rewrite Hpop, Hf. reflexivity.
Defined.

End BitScan.

(** ** The occupancy that matters, and the lookup (bitboard.cpp) *)

Section RelevantOccupancy.

Import Bitboard.

Lemma ray_off (f : nat) (s d occ ex att : Z) :
  square_is_ok s && (square_distance s (s - d) =? 1) = false ->
  ray f s d occ ex att = att.
Proof.
  intros Hc. destruct f as [| f]; cbn [ray]; [reflexivity |].
  now rewrite Hc.
Qed.

(** Two occupancies that agree on the inner squares of a ray give the
    same squares along it: on its last square the walk ends whether the
    square is occupied or not. *)
Lemma ray_agree (f : nat) (d occ occ' : Z) :
  forall s att,
    (forall t, In t (ray_inner f s d) -> Z.testbit occ t = Z.testbit occ' t) ->
    ray f s d occ EmptyBoardBB att = ray f s d occ' EmptyBoardBB att.
Proof.
  induction f as [| f IH]; intros s att Hag; cbn [ray ray_inner] in *;
    [reflexivity |].
  assert (Hex : forall x, negb (bit_is_set EmptyBoardBB x) = true)
    by (intros x; unfold bit_is_set, EmptyBoardBB; now rewrite Z.bits_0).
  rewrite !Hex, !andb_true_r.
  destruct (square_is_ok s && (square_distance s (s - d) =? 1)) eqn:Hc;
    [| reflexivity].
  destruct (square_is_ok (s + d) && (square_distance (s + d) s =? 1)) eqn:Hn.
  - unfold bit_is_set. rewrite (Hag s) by now left.
    destruct (Z.testbit occ' s); [reflexivity |].
    apply IH. intros t Ht. apply Hag. now right.
  - assert (Hoff : forall o a, ray f (s + d) d o EmptyBoardBB a = a).
    { intros o a. apply ray_off.
      now replace (s + d - d) with s by lia. }
    rewrite !Hoff. now destruct (bit_is_set occ s), (bit_is_set occ' s).
Qed.

Lemma fold_ray_agree (l : list Z) (s occ occ' : Z) :
  forall att,
    (forall d, In d l ->
       forall t, In t (ray_inner 64 (s + d) d) ->
         Z.testbit occ t = Z.testbit occ' t) ->
    fold_left (fun a d => ray 64 (s + d) d occ EmptyBoardBB a) l att
    = fold_left (fun a d => ray 64 (s + d) d occ' EmptyBoardBB a) l att.
Proof.
  induction l as [| d l IH]; intros att Hag; cbn [fold_left];
    [reflexivity |].
  rewrite (ray_agree 64 d occ occ') by (apply Hag; now left).
  apply IH. intros d' Hd'. apply Hag. now right.
Qed.

Lemma masks_cover (deltas : list Z) (s : Z) :
  deltas = RDeltas \/ deltas = BDeltas -> 0 <= s < 64 ->
  mask_covers s deltas = true.
Proof.
  intros Hd Hs.
  assert (Hall : forallb (fun s => mask_covers s deltas) (seqZ 0 64) = true)
    by (destruct Hd as [-> | ->]; vm_compute; reflexivity).
  apply (check_range _ 0 64 s Hall). lia.
Qed.

Lemma sliding_attacks_masked (deltas : list Z) (s occ : Z) :
  deltas = RDeltas \/ deltas = BDeltas -> 0 <= s < 64 ->
  sliding_attacks s (Z.land occ (square_mask s deltas)) deltas EmptyBoardBB
  = sliding_attacks s occ deltas EmptyBoardBB.
Proof.
  intros Hd Hs. pose proof (masks_cover deltas s Hd Hs) as Hcov.
  unfold mask_covers in Hcov. rewrite forallb_forall in Hcov.
  unfold sliding_attacks. apply fold_ray_agree.
  intros d Hin t Ht. specialize (Hcov d Hin).
  rewrite forallb_forall in Hcov. specialize (Hcov t Ht).
  unfold bit_is_set in Hcov.
  now rewrite Z.land_spec, Hcov, andb_true_r.
Qed.

(** X16: only the occupancy of the mask matters to the attack set of a
    rook or bishop: the squares outside the mask of a square, its edge
    squares among them, can be occupied or not without a change of
    [sliding_attacks]; and the mask is the attack set on an empty board
    without the edge squares. *)
Theorem sliding_attacks_relevant (deltas : list Z) (s occ occ' : Z) :
  deltas = RDeltas \/ deltas = BDeltas -> 0 <= s < 64 ->
  Z.land occ (square_mask s deltas) = Z.land occ' (square_mask s deltas) ->
  sliding_attacks s occ deltas EmptyBoardBB
  = sliding_attacks s occ' deltas EmptyBoardBB
  /\ Z.land (square_mask s deltas)
            (sliding_attacks s EmptyBoardBB deltas EmptyBoardBB)
     = square_mask s deltas.
Proof.
  intros Hd Hs Heq. split.
  - rewrite <- (sliding_attacks_masked deltas s occ Hd Hs).
    rewrite <- (sliding_attacks_masked deltas s occ' Hd Hs).
    now rewrite Heq.
  - assert (Hall : forallb (fun s =>
              Z.land (square_mask s deltas)
                     (sliding_attacks s EmptyBoardBB deltas EmptyBoardBB)
              =? square_mask s deltas) (seqZ 0 64) = true)
      by (destruct Hd as [-> | ->]; vm_compute; reflexivity).
    apply Z.eqb_eq. apply (check_range _ 0 64 s Hall). lia.
Qed.

Lemma sliding_attacks_relevant_witness :
  sliding_attacks 0 (2 ^ 18 + 2 ^ 63) BDeltas EmptyBoardBB
  = sliding_attacks 0 (2 ^ 18) BDeltas EmptyBoardBB.
Proof.
  apply (sliding_attacks_relevant BDeltas 0 (2 ^ 18 + 2 ^ 63) (2 ^ 18)
           (or_intror eq_refl) ltac:(lia)).
  vm_compute. reflexivity.
Defined.

End RelevantOccupancy.

Section AttackLookup.

Import Bitboard.
Context `{PF : Platform}.

Lemma land_mask_range (occ msk : Z) :
  0 <= occ < 2 ^ 64 -> 0 <= Z.land occ msk < 2 ^ 64.
Proof.
  intros Hocc.
  assert (Hnn : 0 <= Z.land occ msk) by (apply Z.land_nonneg; lia).
  split; [exact Hnn |].
  apply bits_bound; [exact Hnn | lia |].
  intros j Hj. rewrite Z.land_spec, (bits_above occ 64 j Hocc Hj).
  reflexivity.
Qed.

(** X9: the tables [do_magics] builds answer every lookup: when
    [do_magics] returns, the attack set read from the table of a square
    at the index of an occupancy (the occupancy masked, multiplied by
    the magic and shifted) is the set [sliding_attacks] computes for
    that occupancy, for every square and every occupancy of the
    board. *)
Theorem magic_attacks_lookup (fuel inner : nat) (deltas : list Z)
    (m out : Magics) (rk' : RK) :
  deltas = RDeltas \/ deltas = BDeltas ->
  arrays_ok deltas m ->
  do_magics fuel inner deltas m = Some (out, rk') ->
  forall s occ,
    0 <= s < 64 -> 0 <= occ < 2 ^ 64 ->
    attacks_bb out s occ = sliding_attacks s occ deltas EmptyBoardBB.
Proof.
  intros Hd Hok Hrun s occ Hs Hocc.
  destruct (do_magics_tables fuel inner deltas m out rk' Hd Hok Hrun s Hs)
    as (mg & Hmg & Hat & Hmk & Hsh & _ & Hslots).
  unfold attacks_bb. cbv zeta. rewrite Hmg, Hat, Hmk, Hsh. cbn [default].
  rewrite Hslots.
  - now apply sliding_attacks_masked.
  - now apply land_mask_range.
  - now rewrite <- Z.land_assoc, Z.land_diag.
Qed.

End AttackLookup.

Lemma magic_attacks_lookup_witness :
  exists out : Bitboard.Magics,
    Bitboard.do_magics
      (PF := Bitboard.list_platform
               (Bitboard.words_for Bitboard.MagicBoosters64
                                   Bitboard.bishop_magics))
      1 1 Bitboard.BDeltas Bitboard.bishop_arrays
    = Some (out, [])
    /\ Bitboard.attacks_bb
         (PF := Bitboard.list_platform
                  (Bitboard.words_for Bitboard.MagicBoosters64
                                      Bitboard.bishop_magics))
         out 27 (2 ^ 45 + 2 ^ 63 + 2 ^ 9)
       = 2 ^ 36 + 2 ^ 45 + 2 ^ 34 + 2 ^ 41 + 2 ^ 48 + 2 ^ 18 + 2 ^ 9
         + 2 ^ 20 + 2 ^ 13 + 2 ^ 6.
Proof.
  assert (Hrun : exists out : Bitboard.Magics,
            Bitboard.do_magics
              (PF := Bitboard.list_platform
                       (Bitboard.words_for Bitboard.MagicBoosters64
                                           Bitboard.bishop_magics))
              1 1 Bitboard.BDeltas Bitboard.bishop_arrays
            = Some (out, [])).
  { eexists. vm_compute. reflexivity. }
  destruct Hrun as (out & Hrun).
  exists out. split; [exact Hrun |].
  rewrite (magic_attacks_lookup
             (PF := Bitboard.list_platform
                      (Bitboard.words_for Bitboard.MagicBoosters64
                                          Bitboard.bishop_magics))
             1 1 Bitboard.BDeltas Bitboard.bishop_arrays out []
             (or_intror eq_refl)
             ltac:(repeat split; by_computation) Hrun 27
             (2 ^ 45 + 2 ^ 63 + 2 ^ 9) ltac:(lia) ltac:(lia)).
  vm_compute. reflexivity.
Defined.

(** ** The subsets of a mask (bitboard.cpp, [submask]) *)

Section Submasks.

Import Bitboard.

Lemma bitnum_of_Some (squares : list Z) (msk t b j : Z) :
  bitnum_of squares msk t b = Some j ->
  In t squares /\ Z.testbit msk t = true /\ b < j <= b + count_in squares msk.
Proof.
  revert b. induction squares as [| s rest IH]; intros b;
    cbn [bitnum_of count_in]; [discriminate |].
  pose proof (count_in_range rest msk) as Hc.
  unfold bit_is_set. destruct (Z.testbit msk s) eqn:Hm.
  - destruct (Z.eqb_spec s t) as [-> | Hne].
    + intros [= <-]. split; [now left |]. split; [exact Hm | lia].
    + intros H. destruct (IH _ H) as (Hin & Hmt & Hj).
      split; [now right |]. split; [exact Hmt | lia].
  - destruct (Z.eqb_spec s t) as [-> | Hne]; [discriminate |].
    intros H. destruct (IH _ H) as (Hin & Hmt & Hj).
    split; [now right |]. split; [exact Hmt | lia].
Qed.

(** The walk of [submask] puts a square into the subset exactly when
    the bit of the key that belongs to the square is set. *)
Lemma submask_loop_index (squares : list Z) (msk key t : Z) :
  forall sub b,
    NoDup squares ->
    (forall s, In s squares -> 0 <= s) ->
    0 <= t ->
    Z.testbit (submask_loop squares msk key sub b) t
    = Z.testbit sub t
      || match bitnum_of squares msk t b with
         | Some j => Z.testbit key j
         | None => false
         end.
Proof.
  induction squares as [| s rest IH]; intros sub b Hnd Hpos Ht;
    cbn [submask_loop bitnum_of]; [now rewrite orb_false_r |].
  apply NoDup_cons in Hnd. destruct Hnd as [Hnotin Hnd].
  assert (Hs : 0 <= s) by (apply Hpos; now left).
  assert (Hrest : forall u, In u rest -> 0 <= u)
    by (intros u Hu; apply Hpos; now right).
  assert (Hnone : forall b', bitnum_of rest msk s b' = None).
  { intros b'. destruct (bitnum_of rest msk s b') as [j |] eqn:Hj;
      [| reflexivity].
    apply bitnum_of_Some in Hj. destruct Hj as [Hin _].
    exfalso. apply Hnotin. now apply list_elem_of_In. }
  unfold bit_is_set. destruct (Z.testbit msk s) eqn:Hm.
  - rewrite IH by assumption.
    destruct (Z.eqb_spec s t) as [-> | Hne].
    + rewrite Hnone, orb_false_r.
      destruct (Z.testbit key (b + 1)); [| now rewrite orb_false_r].
      now rewrite set_bit_spec, Z.eqb_refl, !orb_true_r by lia.
    + f_equal. destruct (Z.testbit key (b + 1)); [| reflexivity].
      rewrite set_bit_spec by lia.
      rewrite (proj2 (Z.eqb_neq s t)) by exact Hne. apply orb_false_r.
  - rewrite IH by assumption.
    destruct (Z.eqb_spec s t) as [-> | Hne]; [now rewrite Hnone |].
    reflexivity.
Qed.

Lemma bitnum_of_onto (squares : list Z) (msk : Z) :
  forall b j,
    NoDup squares ->
    b < j <= b + count_in squares msk ->
    exists t, In t squares /\ bitnum_of squares msk t b = Some j.
Proof.
  induction squares as [| s rest IH]; intros b j Hnd Hj;
    cbn [bitnum_of count_in] in *; [lia |].
  apply NoDup_cons in Hnd. destruct Hnd as [Hnotin Hnd].
  unfold bit_is_set. destruct (Z.testbit msk s) eqn:Hm.
  - destruct (Z.eq_dec j (b + 1)) as [-> | Hne].
    + exists s. split; [now left |]. now rewrite Z.eqb_refl.
    + destruct (IH (b + 1) j Hnd ltac:(lia)) as (t & Hin & Ht).
      exists t. split; [now right |].
      destruct (Z.eqb_spec s t) as [-> | Hst]; [| exact Ht].
      exfalso. apply Hnotin. now apply list_elem_of_In.
  - destruct (IH b j Hnd ltac:(lia)) as (t & Hin & Ht).
    exists t. split; [now right |].
    destruct (Z.eqb_spec s t) as [-> | Hst]; [| exact Ht].
    exfalso. apply Hnotin. now apply list_elem_of_In.
Qed.

Lemma submask_bit (msk key t : Z) :
  0 <= t ->
  Z.testbit (submask msk key) t
  = match bitnum_of (seqZ 0 64) msk t (-1) with
    | Some j => Z.testbit key j
    | None => false
    end.
Proof.
  intros Ht. unfold submask.
  rewrite submask_loop_index; [now rewrite Z.bits_0 | apply NoDup_seqZ | | exact Ht].
  intros s Hs. apply list_elem_of_In, elem_of_seqZ in Hs. lia.
Qed.

Lemma submask_loop_nonneg (squares : list Z) (msk key : Z) :
  forall sub b, 0 <= sub -> 0 <= submask_loop squares msk key sub b.
Proof.
  induction squares as [| s rest IH]; intros sub b Hsub;
    cbn [submask_loop]; [exact Hsub |].
  destruct (bit_is_set msk s); [| now apply IH].
  apply IH. destruct (bit_is_set key (b + 1)); [| exact Hsub].
  unfold set_bit. apply Z.lor_nonneg. split; [exact Hsub |].
  apply Z.shiftl_nonneg. lia.
Qed.

(** X19: [submask] numbers the subsets of a mask: for every key the
    result is a set of squares of the mask; every subset of the mask is
    the result for a key below [2 ^ count_1s(mask)]; and two different
    keys below that bound give different subsets. *)
Theorem submask_enumerates (msk : Z) :
  (forall key,
     Z.land (submask msk key) msk = submask msk key
     /\ 0 <= submask msk key < 2 ^ 64)
  /\ (forall occ,
        0 <= occ < 2 ^ 64 -> Z.land occ msk = occ ->
        exists key,
          0 <= key < 2 ^ count_1s msk /\ submask msk key = occ)
  /\ (forall key1 key2,
        0 <= key1 < 2 ^ count_1s msk ->
        0 <= key2 < 2 ^ count_1s msk ->
        submask msk key1 = submask msk key2 -> key1 = key2).
Proof.
  split; [| split].
  - intros key.
    assert (Hnn : 0 <= submask msk key)
      by (apply submask_loop_nonneg; lia).
    split.
    + apply Z.bits_inj'. intros t Ht.
      rewrite Z.land_spec, submask_bit by exact Ht.
      destruct (bitnum_of (seqZ 0 64) msk t (-1)) as [j |] eqn:Hj;
        [| reflexivity].
      apply bitnum_of_Some in Hj. destruct Hj as (_ & -> & _).
      apply andb_true_r.
    + split; [exact Hnn |].
      apply bits_bound; [exact Hnn | lia |].
      intros t Ht. rewrite submask_bit by lia.
      destruct (bitnum_of (seqZ 0 64) msk t (-1)) as [j |] eqn:Hj;
        [| reflexivity].
      apply bitnum_of_Some in Hj. destruct Hj as (Hin & _ & _).
      apply list_elem_of_In, elem_of_seqZ in Hin. lia.
  - intros occ Hocc Hsub. exists (key_of msk occ).
    split; [apply key_of_range | now apply submask_key_of].
  - intros key1 key2 H1 H2 Heq.
    apply Z.bits_inj'. intros j Hj.
    destruct (Z.lt_ge_cases j (count_1s msk)) as [Hlt | Hge].
    + destruct (bitnum_of_onto (seqZ 0 64) msk (-1) j (NoDup_seqZ 0 64))
        as (t & Hin & Ht); [unfold count_1s in Hlt; lia |].
      apply list_elem_of_In, elem_of_seqZ in Hin.
      pose proof (submask_bit msk key1 t ltac:(lia)) as Hb1.
      pose proof (submask_bit msk key2 t ltac:(lia)) as Hb2.
      rewrite Ht in Hb1, Hb2. congruence.
    + now rewrite (bits_above key1 _ j H1 Hge), (bits_above key2 _ j H2 Hge).
Qed.

End Submasks.

(** ** The tables of [init_bitboards] (bitboard.cpp) *)

Section BoardTables.

Import Bitboard.

(** X20: the tables [init_bitboards] fills by shifting. A square is in
    [FileBB[f]] exactly when it is on file [f], and in [RankBB[r]]
    when it is on rank [r]; it is in [NeighboringFilesBB[f]] when its
    file is next to [f], and in [ThisAndNeighboringFilesBB[f]] when it
    is on [f] or next to it; it is in [InFrontBB[WHITE][r]] when its
    rank is above [r] and in [InFrontBB[BLACK][r]] when it is below;
    [SetMaskBB[s]] holds [s] alone and [ClearMaskBB[s]] all the squares
    but [s]. *)
Theorem init_bitboards_tables (s t f : Z) :
  0 <= s < 64 -> 0 <= t < 64 -> 0 <= f < 8 ->
  Z.testbit (getZ FileBB f) s = (square_file s =? f)
  /\ Z.testbit (getZ RankBB f) s = (square_rank s =? f)
  /\ Z.testbit (getZ NeighboringFilesBB f) s
     = (Z.abs (square_file s - f) =? 1)
  /\ Z.testbit (getZ ThisAndNeighboringFilesBB f) s
     = (Z.abs (square_file s - f) <=? 1)
  /\ Z.testbit (getZ (fst InFrontBB) f) s = (f <? square_rank s)
  /\ Z.testbit (getZ (snd InFrontBB) f) s = (square_rank s <? f)
  /\ Z.testbit (getZ SetMaskBB s) t = (t =? s)
  /\ Z.testbit (getZ ClearMaskBB s) t = negb (t =? s).
Proof.
  intros Hs Ht Hf.
  assert (Hall1 : forallb (fun s => forallb (fun f =>
            eqb (Z.testbit (getZ FileBB f) s) (square_file s =? f)
            && eqb (Z.testbit (getZ RankBB f) s) (square_rank s =? f)
            && eqb (Z.testbit (getZ NeighboringFilesBB f) s)
                   (Z.abs (square_file s - f) =? 1)
            && eqb (Z.testbit (getZ ThisAndNeighboringFilesBB f) s)
                   (Z.abs (square_file s - f) <=? 1)
            && eqb (Z.testbit (getZ (fst InFrontBB) f) s)
                   (f <? square_rank s)
            && eqb (Z.testbit (getZ (snd InFrontBB) f) s)
                   (square_rank s <? f))
            (seqZ 0 8)) (seqZ 0 64) = true) by (vm_compute; reflexivity).
  assert (Hall2 : forallb (fun s => forallb (fun t =>
            eqb (Z.testbit (getZ SetMaskBB s) t) (t =? s)
            && eqb (Z.testbit (getZ ClearMaskBB s) t) (negb (t =? s)))
            (seqZ 0 64)) (seqZ 0 64) = true) by (vm_compute; reflexivity).
  pose proof (check_range _ 0 64 s Hall1 ltac:(lia)) as H1. cbv beta in H1.
  pose proof (check_range _ 0 8 f H1 ltac:(lia)) as H1'. cbv beta in H1'.
  pose proof (check_range _ 0 64 s Hall2 ltac:(lia)) as H2. cbv beta in H2.
  pose proof (check_range _ 0 64 t H2 ltac:(lia)) as H2'. cbv beta in H2'.
  clear Hall1 Hall2 H1 H2. boolean_facts. repeat split; assumption.
Qed.

Lemma init_bitboards_tables_witness :
  Z.testbit (getZ (fst InFrontBB) 3) 36 = true
  /\ Z.testbit (getZ NeighboringFilesBB 4) 36 = false.
Proof.
  destruct (init_bitboards_tables 36 0 3 ltac:(lia) ltac:(lia) ltac:(lia))
    as (_ & _ & _ & _ & Hfront & _).
  destruct (init_bitboards_tables 36 0 4 ltac:(lia) ltac:(lia) ltac:(lia))
    as (_ & _ & Hnext & _).
  split; [rewrite Hfront | rewrite Hnext]; reflexivity.
Defined.

(** X21: the step attacks [init_bitboards] computes. A king attacks
    the squares at distance 1; a knight the squares one file and two
    ranks, or two files and one rank, away; a pawn the squares one file
    away on the next rank, up the board for white and down for black;
    bishops, rooks and queens get no step attacks. The attacks of king
    and knight are the same for both colours and symmetric. *)
Theorem step_attacks_spec (c s t : Z) :
  0 <= c <= 1 -> 0 <= s < 64 -> 0 <= t < 64 ->
  Z.testbit (StepAttacksBB c 6 s) t = (square_distance s t =? 1)
  /\ Z.testbit (StepAttacksBB c 2 s) t
     = ((file_distance s t =? 1) && (rank_distance s t =? 2))
       || ((file_distance s t =? 2) && (rank_distance s t =? 1))
  /\ Z.testbit (StepAttacksBB c 1 s) t
     = (file_distance s t =? 1)
       && (square_rank t =? square_rank s + (if c =? 0 then 1 else -1))
  /\ StepAttacksBB c 3 s = 0 /\ StepAttacksBB c 4 s = 0
  /\ StepAttacksBB c 5 s = 0
  /\ Z.testbit (StepAttacksBB c 6 t) s = Z.testbit (StepAttacksBB c 6 s) t
  /\ Z.testbit (StepAttacksBB c 2 t) s = Z.testbit (StepAttacksBB c 2 s) t
  /\ Z.testbit (StepAttacksBB (1 - c) 1 t) s
     = Z.testbit (StepAttacksBB c 1 s) t.
Proof.
  intros Hc Hs Ht.
  assert (Hall : forallb (fun c => forallb (fun s => forallb (fun t =>
            eqb (Z.testbit (StepAttacksBB c 6 s) t) (square_distance s t =? 1)
            && eqb (Z.testbit (StepAttacksBB c 2 s) t)
                 (((file_distance s t =? 1) && (rank_distance s t =? 2))
                  || ((file_distance s t =? 2) && (rank_distance s t =? 1)))
            && eqb (Z.testbit (StepAttacksBB c 1 s) t)
                 ((file_distance s t =? 1)
                  && (square_rank t
                      =? square_rank s + (if c =? 0 then 1 else -1)))
            && (StepAttacksBB c 3 s =? 0) && (StepAttacksBB c 4 s =? 0)
            && (StepAttacksBB c 5 s =? 0)
            && eqb (Z.testbit (StepAttacksBB c 6 t) s)
                   (Z.testbit (StepAttacksBB c 6 s) t)
            && eqb (Z.testbit (StepAttacksBB c 2 t) s)
                   (Z.testbit (StepAttacksBB c 2 s) t)
            && eqb (Z.testbit (StepAttacksBB (1 - c) 1 t) s)
                   (Z.testbit (StepAttacksBB c 1 s) t))
            (seqZ 0 64)) (seqZ 0 64)) (seqZ 0 2) = true)
    by (vm_compute; reflexivity).
  pose proof (check_range _ 0 2 c Hall ltac:(lia)) as H1. cbv beta in H1.
  pose proof (check_range _ 0 64 s H1 ltac:(lia)) as H2. cbv beta in H2.
  pose proof (check_range _ 0 64 t H2 ltac:(lia)) as H3. cbv beta in H3.
  clear Hall H1 H2. boolean_facts. repeat split; assumption.
Qed.

Lemma step_attacks_spec_witness :
  Z.testbit (StepAttacksBB 0 2 1) 18 = true
  /\ Z.testbit (StepAttacksBB 1 1 8) 1 = true.
Proof.
  destruct (step_attacks_spec 0 1 18 ltac:(lia) ltac:(lia) ltac:(lia))
    as (_ & Hn & _).
  destruct (step_attacks_spec 1 8 1 ltac:(lia) ltac:(lia) ltac:(lia))
    as (_ & _ & Hp & _).
  split; [rewrite Hn | rewrite Hp]; reflexivity.
Defined.

End BoardTables.

(** ** The option registry and the [setoption] command (ucioption.cpp,
    uci.cpp) *)

Section OptionRegistry.

Import UCI.
Context {Position : Type}.

Lemma append_cons (c : Ascii.ascii) (w r : string) :
  String.append (String c w) r = String c (String.append w r).
Proof. reflexivity. Qed.

Lemma append_nil (r : string) : String.append EmptyString r = r.
Proof. reflexivity. Qed.

Lemma read_token_start (w rest : string) :
  is_token w ->
  read_token (String.append w rest) = Some (read_word (String.append w rest)).
Proof.
  intros [Hne Hns]. destruct w as [|c w]; [congruence|].
  rewrite append_cons. unfold read_token. simpl in Hns.
  apply andb_true_iff in Hns as [Hc _]. apply negb_true_iff in Hc.
  cbn [skip_ws]. now rewrite Hc.
Qed.

Lemma read_word_no_space (w : string) :
  no_space w = true -> read_word w = (w, EmptyString).
Proof.
  induction w as [|c w IH]; simpl; [reflexivity|].
  intros Hns. apply andb_true_iff in Hns as [Hc Hw].
  apply negb_true_iff in Hc. rewrite Hc, (IH Hw). reflexivity.
Qed.

Lemma append_empty_r (w : string) : String.append w EmptyString = w.
Proof.
  induction w as [|c w IH]; [reflexivity|].
  rewrite append_cons. f_equal. exact IH.
Qed.

Lemma read_token_token (w : string) :
  is_token w -> read_token w = Some (w, EmptyString).
Proof.
  intros Hw. pose proof (read_token_start w EmptyString Hw) as Hs.
  rewrite append_empty_r in Hs. rewrite Hs.
  now rewrite (read_word_no_space _ (proj2 Hw)).
Qed.

Lemma blanks_cons (n : nat) :
  exists r, blanks n = String Ascii.Space r.
Proof. destruct n; simpl; eauto. Qed.

Lemma read_word_before_space (w r : string) (c : Ascii.ascii) :
  no_space w = true -> is_space c = true ->
  read_word (String.append w (String c r)) = (w, String c r).
Proof.
  intros Hns Hc. induction w as [|a w IH].
  - rewrite append_nil. simpl. now rewrite Hc.
  - rewrite append_cons. simpl in *.
    apply andb_true_iff in Hns as [Ha Hw].
    apply negb_true_iff in Ha. rewrite Ha, (IH Hw). reflexivity.
Qed.

Lemma read_token_word (w : string) (n : nat) (rest : string) :
  is_token w ->
  read_token (String.append w (String.append (blanks n) rest)) =
    Some (w, String.append (blanks n) rest).
Proof.
  intros Hw. rewrite (read_token_start _ _ Hw).
  destruct (blanks_cons n) as [r ->]. rewrite append_cons.
  now rewrite (read_word_before_space w _ Ascii.Space (proj2 Hw) eq_refl).
Qed.

(** X23: on a registered option, [set_option_value] followed by a read
    gives the value back: [get_option_value_string] returns it when it
    is one token (a word without white space), [get_option_value_bool]
    tells whether it is the text [true]; every other option, the
    position and the output are left as they were. *)
Theorem option_value_round_trip
    (name v : string) (o : Option) (st : UCI.Engine Position) :
  UCI.options Position st !! name = Some o ->
  let st' := UCI.set_option_value Position name v st in
  (UCI.is_token v -> UCI.get_option_value_string Position name st' = v)
  /\ UCI.get_option_value_bool Position name st' = String.eqb v "true"
  /\ (forall other, other <> name ->
        UCI.options Position st' !! other = UCI.options Position st !! other)
  /\ UCI.pos Position st' = UCI.pos Position st
  /\ UCI.output Position st' = UCI.output Position st.
Proof.
  intros Ho st'. subst st'. unfold set_option_value. rewrite Ho.
  unfold get_option_value_string, get_option_value_bool. simpl.
  rewrite lookup_insert_eq. simpl.
  repeat split.
  - intros Hv. now rewrite (read_token_token v Hv).
  - intros other Hne. now rewrite lookup_insert_ne by congruence.
Qed.

(** X24: a value of several words is cut at its first white space by
    [get_option_value_string]: after [set_option_value] with the words
    [w] and [rest] separated by spaces, the read gives [w] alone. *)
Theorem option_value_first_word
    (name w rest : string) (n : nat) (o : Option) (st : UCI.Engine Position) :
  UCI.options Position st !! name = Some o ->
  UCI.is_token w ->
  UCI.get_option_value_string Position name
    (UCI.set_option_value Position name
       (String.append w (String.append (UCI.blanks n) rest)) st) = w.
Proof.
  intros Ho Hw. unfold set_option_value. rewrite Ho.
  unfold get_option_value_string. simpl. rewrite lookup_insert_eq. simpl.
  now rewrite (read_token_word w n rest Hw).
Qed.

(** X25: a button is seen pressed once: after [push_button] on a
    registered button, [button_was_pressed] answers [true] and resets
    it, so that the next call answers [false] and changes nothing. *)
Theorem button_pressed_once
    (name : string) (o : Option) (st : UCI.Engine Position) :
  UCI.options Position st !! name = Some o ->
  let '(first, st1) :=
    UCI.button_was_pressed Position name (UCI.push_button Position name st) in
  let '(second, st2) := UCI.button_was_pressed Position name st1 in
  first = true /\ second = false /\ st2 = st1
  /\ UCI.options Position st1 =
       <[name := UCI.set_currentValue "false" o]> (UCI.options Position st).
Proof.
  intros Ho. unfold push_button, button_was_pressed, set_option_value,
    get_option_value_bool. rewrite Ho. simpl.
  repeat (rewrite lookup_insert_eq; simpl).
  repeat split. unfold set_options, set_currentValue. simpl.
  now rewrite insert_insert_eq.
Qed.

End OptionRegistry.

(** Setting [Hash] to [64] and reading it back. *)
Lemma option_value_round_trip_witness :
  UCI.get_option_value_string unit "Hash"
    (UCI.set_option_value unit "Hash" "64" UCI.example_engine) = "64"%string
  /\ UCI.get_option_value_bool unit "Hash"
       (UCI.set_option_value unit "Hash" "64" UCI.example_engine) = false.
Proof.
  pose proof (option_value_round_trip "Hash" "64"
                (UCI.mkOption "32" "32" UCI.SPIN 4 4096 [])
                UCI.example_engine eq_refl) as (Hs & Hb & _).
  split; [apply Hs; split; [discriminate | reflexivity] | exact Hb].
Defined.

(** A log file name with a space in it is read back up to the space. *)
Lemma option_value_first_word_witness :
  UCI.get_option_value_string unit "Search Log Filename"
    (UCI.set_option_value unit "Search Log Filename" "my log.txt"
       UCI.example_registry) = "my"%string.
Proof.
  apply (option_value_first_word "Search Log Filename" "my" "log.txt" 0
           (UCI.mkOption "SearchLog.txt" "SearchLog.txt" UCI.STRING 0 0 [])
           UCI.example_registry eq_refl).
  split; [discriminate | reflexivity].
Defined.

(** The button [Clear Hash] of the example registry. *)
Lemma button_pressed_once_witness :
  fst (UCI.button_was_pressed unit "Clear Hash"
         (UCI.push_button unit "Clear Hash" UCI.example_registry)) = true
  /\ fst (UCI.button_was_pressed unit "Clear Hash"
            (snd (UCI.button_was_pressed unit "Clear Hash"
                    (UCI.push_button unit "Clear Hash"
                       UCI.example_registry)))) = false.
Proof.
  pose proof (button_pressed_once "Clear Hash"
                (UCI.mkOption "false" "false" UCI.BUTTON 0 0 [])
                UCI.example_registry eq_refl) as Hb.
  destruct (UCI.button_was_pressed unit "Clear Hash"
              (UCI.push_button unit "Clear Hash" UCI.example_registry))
    as [first st1].
  cbn [fst snd].
  destruct (UCI.button_was_pressed unit "Clear Hash" st1) as [second st2].
  cbn [fst]. destruct Hb as (H1 & H2 & _). split; assumption.
Defined.


Section SetOptionCommand.

Import UCI.
Context {Position : Type} `{H : Handlers Position}.

Lemma append_assoc (a b c : string) :
  String.append (String.append a b) c = String.append a (String.append b c).
Proof.
  induction a as [|x a IH]; [reflexivity|].
  rewrite !append_cons. f_equal. exact IH.
Qed.

Lemma append_length (a b : string) :
  String.length (String.append a b) = (String.length a + String.length b)%nat.
Proof.
  induction a as [|x a IH]; [reflexivity|].
  rewrite append_cons. simpl. now rewrite IH.
Qed.

Lemma append_not_empty (a b : string) :
  b <> EmptyString -> String.append a b <> EmptyString.
Proof.
  intros Hb. destruct a as [|x a]; [exact Hb|].
  rewrite append_cons. discriminate.
Qed.

Lemma skip_ws_blanks (n : nat) (s : string) :
  skip_ws (String.append (blanks n) s) = skip_ws s.
Proof.
  induction n as [|n IH]; cbn [blanks].
  - rewrite append_cons, append_nil. reflexivity.
  - rewrite append_cons, append_nil, append_cons. cbn [skip_ws].
    change (is_space Ascii.Space) with true. cbv iota. exact IH.
Qed.

Lemma read_token_blanks (n : nat) (s : string) :
  read_token (String.append (blanks n) s) = read_token s.
Proof. unfold read_token. now rewrite skip_ws_blanks. Qed.

Lemma read_token_before_render (w : string) (rest : list (nat * string)) :
  is_token w ->
  read_token (String.append w (render rest)) = Some (w, render rest).
Proof.
  intros Hw. destruct rest as [|[m w'] rest]; cbn [render].
  - rewrite append_empty_r. now apply read_token_token.
  - now apply read_token_word.
Qed.

Lemma read_token_render (n : nat) (w : string) (rest : list (nat * string)) :
  is_token w ->
  read_token (render ((n, w) :: rest)) = Some (w, render rest).
Proof.
  intros Hw. cbn [render]. rewrite read_token_blanks.
  now apply read_token_before_render.
Qed.

Lemma tokens_fuel_render (ws : list (nat * string)) (fuel : nat) :
  Forall is_token (map snd ws) -> (length ws < fuel)%nat ->
  tokens_fuel fuel (render ws) = map snd ws.
Proof.
  revert fuel. induction ws as [|[n w] ws IH]; intros fuel Hall Hlt.
  - destruct fuel; reflexivity.
  - destruct fuel as [|fuel]; [simpl in Hlt; lia|].
    cbn [map snd] in Hall. apply Forall_cons in Hall as [Hw Hall].
    cbn [tokens_fuel]. rewrite (read_token_render n w ws Hw).
    cbn [map snd]. f_equal. apply IH; [exact Hall | simpl in Hlt; lia].
Qed.

Lemma render_length (ws : list (nat * string)) :
  (length ws <= String.length (render ws))%nat.
Proof.
  induction ws as [|[n w] ws IH]; [simpl; lia|].
  cbn [render]. rewrite !append_length.
  assert (1 <= String.length (blanks n))%nat by (destruct n; simpl; lia).
  simpl. lia.
Qed.

Lemma tokens_render (ws : list (nat * string)) :
  Forall is_token (map snd ws) -> tokens (render ws) = map snd ws.
Proof.
  intros Hall. unfold tokens. apply tokens_fuel_render; [exact Hall|].
  pose proof (render_length ws). lia.
Qed.

Lemma split_at_value_app (ns vs : list string) :
  Forall (fun w => w <> "value"%string) ns ->
  split_at_value (ns ++ "value"%string :: vs) = (ns, vs).
Proof.
  induction ns as [|w ns IH]; intros Hall; [reflexivity|].
  apply Forall_cons in Hall as [Hw Hall].
  rewrite <- app_comm_cons. cbn [split_at_value].
  apply String.eqb_neq in Hw. rewrite Hw, (IH Hall). reflexivity.
Qed.

Lemma split_at_value_none (ns : list string) :
  Forall (fun w => w <> "value"%string) ns ->
  split_at_value ns = (ns, []).
Proof.
  induction ns as [|w ns IH]; intros Hall; [reflexivity|].
  apply Forall_cons in Hall as [Hw Hall]. cbn [split_at_value].
  apply String.eqb_neq in Hw. rewrite Hw, (IH Hall). reflexivity.
Qed.

Lemma join_from (ws : list string) (acc : string) :
  acc <> EmptyString -> Forall is_token ws ->
  fold_left
    (fun acc w =>
       String.append
         (String.append acc (if String.eqb acc EmptyString then EmptyString else " ")) w)
    ws acc =
    match ws with
    | [] => acc
    | _ => String.append acc (String.append " " (String.concat " " ws))
    end.
Proof.
  revert acc. induction ws as [|w ws IH]; intros acc Hacc Hall;
    [reflexivity|].
  apply Forall_cons in Hall as [Hw Hall]. cbn [fold_left].
  assert (Hstep :
    String.append (String.append acc (if String.eqb acc EmptyString then EmptyString else " "))
                  w = String.append acc (String.append " " w)).
  { apply String.eqb_neq in Hacc. rewrite Hacc.
    apply append_assoc. }
  rewrite Hstep, IH; [| apply append_not_empty, append_not_empty, Hw | exact Hall].
  destruct ws as [|w' ws]; [reflexivity|].
  cbn [String.concat]. now rewrite !append_assoc.
Qed.

Lemma join_tokens_concat (ws : list string) :
  Forall is_token ws -> join_tokens ws = String.concat " " ws.
Proof.
  intros Hall. unfold join_tokens.
  destruct ws as [|w ws]; [reflexivity|].
  apply Forall_cons in Hall as [Hw Hall]. cbn [fold_left].
  change (String.append
            (String.append EmptyString
               (if String.eqb EmptyString EmptyString
                then EmptyString else " ")) w)
    with w.
  rewrite join_from; [| exact (proj1 Hw) | exact Hall].
  destruct ws; reflexivity.
Qed.

Lemma concat_empty (ws : list string) :
  Forall is_token ws ->
  String.eqb (String.concat " " ws) EmptyString =
    match ws with [] => true | _ => false end.
Proof.
  intros Hall. destruct ws as [|w ws]; [reflexivity|].
  apply Forall_cons in Hall as [[Hw _] _]. apply String.eqb_neq.
  destruct ws as [|w' ws]; cbn [String.concat]; [exact Hw|].
  destruct w; [congruence|]. rewrite append_cons. discriminate.
Qed.

Lemma parse_setoption_render
    (a b : nat) (ns vs : list (nat * string)) :
  Forall is_token (map snd ns) ->
  Forall (fun w => w <> "value"%string) (map snd ns) ->
  Forall is_token (map snd vs) ->
  parse_setoption (render ((a, "name"%string) :: ns ++ (b, "value"%string) :: vs))
    = (String.concat " " (map snd ns), String.concat " " (map snd vs))
  /\ parse_setoption (render ((a, "name"%string) :: ns))
    = (String.concat " " (map snd ns), EmptyString).
Proof.
  intros Hns Hnv Hvs.
  assert (Hname : is_token "name") by (split; [discriminate|reflexivity]).
  assert (Hvalue : is_token "value") by (split; [discriminate|reflexivity]).
  unfold parse_setoption. rewrite !(read_token_render _ _ _ Hname).
  rewrite !tokens_render.
  - rewrite map_app. cbn [map snd].
    rewrite (split_at_value_app _ _ Hnv), (split_at_value_none _ Hnv).
    rewrite !join_tokens_concat by assumption. split; reflexivity.
  - exact Hns.
  - rewrite map_app. cbn [map snd]. apply Forall_app. split; [exact Hns|].
    apply Forall_cons. split; assumption.
Qed.

(** X26: the command [setoption name <words> value <words>] sets the
    registered option whose name is the name words joined by single
    spaces to the value words joined by single spaces, whatever the
    number of spaces between the words of the command; without value
    words, or without the word [value], the option is set to [true]. *)
Theorem setoption_command
    (a b : nat) (ns vs : list (nat * string)) (o : UCI.Option)
    (st : UCI.Engine Position) :
  Forall UCI.is_token (map snd ns) ->
  Forall (fun w => w <> "value"%string) (map snd ns) ->
  Forall UCI.is_token (map snd vs) ->
  UCI.options Position st !! String.concat " " (map snd ns) = Some o ->
  UCI.execute_uci_command Position
    (String.append "setoption"
       (UCI.render ((a, "name"%string) :: ns ++ (b, "value"%string) :: vs))) st
  = (true,
     UCI.set_options Position
       (<[String.concat " " (map snd ns) :=
            UCI.set_value Position
              (match vs with
               | [] => "true"%string
               | _ => String.concat " " (map snd vs)
               end) o]> (UCI.options Position st)) st)
  /\ UCI.execute_uci_command Position
       (String.append "setoption" (UCI.render ((a, "name"%string) :: ns))) st
     = (true,
        UCI.set_options Position
          (<[String.concat " " (map snd ns) := UCI.set_value Position "true" o]>
             (UCI.options Position st)) st).
Proof.
  intros Hns Hnv Hvs Ho.
  assert (Hso : is_token "setoption") by (split; [discriminate|reflexivity]).
  destruct (parse_setoption_render a b ns vs Hns Hnv Hvs) as [Hp1 Hp2].
  unfold execute_uci_command, first_token.
  rewrite !(read_token_before_render _ _ Hso).
  cbn [String.eqb Ascii.eqb Bool.eqb]. cbv iota.
  unfold set_option. rewrite Hp1, Hp2, Ho.
  rewrite (concat_empty _ Hvs). split; [|reflexivity].
  destruct vs; reflexivity.
Qed.

End SetOptionCommand.

(** The command names the option [Search Log Filename] with two spaces
    before each word. *)
Lemma setoption_command_witness :
  UCI.execute_uci_command unit (H := UCI.example_handlers)
    "setoption  name  Search  Log  Filename  value  my.log"
    UCI.example_registry
  = (true,
     UCI.set_options unit
       (<["Search Log Filename"%string :=
            UCI.mkOption "SearchLog.txt" "my.log" UCI.STRING 0 0 []]>
          (UCI.options unit UCI.example_registry)) UCI.example_registry).
Proof.
  refine (proj1 (setoption_command (H := UCI.example_handlers) 1 1
            [(1%nat, "Search"%string); (1%nat, "Log"%string);
             (1%nat, "Filename"%string)]
            [(1%nat, "my.log"%string)]
            (UCI.mkOption "SearchLog.txt" "SearchLog.txt" UCI.STRING 0 0 [])
            UCI.example_registry _ _ _ _)).
  - repeat constructor; discriminate.
  - repeat constructor; discriminate.
  - repeat constructor; discriminate.
  - reflexivity.
Defined.

(** ** The scan for a backward pawn (pawns.cpp) *)

Section BackwardScan.

Import Bitboard Pawns.

Lemma testbit_nonneg (b u : Z) : Z.testbit b u = true -> 0 <= u.
Proof.
  intros Hb. destruct (Z_lt_le_dec u 0) as [Hneg|]; [|assumption].
  rewrite (Z.testbit_neg_r _ _ Hneg) in Hb. discriminate.
Qed.

Lemma testbit_board (b u : Z) :
  0 <= b < 2 ^ 64 -> Z.testbit b u = true -> 0 <= u < 64.
Proof.
  intros Hb Hu. split; [now apply testbit_nonneg in Hu|].
  destruct (Z_lt_le_dec u 64) as [|Hge]; [assumption|].
  rewrite (bits_above b 64 u Hb Hge) in Hu. discriminate.
Qed.

Lemma next_rank_board (white : bool) (b : Z) :
  0 <= b < 2 ^ 64 -> 0 <= next_rank white b < 2 ^ 64.
Proof.
  intros Hb. unfold next_rank, wrap64. destruct white.
  - apply Z.mod_pos_bound. lia.
  - rewrite Z.shiftr_div_pow2 by lia. split.
    + apply Z.div_pos; lia.
    + apply Z.div_lt_upper_bound; lia.
Qed.

Lemma next_rank_bit (white : bool) (b u : Z) :
  0 <= ranks_ahead white u 1 < 64 ->
  Z.testbit (next_rank white b) (ranks_ahead white u 1) = Z.testbit b u.
Proof.
  unfold next_rank, ranks_ahead, wrap64. destruct white; intros Hr.
  - rewrite Z.mod_pow2_bits_low by lia. rewrite Z.shiftl_spec by lia.
    f_equal. lia.
  - rewrite Z.shiftr_spec by lia. f_equal. lia.
Qed.

Lemma next_rank_bit_inv (white : bool) (b v : Z) :
  0 <= b < 2 ^ 64 ->
  Z.testbit (next_rank white b) v = true ->
  exists u, v = ranks_ahead white u 1 /\ Z.testbit b u = true.
Proof.
  intros Hb Hv.
  pose proof (testbit_board _ _ (next_rank_board white b Hb) Hv) as Hrange.
  exists (ranks_ahead (negb white) v 1).
  assert (Hback : v = ranks_ahead white (ranks_ahead (negb white) v 1) 1)
    by (unfold ranks_ahead; destruct white; simpl; lia).
  split; [exact Hback|].
  rewrite <- (next_rank_bit white b); [rewrite <- Hback; exact Hv|].
  rewrite <- Hback. exact Hrange.
Qed.

Lemma ranks_ahead_succ (white : bool) (u k : Z) :
  ranks_ahead white (ranks_ahead white u 1) k = ranks_ahead white u (k + 1).
Proof. unfold ranks_ahead. destruct white; lia. Qed.

Lemma ranks_ahead_0 (white : bool) (u : Z) : ranks_ahead white u 0 = u.
Proof. unfold ranks_ahead. destruct white; lia. Qed.

Lemma land_bit (b p t : Z) :
  Z.testbit b t = true -> Z.testbit p t = true -> (Z.land b p =? 0) = false.
Proof.
  intros Hb Hp. apply Z.eqb_neq. intros Hz.
  assert (Ht : Z.testbit (Z.land b p) t = true)
    by (rewrite Z.land_spec, Hb, Hp; reflexivity).
  rewrite Hz, Z.bits_0 in Ht. discriminate.
Qed.

(** A pawn [k] ranks ahead of a square of [b] stops the scan within
    [k + 1] rounds. *)
Lemma backward_scan_reaches (white : bool) (pawns : Z) (k : nat) :
  forall b u,
    0 <= b < 2 ^ 64 ->
    Z.testbit b u = true ->
    0 <= ranks_ahead white u (Z.of_nat k) < 64 ->
    Z.testbit pawns (ranks_ahead white u (Z.of_nat k)) = true ->
    forall extra : nat,
      exists b', backward_scan (S k + extra) white b pawns = Some b'
                 /\ (Z.land b' pawns =? 0) = false.
Proof.
  induction k as [|k IH]; intros b u Hb Hu Hrange Hp extra.
  - rewrite ranks_ahead_0 in Hp. cbn [backward_scan Nat.add].
    rewrite (land_bit _ _ _ Hu Hp). exists b. split; [reflexivity|].
    exact (land_bit _ _ _ Hu Hp).
  - cbn [backward_scan Nat.add].
    destruct (Z.land b pawns =? 0) eqn:Hz; [| now exists b].
    pose proof (testbit_board _ _ Hb Hu) as Hu0.
    assert (H1 : 0 <= ranks_ahead white u 1 < 64)
      by (unfold ranks_ahead in *; destruct white; lia).
    replace (Z.of_nat (S k)) with (Z.of_nat k + 1) in Hrange, Hp by lia.
    rewrite <- ranks_ahead_succ in Hrange, Hp.
    apply (IH (next_rank white b) (ranks_ahead white u 1));
      [now apply next_rank_board | rewrite (next_rank_bit _ _ _ H1); exact Hu
      | exact Hrange | exact Hp].
Qed.

(** Without a pawn straight ahead of a square of [b], no number of
    rounds ends the scan. *)
Lemma backward_scan_runs_on (white : bool) (pawns : Z) (fuel : nat) :
  forall b,
    0 <= b < 2 ^ 64 ->
    (forall u k, Z.testbit b u = true -> 0 <= k ->
                 0 <= ranks_ahead white u k < 64 ->
                 Z.testbit pawns (ranks_ahead white u k) = false) ->
    backward_scan fuel white b pawns = None.
Proof.
  induction fuel as [|fuel IH]; intros b Hb Hnone; [reflexivity|].
  cbn [backward_scan].
  assert (Hz : Z.land b pawns = 0).
  { apply Z.bits_inj'. intros n Hn. rewrite Z.land_spec, Z.bits_0.
    destruct (Z.testbit b n) eqn:Hbn; [|reflexivity]. cbn [andb].
    pose proof (testbit_board _ _ Hb Hbn) as Hr.
    specialize (Hnone n 0 Hbn (Z.le_refl 0)).
    rewrite ranks_ahead_0 in Hnone. now apply Hnone. }
  rewrite Hz. cbn [Z.eqb]. apply IH; [now apply next_rank_board|].
  intros v k Hv Hk Hrange.
  destruct (next_rank_bit_inv white b v Hb Hv) as (u & -> & Hu).
  rewrite ranks_ahead_succ in *. apply Hnone; [exact Hu | lia | exact Hrange].
Qed.

(** X27: the scan for a backward pawn ends exactly when a pawn stands
    straight ahead (as the side sees it) of a square of the set it starts
    from, the square itself included, and then within eight rounds, on a
    set that meets the pawns; otherwise it runs on whatever the number
    of rounds. *)
Theorem backward_scan_ends (white : bool) (b pawns : Z) :
  0 <= b < 2 ^ 64 ->
  ((exists u k, Z.testbit b u = true /\ 0 <= k
                /\ 0 <= Pawns.ranks_ahead white u k < 64
                /\ Z.testbit pawns (Pawns.ranks_ahead white u k) = true) ->
   exists b', Pawns.backward_scan 8 white b pawns = Some b'
              /\ Z.land b' pawns <> 0)
  /\ ((forall u k, Z.testbit b u = true -> 0 <= k ->
                   0 <= Pawns.ranks_ahead white u k < 64 ->
                   Z.testbit pawns (Pawns.ranks_ahead white u k) = false) ->
      forall fuel, Pawns.backward_scan fuel white b pawns = None).
Proof.
  intros Hb. split.
  - intros (u & k & Hu & Hk & Hrange & Hp).
    pose proof (testbit_board _ _ Hb Hu) as Hur.
    assert (Hk7 : k <= 7) by (unfold ranks_ahead in Hrange; destruct white; lia).
    rewrite <- (Z2Nat.id k Hk) in Hrange, Hp.
    destruct (backward_scan_reaches white pawns (Z.to_nat k) b u Hb Hu Hrange Hp
                (7 - Z.to_nat k)) as (b' & Hscan & Hmeet).
    replace (S (Z.to_nat k) + (7 - Z.to_nat k))%nat with 8%nat in Hscan by lia.
    exists b'. split; [exact Hscan|]. now apply Z.eqb_neq.
  - intros Hnone fuel. now apply backward_scan_runs_on.
Qed.

End BackwardScan.

(** A white pawn on e4 with a white pawn on d6 and a black pawn on f7:
    the scan from d5 and f5 stops after one shift, on d6 and f6. *)
Lemma backward_scan_ends_witness :
  exists b', Pawns.backward_scan 8 true (2 ^ 35 + 2 ^ 37) (2 ^ 43 + 2 ^ 53)
             = Some b'
             /\ Z.land b' (2 ^ 43 + 2 ^ 53) <> 0.
Proof.
  apply (proj1 (backward_scan_ends true (2 ^ 35 + 2 ^ 37) (2 ^ 43 + 2 ^ 53)
                  ltac:(lia))).
  exists 35, 1. repeat split; try reflexivity; vm_compute; congruence.
Defined.

(** ** The squares between two squares (bitboard.cpp) *)

Section BetweenSquares.

Import Bitboard.

Lemma between_loop_more (fuel : nat) :
  forall s3 s2 d bb r (extra : nat),
    between_loop fuel s3 s2 d bb = Some r ->
    between_loop (fuel + extra) s3 s2 d bb = Some r.
Proof.
  induction fuel as [|fuel IH]; intros s3 s2 d bb r extra Hrun;
    [discriminate|].
  cbn [between_loop Nat.add] in *.
  destruct (s3 =? s2); [exact Hrun|]. now apply IH.
Qed.

Lemma BetweenBB_more (fuel extra : nat) (queen : list Z) (s1 s2 r : Z) :
  BetweenBB fuel queen s1 s2 = Some r ->
  BetweenBB (fuel + extra) queen s1 s2 = Some r.
Proof.
  unfold BetweenBB. destruct (bit_is_set (getZ queen s1) s2); [|trivial].
  cbv zeta. destruct (Z.max _ _ =? 0); [trivial|].
  apply between_loop_more.
Qed.

Lemma BetweenBB_table (fuel : nat) (queen queen' : list Z) (s1 s2 : Z) :
  getZ queen s1 = getZ queen' s1 ->
  BetweenBB fuel queen s1 s2 = BetweenBB fuel queen' s1 s2.
Proof. intros Hq. unfold BetweenBB. now rewrite Hq. Qed.

Lemma getZ_map_seqZ (f : Z -> Z) (n s : Z) :
  0 <= s < n -> getZ (map f (seqZ 0 n)) s = f s.
Proof.
  intros Hs. unfold getZ. rewrite list_lookup_fmap.
  rewrite (lookup_seqZ_lt 0 n (Z.to_nat s)) by (rewrite Z2Nat.id; lia).
  cbn [fmap option_fmap option_map default]. rewrite Z2Nat.id by lia.
  reflexivity.
Qed.

(** X28: when [QueenPseudoAttacks] holds the attacks of a queen on the
    empty board, the loops that fill [BetweenBB] end for every pair of
    squares, within seven rounds, and leave in [BetweenBB[s1][s2]] the
    squares strictly between [s1] and [s2] when the two share a file, a
    rank or a diagonal, and no square otherwise; the table is
    symmetric. *)
Theorem between_bb_spec (queen : list Z) (s1 s2 : Z) :
  (forall s, 0 <= s < 64 ->
     getZ queen s =
       Z.lor (sliding_attacks s EmptyBoardBB BDeltas EmptyBoardBB)
             (sliding_attacks s EmptyBoardBB RDeltas EmptyBoardBB)) ->
  0 <= s1 < 64 -> 0 <= s2 < 64 ->
  exists bb,
    (forall fuel, (7 <= fuel)%nat -> BetweenBB fuel queen s1 s2 = Some bb)
    /\ (forall fuel, (7 <= fuel)%nat -> BetweenBB fuel queen s2 s1 = Some bb)
    /\ 0 <= bb < 2 ^ 64
    /\ forall s3, 0 <= s3 < 64 ->
         Z.testbit bb s3 =
           ((file_distance s1 s2 =? 0) || (rank_distance s1 s2 =? 0)
            || (file_distance s1 s2 =? rank_distance s1 s2))
           && ((square_file s3 - square_file s1)
                 * (square_rank s2 - square_rank s1)
               =? (square_rank s3 - square_rank s1)
                    * (square_file s2 - square_file s1))
           && (square_distance s1 s3 + square_distance s3 s2
               =? square_distance s1 s2)
           && negb (s3 =? s1) && negb (s3 =? s2).
Proof.
  intros Hq Hs1 Hs2.
  set (table := map (fun s =>
         Z.lor (sliding_attacks s EmptyBoardBB BDeltas EmptyBoardBB)
               (sliding_attacks s EmptyBoardBB RDeltas EmptyBoardBB))
         (seqZ 0 64)).
  assert (Htable : forall fuel a b, 0 <= a < 64 ->
            BetweenBB fuel queen a b = BetweenBB fuel table a b).
  { intros fuel a b Ha. apply BetweenBB_table.
    unfold table. rewrite getZ_map_seqZ by exact Ha. now apply Hq. }
  assert (Hall : forallb (fun s1 => forallb (fun s2 =>
            match BetweenBB 7 table s1 s2, BetweenBB 7 table s2 s1 with
            | Some bb, Some bb' =>
                (bb =? bb') && (0 <=? bb) && (bb <? 2 ^ 64)
                && forallb (fun s3 =>
                     eqb (Z.testbit bb s3)
                       (((file_distance s1 s2 =? 0)
                         || (rank_distance s1 s2 =? 0)
                         || (file_distance s1 s2 =? rank_distance s1 s2))
                        && ((square_file s3 - square_file s1)
                              * (square_rank s2 - square_rank s1)
                            =? (square_rank s3 - square_rank s1)
                                 * (square_file s2 - square_file s1))
                        && (square_distance s1 s3 + square_distance s3 s2
                            =? square_distance s1 s2)
                        && negb (s3 =? s1) && negb (s3 =? s2)))
                     (seqZ 0 64)
            | _, _ => false
            end) (seqZ 0 64)) (seqZ 0 64) = true)
    by (vm_compute; reflexivity).
  pose proof (check_range _ 0 64 s1 Hall ltac:(lia)) as H1. cbv beta in H1.
  pose proof (check_range _ 0 64 s2 H1 ltac:(lia)) as H2. cbv beta in H2.
  clear Hall H1.
  destruct (BetweenBB 7 table s1 s2) as [bb|] eqn:H12; [|discriminate].
  destruct (BetweenBB 7 table s2 s1) as [bb'|] eqn:H21; [|discriminate].
  apply andb_true_iff in H2 as [H2 Hbits].
  apply andb_true_iff in H2 as [H2 Hhi].
  apply andb_true_iff in H2 as [Heq Hlo].
  apply Z.eqb_eq in Heq. subst bb'.
  exists bb. split; [|split; [|split]].
  - intros fuel Hfuel. rewrite Htable by exact Hs1.
    replace fuel with (7 + (fuel - 7))%nat by lia.
    now apply BetweenBB_more.
  - intros fuel Hfuel. rewrite Htable by exact Hs2.
    replace fuel with (7 + (fuel - 7))%nat by lia.
    now apply BetweenBB_more.
  - lia.
  - intros s3 Hs3.
    pose proof (check_range _ 0 64 s3 Hbits ltac:(lia)) as H3.
    cbv beta in H3. now apply eqb_prop in H3.
Qed.

End BetweenSquares.

(** Between a1 and h8 lie the squares of the long diagonal: d4 is one
    of them, e4 is not. *)
Lemma between_bb_spec_witness :
  exists bb,
    Bitboard.BetweenBB 7
      (map (fun s =>
              Z.lor (Bitboard.sliding_attacks s 0 Bitboard.BDeltas 0)
                    (Bitboard.sliding_attacks s 0 Bitboard.RDeltas 0))
           (seqZ 0 64)) 0 63 = Some bb
    /\ Z.testbit bb 27 = true /\ Z.testbit bb 28 = false.
Proof.
  destruct (between_bb_spec
              (map (fun s =>
                      Z.lor (Bitboard.sliding_attacks s 0 Bitboard.BDeltas 0)
                            (Bitboard.sliding_attacks s 0 Bitboard.RDeltas 0))
                   (seqZ 0 64)) 0 63
              (fun s Hs => getZ_map_seqZ _ 64 s Hs)
              ltac:(lia) ltac:(lia))
    as (bb & Hrun & _ & _ & Hbits).
  exists bb. split; [apply Hrun; lia|].
  split; [rewrite (Hbits 27) by lia | rewrite (Hbits 28) by lia];
    reflexivity.
Defined.

(** ** Booking the slaves of a split point (thread.cpp) *)

Section SplitBooking.

Import Threads.

Lemma to_nat_ne (i j : Z) : 0 <= i -> 0 <= j -> i <> j -> Z.to_nat i <> Z.to_nat j.
Proof. lia. Qed.

Lemma thread_at_update_eq (i : Z) (f : Thread -> Thread) (ts : list Thread) :
  thread_at (update_thread i f ts) i = f <$> thread_at ts i.
Proof.
  unfold thread_at, update_thread. rewrite list_lookup_alter.
  destruct (decide (Z.to_nat i = Z.to_nat i)); [reflexivity | congruence].
Qed.

Lemma thread_at_update_ne (i j : Z) (f : Thread -> Thread) (ts : list Thread) :
  0 <= i -> 0 <= j -> i <> j ->
  thread_at (update_thread i f ts) j = thread_at ts j.
Proof.
  intros Hi Hj Hne. unfold thread_at, update_thread.
  apply list_lookup_alter_ne. now apply to_nat_ne.
Qed.

Lemma deref_update_sp (M k : Z) (f : SplitPoint -> SplitPoint)
    (ts : list Thread) :
  deref (update_thread M (update_sp k f) ts) (M, k) = f <$> deref ts (M, k).
Proof.
  unfold deref. cbn [fst snd]. rewrite thread_at_update_eq.
  destruct (thread_at ts M) as [t|]; [|reflexivity].
  cbn [fmap option_fmap option_map update_sp splitPoints].
  rewrite list_lookup_alter.
  destruct (decide (Z.to_nat k = Z.to_nat k)); [reflexivity | congruence].
Qed.

Lemma deref_update_other (i M k : Z) (f : Thread -> Thread)
    (ts : list Thread) :
  0 <= i -> 0 <= M -> i <> M ->
  deref (update_thread i f ts) (M, k) = deref ts (M, k).
Proof.
  intros Hi HM Hne. unfold deref. cbn [fst snd].
  now rewrite thread_at_update_ne.
Qed.

(** *** One booking *)

Lemma book_thread_other (i M k j : Z) (m : ThreadsManager) :
  0 <= i -> 0 <= M -> 0 <= j -> j <> i -> j <> M ->
  thread_at (threads (book i M k m)) j = thread_at (threads m) j.
Proof.
  intros Hi HM Hj Hji HjM. unfold book. cbn [threads].
  rewrite !thread_at_update_ne by congruence. reflexivity.
Qed.

Lemma book_thread_booked (i M k : Z) (m : ThreadsManager) :
  0 <= i -> 0 <= M -> i <> M ->
  thread_at (threads (book i M k m)) i
  = booked (M, k) <$> thread_at (threads m) i.
Proof.
  intros Hi HM Hne. unfold book. cbn [threads].
  rewrite thread_at_update_eq, thread_at_update_ne by congruence.
  reflexivity.
Qed.

Lemma book_thread_master (i M k : Z) (m : ThreadsManager) :
  0 <= i -> 0 <= M -> i <> M ->
  thread_at (threads (book i M k m)) M
  = update_sp k (fun sp =>
      set_is_slave (<[Z.to_nat i := true]> (is_slave sp)) sp)
    <$> thread_at (threads m) M.
Proof.
  intros Hi HM Hne. unfold book. cbn [threads].
  rewrite thread_at_update_ne, thread_at_update_eq by congruence.
  reflexivity.
Qed.

Lemma book_deref (i M k : Z) (m : ThreadsManager) :
  0 <= i -> 0 <= M -> i <> M ->
  deref (threads (book i M k m)) (M, k)
  = (fun sp => set_is_slave (<[Z.to_nat i := true]> (is_slave sp)) sp)
    <$> deref (threads m) (M, k).
Proof.
  intros Hi HM Hne. unfold book. cbn [threads].
  rewrite deref_update_other by congruence. apply deref_update_sp.
Qed.

Lemma book_flag (i M k j : Z) (m : ThreadsManager) (sp : SplitPoint) :
  0 <= i -> 0 <= M -> i <> M -> 0 <= j ->
  deref (threads m) (M, k) = Some sp ->
  Z.of_nat (length (is_slave sp)) = MAX_THREADS -> i < MAX_THREADS ->
  is_slave_at (threads (book i M k m)) (M, k) j
  = if j =? i then true else is_slave_at (threads m) (M, k) j.
Proof.
  intros Hi HM Hne Hj Hsp Hlen Hlt. unfold is_slave_at.
  rewrite book_deref, Hsp by assumption.
  cbn [fmap option_fmap option_map]. unfold slave_flag.
  cbn [set_is_slave is_slave].
  destruct (j =? i) eqn:Hji.
  - apply Z.eqb_eq in Hji. subst j.
    rewrite list_lookup_insert_eq by lia. reflexivity.
  - apply Z.eqb_neq in Hji.
    rewrite list_lookup_insert_ne by (apply to_nat_ne; lia). reflexivity.
Qed.

Lemma book_available (i M k j : Z) (m : ThreadsManager) :
  0 <= i -> 0 <= M -> 0 <= j -> j <> i -> j <> M ->
  available (threads (book i M k m)) j M = available (threads m) j M.
Proof.
  intros Hi HM Hj Hji HjM. unfold available.
  now rewrite book_thread_other.
Qed.

(** *** The loop that books the slaves *)

Lemma book_loop_mono (M k : Z) (ids : list Z) :
  forall m w m' w',
    book_loop ids M k m w = (m', w') -> w <= w'.
Proof.
  induction ids as [|i rest IH]; intros m w m' w' Hrun;
    cbn [book_loop] in Hrun.
  - injection Hrun as _ <-. lia.
  - destruct (w <? maxThreadsPerSplitPoint m);
      [| injection Hrun as _ <-; lia].
    destruct (negb (i =? M) && available (threads m) i M).
    + apply IH in Hrun. lia.
    + now apply IH in Hrun.
Qed.

Lemma book_loop_idle (M k : Z) (ids : list Z) (m : ThreadsManager) (w : Z) :
  maxThreadsPerSplitPoint m <= w
  \/ (forall i, In i ids -> i <> M -> available (threads m) i M = false) ->
  book_loop ids M k m w = (m, w).
Proof.
  intros Hidle. induction ids as [|i rest IH]; [reflexivity|].
  cbn [book_loop].
  destruct (w <? maxThreadsPerSplitPoint m) eqn:Hlt; [|reflexivity].
  apply Z.ltb_lt in Hlt. destruct Hidle as [Hmax | Hnone]; [lia|].
  destruct (i =? M) eqn:HiM; cbn [negb andb].
  - apply IH. right. intros j Hj. apply Hnone. now right.
  - apply Z.eqb_neq in HiM. rewrite (Hnone i (or_introl eq_refl) HiM).
    apply IH. right. intros j Hj. apply Hnone. now right.
Qed.

Lemma book_loop_books (M k : Z) (ids : list Z) (m m' : ThreadsManager)
    (w w' : Z) :
  w < maxThreadsPerSplitPoint m ->
  (exists i, In i ids /\ i <> M /\ available (threads m) i M = true) ->
  book_loop ids M k m w = (m', w') -> w < w'.
Proof.
  intros Hlt (i & Hin & HiM & Hav).
  induction ids as [|i0 rest IH]; [destruct Hin|].
  cbn [book_loop]. apply Z.ltb_lt in Hlt. rewrite Hlt. intros Hrun.
  destruct (negb (i0 =? M) && available (threads m) i0 M) eqn:Hbook.
  - apply book_loop_mono in Hrun. lia.
  - destruct Hin as [-> | Hin]; [| now apply IH].
    apply Z.eqb_neq in HiM. rewrite HiM, Hav in Hbook. discriminate.
Qed.

(** *** What the loop leaves *)

Lemma alter_alter {A : Type} (f g : A -> A) (l : list A) :
  forall i : nat, alter f i (alter g i l) = alter (fun x => f (g x)) i l.
Proof.
  induction l as [|x l IH]; intros [|i]; cbn; try reflexivity.
  f_equal. apply IH.
Qed.

Lemma alter_same {A : Type} (f : A -> A) (l : list A) (i : nat) (x : A) :
  l !! i = Some x -> f x = x -> alter f i l = l.
Proof.
  intros Hx Hf. rewrite <- (list_alter_id (fun y => y) l i) at 2
    by reflexivity.
  apply list_alter_ext; [|reflexivity].
  intros y Hy. rewrite Hx in Hy. injection Hy as <-. exact Hf.
Qed.

Lemma set_is_slave_same (sp : SplitPoint) : set_is_slave (is_slave sp) sp = sp.
Proof. destruct sp. reflexivity. Qed.

Lemma update_sp_same (k : Z) (t : Thread) (sp : SplitPoint) :
  splitPoints t !! Z.to_nat k = Some sp ->
  update_sp k (set_is_slave (is_slave sp)) t = t.
Proof.
  intros Hsp. unfold update_sp.
  rewrite (alter_same _ _ _ sp Hsp (set_is_slave_same sp)).
  destruct t. reflexivity.
Qed.

Lemma update_sp_set_twice (k : Z) (flags : list bool)
    (h : SplitPoint -> list bool) (t : Thread) :
  update_sp k (set_is_slave flags)
    (update_sp k (fun sp => set_is_slave (h sp) sp) t)
  = update_sp k (set_is_slave flags) t.
Proof.
  unfold update_sp. cbn [is_searching activeSplitPoints splitPoints splitPoint].
  rewrite alter_alter. reflexivity.
Qed.

Lemma filter_none (f : Z -> bool) (l : list Z) :
  (forall j, In j l -> f j = false) -> List.filter f l = [].
Proof.
  induction l as [|x l IH]; intros Hnone; [reflexivity|].
  cbn [List.filter]. rewrite (Hnone x (or_introl eq_refl)).
  apply IH. intros j Hj. apply Hnone. now right.
Qed.

Lemma book_loop_stay (M k : Z) (ids : list Z) (m : ThreadsManager) (w : Z)
    (sp : SplitPoint) :
  deref (threads m) (M, k) = Some sp ->
  Z.of_nat (length (is_slave sp)) = MAX_THREADS ->
  (forall j, In j ids -> is_slave_at (threads m) (M, k) j = false) ->
  (exists flags,
     Z.of_nat (length flags) = MAX_THREADS
     /\ thread_at (threads m) M
        = update_sp k (set_is_slave flags) <$> thread_at (threads m) M)
  /\ w <= Z.max w (maxThreadsPerSplitPoint m)
  /\ w = w + Z.of_nat
             (length (List.filter (is_slave_at (threads m) (M, k)) ids)).
Proof.
  intros Hsp Hlen Hfalse. split; [|split].
  - exists (is_slave sp). split; [exact Hlen|].
    unfold deref in Hsp. cbn [fst snd] in Hsp.
    destruct (thread_at (threads m) M) as [t|]; [|discriminate].
    cbn [fmap option_fmap option_map]. now rewrite (update_sp_same k t sp).
  - lia.
  - rewrite (filter_none _ _ Hfalse). cbn [length]. lia.
Qed.

Lemma book_loop_spec (M k : Z) (ids : list Z) :
  0 <= M ->
  forall (m : ThreadsManager) (w : Z) (m' : ThreadsManager) (w' : Z)
         (sp : SplitPoint),
    NoDup ids ->
    (forall i, In i ids -> 0 <= i < MAX_THREADS) ->
    deref (threads m) (M, k) = Some sp ->
    Z.of_nat (length (is_slave sp)) = MAX_THREADS ->
    (forall j, In j ids -> is_slave_at (threads m) (M, k) j = false) ->
    book_loop ids M k m w = (m', w') ->
    (activeThreads m' = activeThreads m
     /\ maxThreadsPerSplitPoint m' = maxThreadsPerSplitPoint m
     /\ useSleepingThreads m' = useSleepingThreads m)
    /\ (exists flags,
          Z.of_nat (length flags) = MAX_THREADS
          /\ thread_at (threads m') M
             = update_sp k (set_is_slave flags) <$> thread_at (threads m) M)
    /\ w' <= Z.max w (maxThreadsPerSplitPoint m)
    /\ w' = w + Z.of_nat
                  (length (List.filter (is_slave_at (threads m') (M, k)) ids))
    /\ is_slave_at (threads m') (M, k) M = is_slave_at (threads m) (M, k) M
    /\ forall j, 0 <= j -> j <> M ->
         (In j ids
          /\ is_slave_at (threads m') (M, k) j = true
          /\ available (threads m) j M = true
          /\ thread_at (threads m') j
             = booked (M, k) <$> thread_at (threads m) j)
         \/ (is_slave_at (threads m') (M, k) j
             = is_slave_at (threads m) (M, k) j
             /\ thread_at (threads m') j = thread_at (threads m) j).
Proof.
  intros HM. induction ids as [|i rest IH];
    intros m w m' w' sp Hnd Hrange Hsp Hlen Hfalse Hrun;
    cbn [book_loop] in Hrun.
  { injection Hrun as <- <-.
    destruct (book_loop_stay M k [] m w sp Hsp Hlen Hfalse)
      as (Hm & Hw & Hc).
    repeat split; try assumption; try reflexivity.
    intros j _ _. right. split; reflexivity. }
  destruct (w <? maxThreadsPerSplitPoint m) eqn:Hlt.
  2:{ injection Hrun as <- <-.
      destruct (book_loop_stay M k (i :: rest) m w sp Hsp Hlen Hfalse)
        as (Hm & Hw & Hc).
      repeat split; try assumption; try reflexivity.
      intros j _ _. right. split; reflexivity. }
  apply Z.ltb_lt in Hlt.
  apply NoDup_cons in Hnd as [Hnotin Hnd].
  rewrite list_elem_of_In in Hnotin.
  assert (Hi : 0 <= i < MAX_THREADS) by (apply Hrange; now left).
  assert (Hrange' : forall j, In j rest -> 0 <= j < MAX_THREADS)
    by (intros j Hj; apply Hrange; now right).
  destruct (negb (i =? M) && available (threads m) i M) eqn:Hbook.
  - apply andb_true_iff in Hbook as [HiM Hav].
    apply negb_true_iff, Z.eqb_neq in HiM.
    assert (Hflag : forall j, 0 <= j ->
              is_slave_at (threads (book i M k m)) (M, k) j
              = if j =? i then true else is_slave_at (threads m) (M, k) j).
    { intros j Hj. apply (book_flag i M k j m sp); try assumption; lia. }
    specialize (IH (book i M k m) (w + 1) m' w'
                  (set_is_slave (<[Z.to_nat i := true]> (is_slave sp)) sp)
                  Hnd Hrange').
    destruct IH as (Hcfg & (flags & Hfl & Hmaster) & Hmax & Hcount & HfM & Hper).
    + rewrite book_deref, Hsp by (assumption || lia). reflexivity.
    + cbn [set_is_slave is_slave]. now rewrite length_insert.
    + intros j Hj. rewrite Hflag by (apply Hrange'; exact Hj).
      assert (j <> i) by (intros ->; contradiction).
      replace (j =? i) with false by (symmetry; now apply Z.eqb_neq).
      apply Hfalse. now right.
    + exact Hrun.
    + assert (Hfi : is_slave_at (threads m') (M, k) i = true).
      { destruct (Hper i ltac:(lia) HiM) as [(Hin & _) | (Hsame & _)];
          [contradiction|].
        rewrite Hsame, Hflag by lia. now rewrite Z.eqb_refl. }
      split; [exact Hcfg|]. split; [|split; [|split; [|split]]].
      * exists flags. split; [exact Hfl|].
        rewrite Hmaster, book_thread_master by (assumption || lia).
        destruct (thread_at (threads m) M) as [t|]; [|reflexivity].
        cbn [fmap option_fmap option_map].
        now rewrite update_sp_set_twice.
      * cbn [book maxThreadsPerSplitPoint] in Hmax. lia.
      * cbn [List.filter]. rewrite Hfi. cbn [length]. lia.
      * rewrite HfM, Hflag by lia.
        replace (M =? i) with false
          by (symmetry; apply Z.eqb_neq; congruence).
        reflexivity.
      * intros j Hj HjM.
        destruct (Z.eq_dec j i) as [-> | Hji].
        -- left. split; [now left|]. split; [exact Hfi|].
           split; [exact Hav|].
           destruct (Hper i Hj HjM) as [(Hin & _) | (_ & Hsame)];
             [contradiction|].
           rewrite Hsame. apply book_thread_booked; (assumption || lia).
        -- destruct (Hper j Hj HjM) as [(Hin & Hf & Ha & Ht) | (Hf & Ht)].
           ++ left. split; [now right|]. split; [exact Hf|].
              rewrite book_available in Ha by (assumption || lia).
              rewrite book_thread_other in Ht by (assumption || lia).
              split; assumption.
           ++ right. rewrite Hf, Ht, Hflag by lia.
              replace (j =? i) with false
                by (symmetry; now apply Z.eqb_neq).
              split; [reflexivity|].
              apply book_thread_other; (assumption || lia).
  - specialize (IH m w m' w' sp Hnd Hrange' Hsp Hlen
                  (fun j Hj => Hfalse j (or_intror Hj)) Hrun).
    destruct IH as (Hcfg & Hmaster & Hmax & Hcount & HfM & Hper).
    assert (Hfi : is_slave_at (threads m') (M, k) i = false).
    { destruct (Z.eq_dec i M) as [-> | HiM].
      - rewrite HfM. apply Hfalse. now left.
      - destruct (Hper i ltac:(lia) HiM) as [(Hin & _) | (Hsame & _)];
          [contradiction|].
        rewrite Hsame. apply Hfalse. now left. }
    split; [exact Hcfg|]. split; [exact Hmaster|]. split; [exact Hmax|].
    split; [|split; [exact HfM|]].
    + cbn [List.filter]. rewrite Hfi. exact Hcount.
    + intros j Hj HjM.
      destruct (Hper j Hj HjM) as [(Hin & Hrest) | Hsame].
      * left. split; [now right | exact Hrest].
      * now right.
Qed.

(** *** The start of [split] *)

Lemma manager_slot (m : ThreadsManager) (M : Z) (tM : Thread) (k : Z) :
  manager_ok m -> thread_at (threads m) M = Some tM ->
  0 <= k < MAX_ACTIVE_SPLIT_POINTS ->
  exists sp0, splitPoints tM !! Z.to_nat k = Some sp0
              /\ Z.of_nat (length (is_slave sp0)) = MAX_THREADS.
Proof.
  intros (_ & _ & Hall) HtM Hk.
  rewrite Forall_lookup in Hall. destruct (Hall _ _ HtM) as [Hlen Hsps].
  destruct (lookup_lt_is_Some_2 (splitPoints tM) (Z.to_nat k)) as [sp0 Hsp0];
    [lia|].
  exists sp0. split; [exact Hsp0|].
  rewrite Forall_lookup in Hsps. exact (Hsps _ _ Hsp0).
Qed.

Lemma ids_range (m : ThreadsManager) :
  manager_ok m ->
  NoDup (seqZ 0 (activeThreads m))
  /\ forall i, In i (seqZ 0 (activeThreads m)) <->
               0 <= i < activeThreads m.
Proof.
  intros _. split; [apply NoDup_seqZ|].
  intros i. rewrite <- list_elem_of_In, elem_of_seqZ. lia.
Qed.

Lemma cleared_flag (n j : Z) (flags : list bool) :
  0 <= j < n ->
  default false
    (imap (fun i (flag : bool) => if Z.of_nat i <? n then false else flag)
          flags !! Z.to_nat j) = false.
Proof.
  intros Hj. rewrite list_lookup_imap.
  destruct (flags !! Z.to_nat j) as [flag|]; [|reflexivity].
  cbn [fmap option_fmap option_map default].
  replace (Z.of_nat (Z.to_nat j) <? n) with true; [reflexivity|].
  symmetry. apply Z.ltb_lt. lia.
Qed.

(** The state [split] books the slaves from differs from the one it
    was called in by the split point of the master only. *)
Lemma available_after_init (m : ThreadsManager) (M k j : Z)
    (f : SplitPoint -> SplitPoint) :
  0 <= M -> 0 <= j -> j <> M ->
  available (update_thread M (update_sp k f) (threads m)) j M
  = available (threads m) j M.
Proof.
  intros HM Hj Hne. unfold available.
  now rewrite thread_at_update_ne by congruence.
Qed.

(** X29: when [split] goes on to search, the master's next free split
    point is set up with the arguments of the call and becomes the
    master's current one, with one more active split point; the slaves
    marked in it are threads other than the master that were available
    to it, each now searching on this split point and otherwise as it
    was; every other thread is untouched. There is at least one slave,
    there are at most [maxThreadsPerSplitPoint - 1], and
    [split_point_finished] does not hold yet. *)
Theorem split_books_slaves
    (m m' : ThreadsManager) (M p stack a b best d threat count picker node : Z)
    (tM : Thread) (r : SplitPointRef) :
  manager_ok m -> 0 <= M < activeThreads m ->
  thread_at (threads m) M = Some tM -> 0 <= activeSplitPoints tM ->
  split false m M p stack a b best d threat count picker node
    = Searching m' r ->
  r = (M, activeSplitPoints tM)
  /\ (exists tM',
        thread_at (threads m') M = Some tM'
        /\ is_searching tM' = is_searching tM
        /\ activeSplitPoints tM' = activeSplitPoints tM + 1
        /\ splitPoint tM' = Some r)
  /\ exists sp,
       deref (threads m') r = Some sp
       /\ set_is_slave [] sp
          = mkSplitPoint (splitPoint tM) M false d threat a b node best
                         picker count p 0 stack []
       /\ slave_flag sp M = false
       /\ (forall j, 0 <= j < activeThreads m -> j <> M ->
             if slave_flag sp j
             then available (threads m) j M = true
                  /\ thread_at (threads m') j
                     = booked r <$> thread_at (threads m) j
             else thread_at (threads m') j = thread_at (threads m) j)
       /\ (forall j, activeThreads m <= j ->
             thread_at (threads m') j = thread_at (threads m) j)
       /\ 1 <= Z.of_nat (length (List.filter (slave_flag sp)
                                   (seqZ 0 (activeThreads m))))
            <= maxThreadsPerSplitPoint m - 1
       /\ split_point_finished m' sp = false.
Proof.
  intros Hok HM HtM Hk0 Hsplit.
  unfold split in Hsplit. rewrite HtM in Hsplit.
  destruct (MAX_ACTIVE_SPLIT_POINTS <=? activeSplitPoints tM) eqn:Hk8;
    [discriminate|].
  apply Z.leb_gt in Hk8. cbv zeta in Hsplit.
  set (k := activeSplitPoints tM) in *.
  destruct (manager_slot m M tM k Hok HtM ltac:(lia)) as (sp0 & Hsp0 & Hlen0).
  destruct (ids_range m Hok) as [Hnd Hids].
  match type of Hsplit with
  | context [update_sp k ?f] => set (init := f) in *
  end.
  match type of Hsplit with
  | context [book_loop _ M k ?x 1] => set (m1 := x) in *
  end.
  destruct (book_loop (seqZ 0 (activeThreads m)) M k m1 1) as [m2 w] eqn:Hloop.
  cbn [negb andb] in Hsplit.
  destruct (w =? 1) eqn:Hw1; [discriminate|]. apply Z.eqb_neq in Hw1.
  injection Hsplit as <- <-.
  assert (Hd1 : deref (threads m1) (M, k) = Some (init sp0)).
  { unfold m1. cbn [threads]. rewrite deref_update_sp. unfold deref.
    cbn [fst snd]. rewrite HtM, Hsp0. reflexivity. }
  assert (Hlen1 : Z.of_nat (length (is_slave (init sp0))) = MAX_THREADS).
  { unfold init. cbn [is_slave]. now rewrite length_imap. }
  assert (Hclear : forall j, In j (seqZ 0 (activeThreads m)) ->
            is_slave_at (threads m1) (M, k) j = false).
  { intros j Hj. apply Hids in Hj. unfold is_slave_at. rewrite Hd1.
    unfold slave_flag, init. cbn [is_slave]. now apply cleared_flag. }
  assert (Hrange : forall i, In i (seqZ 0 (activeThreads m)) ->
            0 <= i < MAX_THREADS).
  { intros i Hi. apply Hids in Hi. destruct Hok as (_ & Hact & _). lia. }
  destruct (book_loop_spec M k _ ltac:(lia) m1 1 m2 w (init sp0)
              Hnd Hrange Hd1 Hlen1 Hclear Hloop)
    as ((HaT & Hmax2 & _) & (flags & Hfl & Hmaster) & Hmax & Hcount & HfM
        & Hper).
  assert (Ht1 : thread_at (threads m1) M = Some (update_sp k init tM)).
  { unfold m1. cbn [threads]. now rewrite thread_at_update_eq, HtM. }
  rewrite Ht1 in Hmaster. cbn [fmap option_fmap option_map] in Hmaster.
  assert (Hother1 : forall j, 0 <= j -> j <> M ->
            thread_at (threads m1) j = thread_at (threads m) j).
  { intros j Hj Hne. unfold m1. cbn [threads].
    apply thread_at_update_ne; lia || congruence. }
  assert (Hd2 : deref (threads m2) (M, k)
                = Some (set_is_slave flags (init sp0))).
  { unfold deref. cbn [fst snd]. rewrite Hmaster.
    cbn [update_sp splitPoints]. rewrite !list_lookup_alter.
    destruct (decide (Z.to_nat k = Z.to_nat k)); [|congruence].
    now rewrite Hsp0. }
  assert (Hflag2 : forall j, is_slave_at (threads m2) (M, k) j
                             = slave_flag (set_is_slave flags (init sp0)) j).
  { intros j. unfold is_slave_at. now rewrite Hd2. }
  split; [reflexivity|]. split.
  { eexists. cbn [threads]. rewrite thread_at_update_eq, Hmaster.
    split; [reflexivity|]. repeat split. }
  exists (set_is_slave flags (init sp0)).
  split; [|split; [|split; [|split; [|split; [|split]]]]].
  - unfold deref. cbn [fst snd threads]. rewrite thread_at_update_eq, Hmaster.
    cbn [fmap option_fmap option_map update_sp splitPoints].
    rewrite !list_lookup_alter.
    destruct (decide (Z.to_nat k = Z.to_nat k)); [|congruence].
    now rewrite Hsp0.
  - reflexivity.
  - rewrite <- Hflag2, HfM. apply Hclear, Hids. lia.
  - intros j Hj HjM. cbn [threads].
    rewrite thread_at_update_ne by lia. rewrite <- Hflag2.
    destruct (Hper j ltac:(lia) HjM) as [(_ & Hf & Ha & Ht) | (Hf & Ht)].
    + rewrite Hf. unfold m1 in Ha. cbn [threads] in Ha.
      rewrite available_after_init in Ha by lia.
      split; [exact Ha|]. rewrite Ht, Hother1 by lia. reflexivity.
    + rewrite Hf, (Hclear j) by (apply Hids; lia).
      rewrite Ht. apply Hother1; lia.
  - intros j Hj. cbn [threads].
    rewrite thread_at_update_ne by lia.
    destruct (Hper j ltac:(lia) ltac:(lia)) as [(Hin & _) | (_ & Ht)].
    + apply Hids in Hin. lia.
    + rewrite Ht. apply Hother1; lia.
  - rewrite (filter_ext _ _ Hflag2) in Hcount.
    unfold m1 in Hmax. cbn [maxThreadsPerSplitPoint] in Hmax.
    pose proof (book_loop_mono _ _ _ _ _ _ _ Hloop). lia.
  - unfold split_point_finished. cbn [activeThreads]. rewrite HaT.
    unfold m1. cbn [activeThreads].
    destruct (forallb _ _) eqn:Hall; [|reflexivity].
    rewrite forallb_forall in Hall.
    rewrite (filter_ext _ _ Hflag2), (filter_none _ _) in Hcount.
    + cbn [length] in Hcount. lia.
    + intros j Hj. apply Hall in Hj. now apply negb_true_iff in Hj.
Qed.

(** X30: [split] returns [bestValue] at once exactly when the master
    has no split point left, when a split point may hold one thread
    only, or when [available_slave_exists] finds no slave; it then
    leaves every other thread, the master's own search state and the
    sleeping threads as they were. *)
Theorem split_returns_at_once
    (m : ThreadsManager) (M p stack a b best d threat count picker node : Z)
    (tM : Thread) :
  manager_ok m -> 0 <= M < activeThreads m ->
  thread_at (threads m) M = Some tM -> 0 <= activeSplitPoints tM ->
  ((exists m' v,
      split false m M p stack a b best d threat count picker node
        = Returned m' v)
   <-> MAX_ACTIVE_SPLIT_POINTS <= activeSplitPoints tM
       \/ maxThreadsPerSplitPoint m <= 1
       \/ available_slave_exists m M = false)
  /\ forall m' v,
       split false m M p stack a b best d threat count picker node
         = Returned m' v ->
       v = best
       /\ woken m' = woken m
       /\ (forall j, 0 <= j -> j <> M ->
             thread_at (threads m') j = thread_at (threads m) j)
       /\ exists tM',
            thread_at (threads m') M = Some tM'
            /\ is_searching tM' = is_searching tM
            /\ activeSplitPoints tM' = activeSplitPoints tM
            /\ splitPoint tM' = splitPoint tM.
Proof.
  intros Hok HM HtM Hk0.
  destruct (ids_range m Hok) as [_ Hids].
  unfold split. rewrite HtM.
  destruct (MAX_ACTIVE_SPLIT_POINTS <=? activeSplitPoints tM) eqn:Hk8.
  { apply Z.leb_le in Hk8. split.
    - split; [intros _; now left | intros _; eauto].
    - intros m' v [= <- <-]. repeat split. exists tM. repeat split.
      exact HtM. }
  apply Z.leb_gt in Hk8. cbv zeta.
  set (k := activeSplitPoints tM) in *.
  match goal with
  | |- context [update_sp k ?f] => set (init := f) in *
  end.
  match goal with
  | |- context [book_loop _ M k ?x 1] => set (m1 := x) in *
  end.
  assert (Hav1 : forall j, 0 <= j -> j <> M ->
            available (threads m1) j M = available (threads m) j M).
  { intros j Hj Hne. unfold m1. cbn [threads].
    apply available_after_init; lia. }
  assert (Hidle : maxThreadsPerSplitPoint m <= 1
                  \/ available_slave_exists m M = false ->
                  book_loop (seqZ 0 (activeThreads m)) M k m1 1 = (m1, 1)).
  { intros Hcase. apply book_loop_idle.
    destruct Hcase as [Hmax | Hnone]; [now left | right].
    intros i Hi HiM. apply Hids in Hi. rewrite Hav1 by lia.
    destruct (available (threads m) i M) eqn:Hav; [|reflexivity].
    assert (Hex : available_slave_exists m M = true).
    { apply existsb_exists. exists i. split; [apply Hids; lia|].
      apply Z.eqb_neq in HiM. now rewrite HiM, Hav. }
    congruence. }
  assert (Hbusy : 1 < maxThreadsPerSplitPoint m ->
                  available_slave_exists m M = true ->
                  forall m2 w,
                    book_loop (seqZ 0 (activeThreads m)) M k m1 1 = (m2, w) ->
                    1 < w).
  { intros Hmax Hex m2 w Hloop.
    apply existsb_exists in Hex as (i & Hi & Hgood).
    apply andb_true_iff in Hgood as [HiM Hav].
    apply negb_true_iff, Z.eqb_neq in HiM. apply Hids in Hi.
    apply (book_loop_books M k (seqZ 0 (activeThreads m)) m1 m2 1 w);
      [exact Hmax | | exact Hloop].
    exists i. split; [apply Hids; lia|]. split; [exact HiM|].
    now rewrite Hav1 by lia. }
  assert (Hcases : maxThreadsPerSplitPoint m <= 1
                   \/ available_slave_exists m M = false
                   \/ (1 < maxThreadsPerSplitPoint m
                       /\ available_slave_exists m M = true)).
  { destruct (Z_le_gt_dec (maxThreadsPerSplitPoint m) 1); [now left|].
    destruct (available_slave_exists m M); [right; right; split | right; left];
      (reflexivity || lia). }
  assert (Hm1 : woken m1 = woken m
                /\ (forall j, 0 <= j -> j <> M ->
                      thread_at (threads m1) j = thread_at (threads m) j)
                /\ exists tM',
                     thread_at (threads m1) M = Some tM'
                     /\ is_searching tM' = is_searching tM
                     /\ activeSplitPoints tM' = activeSplitPoints tM
                     /\ splitPoint tM' = splitPoint tM).
  { split; [reflexivity|]. split.
    - intros j Hj Hne. unfold m1. cbn [threads].
      apply thread_at_update_ne; lia || congruence.
    - eexists. unfold m1. cbn [threads]. rewrite thread_at_update_eq, HtM.
      split; [reflexivity|]. repeat split. }
  destruct Hcases as [Hmax | [Hnone | [Hmax Hex]]].
  - rewrite (Hidle (or_introl Hmax)). cbn [negb andb Z.eqb Pos.eqb]. split.
    + split; [intros _; right; now left | intros _; eauto].
    + intros m' v [= <- <-]. split; [reflexivity | exact Hm1].
  - rewrite (Hidle (or_intror Hnone)). cbn [negb andb Z.eqb Pos.eqb]. split.
    + split; [intros _; right; now right | intros _; eauto].
    + intros m' v [= <- <-]. split; [reflexivity | exact Hm1].
  - destruct (book_loop (seqZ 0 (activeThreads m)) M k m1 1) as [m2 w]
      eqn:Hloop.
    pose proof (Hbusy Hmax Hex m2 w eq_refl) as Hw.
    cbn [negb andb].
    replace (w =? 1) with false by (symmetry; apply Z.eqb_neq; lia).
    split.
    + split.
      * intros (m' & v & Hret). discriminate.
      * intros [H8 | [H1 | Hno]]; [lia | lia | congruence].
    + intros m' v Hret. discriminate.
Qed.

End SplitBooking.

Lemma example_manager_ok (maxThreads : Z) :
  Threads.manager_ok (Threads.example_manager maxThreads).
Proof.
  assert (Hsp : Forall (fun sp =>
            Z.of_nat (length (Threads.is_slave sp)) = Threads.MAX_THREADS)
            (replicate 8 Threads.example_split_point))
    by (apply Forall_replicate; reflexivity).
  split; [reflexivity|]. split; [cbn; unfold Threads.MAX_THREADS; lia|].
  cbn [Threads.threads Threads.example_manager].
  apply Forall_cons. split; [split; [reflexivity | exact Hsp]|].
  apply Forall_replicate. split; [reflexivity | exact Hsp].
Qed.

(** Thread 0 splits with room for two threads on a split point. *)
Lemma split_books_slaves_witness :
  exists m' sp,
    Threads.split false (Threads.example_manager 2) 0 1 2 (-50) 50 (-60) 5 0
                  3 4 0 = Threads.Searching m' (0, 0)
    /\ Threads.deref (Threads.threads m') (0, 0) = Some sp
    /\ Threads.slave_flag sp 0 = false
    /\ Threads.split_point_finished m' sp = false.
Proof.
  assert (Hrun : exists m',
            Threads.split false (Threads.example_manager 2) 0 1 2 (-50) 50
                          (-60) 5 0 3 4 0 = Threads.Searching m' (0, 0))
    by (eexists; vm_compute; reflexivity).
  destruct Hrun as [m' Hrun].
  destruct (split_books_slaves (Threads.example_manager 2) m'
              0 1 2 (-50) 50 (-60) 5 0 3 4 0 Threads.example_busy (0, 0)
              (example_manager_ok 2) ltac:(cbn; lia) eq_refl ltac:(cbn; lia)
              Hrun)
    as (_ & _ & sp & Hd & _ & HfM & _ & _ & _ & Hfin).
  exists m', sp. repeat split; assumption.
Defined.

(** With room for one thread only, [split] returns at once. *)
Lemma split_returns_at_once_witness :
  exists m' v,
    Threads.split false (Threads.example_manager 1) 0 1 2 (-50) 50 (-60) 5 0
                  3 4 0 = Threads.Returned m' v.
Proof.
  apply (proj1 (split_returns_at_once (Threads.example_manager 1)
                  0 1 2 (-50) 50 (-60) 5 0 3 4 0 Threads.example_busy
                  (example_manager_ok 1) ltac:(cbn; lia) eq_refl
                  ltac:(cbn; lia))).
  right. left. cbn. lia.
Defined.
